(** * js-currency-converter: a shallow embedding of [src/js-currency-converter.js]

    The module keeps three process-wide objects ([SETTINGS], [CACHED_RATES],
    [CONVERSIONS_IN_PROGRESS]) and talks to two collaborators: jQuery
    ([$.Deferred], [$.get], [$.extend]) and the browser ([localStorage],
    [Date], [JSON], [console]).  The embedding threads one [State] record
    through every function, keeps the promise callbacks of the source as
    first-order closures, and lets a function that can throw return a
    [Result]. *)

From Stdlib Require Import ZArith QArith Lia.
From stdpp Require Import gmap strings list fin_maps.

Close Scope Q_scope.
Open Scope string_scope.
Open Scope list_scope.
Open Scope nat_scope.
Open Scope stdpp_scope.

(** ** JavaScript values *)

(** A JavaScript number: a finite value (every finite double is a rational,
    so comparison is exact) or [NaN].  Infinities are left out. *)
Inductive Number :=
| NaN
| Fin (q : Q).

(** The values that reach the module: [undefined], [null], primitives,
    [Date] objects (with their time value in milliseconds, [None] for an
    invalid date), plain objects as ordered lists of their own properties,
    and the two kinds of member that a value inherits from its prototype
    chain: a built-in function (named by the property it is found under)
    and the built-in prototype objects themselves, which the accessor
    [__proto__] answers with. *)
Inductive Builtin :=
| Object_prototype
| Boolean_prototype
| Number_prototype
| String_prototype
| Date_prototype
| Function_prototype.

#[warnings="-register-all"]
Inductive Value :=
| VUndefined
| VNull
| VBool (b : bool)
| VNum (n : Number)
| VStr (s : string)
| VDate (t : option Z)
| VObj (props : list (string * Value))
| VFunction (name : string)
| VPrototype (which : Builtin).

(** Exceptions a call can raise. *)
Inductive Exn :=
| TypeError
| SecurityError
| QuotaExceededError.

Inductive Result (A : Type) :=
| Ok (a : A)
| Throw (e : Exn).
Arguments Ok {A} a.
Arguments Throw {A} e.

(** Built-ins of the host that the module calls but does not define. *)
Class Host := {
  (** [a * b]: [ToNumber] on both operands, then IEEE-754 multiplication. *)
  js_mul : Value -> Value -> Value;
  (** time value of [new Date(s)]; [None] when [s] does not parse. *)
  Date_parse : string -> option Z;
  (** [ToNumber] of a string or of an object. *)
  host_ToNumber : Value -> Number;
  (** [ToString] of a value that is not a string. *)
  host_ToString : Value -> string;
  (** [JSON.stringify] of an object given by its properties. *)
  JSON_stringify : gmap string Value -> string
}.

(** [ToBoolean]: the truthiness test behind [if], [||], [&&] and [?:]. *)
Definition ToBoolean (v : Value) : bool :=
  match v with
  | VUndefined | VNull => false
  | VBool b => b
  | VNum NaN => false
  | VNum (Fin q) => negb (Qeq_bool q 0)
  | VStr s => negb (String.eqb s "")
  | VDate _ | VObj _ | VFunction _ | VPrototype _ => true
  end.

(** [a || b] *)
Definition js_or (a b : Value) : Value := if ToBoolean a then a else b.

(** Own property lookup [props[name]], first match. *)
Fixpoint assoc (name : string) (props : list (string * Value)) : option Value :=
  match props with
  | [] => None
  | (k, v) :: rest => if String.eqb k name then Some v else assoc name rest
  end.

(** What a plain object reads under a name that is not one of its own
    properties: one of the eleven functions of [Object.prototype], or,
    through the accessor [__proto__], [Object.prototype] itself. *)
Definition Object_prototype_functions : list string :=
  ["constructor"; "hasOwnProperty"; "isPrototypeOf"; "propertyIsEnumerable";
   "toLocaleString"; "toString"; "valueOf";
   "__defineGetter__"; "__defineSetter__"; "__lookupGetter__"; "__lookupSetter__"].

Definition inherited (name : string) : Value :=
  if String.eqb name "__proto__" then VPrototype Object_prototype
  else if existsb (String.eqb name) Object_prototype_functions then VFunction name
  else VUndefined.

(** [o.__proto__] on a value that is neither [undefined] nor [null]: the
    prototype of the value, of its wrapper for a primitive; the chain ends
    with [null] above [Object.prototype]. *)
Definition prototype_of (o : Value) : Value :=
  match o with
  | VUndefined | VNull => VUndefined
  | VBool _ => VPrototype Boolean_prototype
  | VNum _ => VPrototype Number_prototype
  | VStr _ => VPrototype String_prototype
  | VDate _ => VPrototype Date_prototype
  | VObj _ => VPrototype Object_prototype
  | VFunction _ => VPrototype Function_prototype
  | VPrototype Object_prototype => VNull
  | VPrototype _ => VPrototype Object_prototype
  end.

(** [o[name]] on a value that is neither [undefined] nor [null]: the own
    property of a plain object, else the member inherited under the name,
    else [undefined].  The names read by the module are ["value"], ["date"],
    ["val"] and pair keys, which contain an underscore; no primitive, date,
    function or built-in prototype has a member under such a name other
    than those inherited from [Object.prototype]. *)
Definition read (o : Value) (name : string) : Value :=
  match o with
  | VUndefined | VNull => VUndefined
  | VObj props => default (inherited name) (assoc name props)
  | _ => if String.eqb name "__proto__" then prototype_of o else inherited name
  end.

(** [o[name]] in general: reading a property of [undefined] or [null]
    throws. *)
Definition get_prop (o : Value) (name : string) : Result Value :=
  match o with
  | VUndefined | VNull => Throw TypeError
  | _ => Ok (read o name)
  end.

(** ** jQuery deferreds

    A deferred is pending, resolved with a payload or rejected with an
    error, and carries the callbacks added with [.done] and [.fail].  The
    callbacks are the closures of the source, kept as data together with
    the variables they capture; the three [$.Deferred()] sites of the
    module give three kinds of deferred. *)

Inductive Settled (A : Type) :=
| Pending
| Resolved (a : A)
| Rejected (e : Value).
Arguments Pending {A}.
Arguments Resolved {A} a.
Arguments Rejected {A} e.

Record Deferred (A D F : Type) := mkDeferred {
  d_state : Settled A;
  d_done : list D;
  d_fail : list F
}.
Arguments mkDeferred {A D F}.
Arguments d_state {A D F}.
Arguments d_done {A D F}.
Arguments d_fail {A D F}.

Definition new_Deferred {A D F : Type} : Deferred A D F := mkDeferred Pending [] [].

(** The object [getRate] resolves with, [{expired, rate}]; [convertAmount]
    adds [value] to that same object. *)
Record RateObject := mkRateObject {
  expired : bool;
  rate : Value;
  value : option Value
}.

(** Callbacks of the client code: [Notify] records what it is called with,
    [Retry] calls [fetchQuote] again and records the promise it gets. *)
Inductive UserCb :=
| Notify (tag : nat)
| Retry (tag : nat) (fromCurrency toCurrency : Value).

Inductive Received :=
| GotValue (v : Value)
| GotData (data : RateObject)
| GotPromise (p : nat).

(** What [fetchQuote] returns: a promise of the module, or the value the
    in-flight table read under the key when that value is truthy and not a
    promise. *)
Inductive Returned :=
| APromise (p : nat)
| AValue (v : Value).
Coercion APromise : nat >-> Returned.

Definition truthy (r : Returned) : bool :=
  match r with
  | APromise _ => true
  | AValue v => ToBoolean v
  end.

Definition received (r : Returned) : Received :=
  match r with
  | APromise p => GotPromise p
  | AValue v => GotValue v
  end.

(** Closures added to the promise of [fetchQuote] (by [getRate] or by the
    client). *)
Inductive QuoteDoneCb :=
| CbFetchOnSuccess (deferred : nat)
| QuoteDoneUser (u : UserCb).
Inductive QuoteFailCb :=
| CbOldRateFallback (query : string) (deferred : nat)
| QuoteFailUser (u : UserCb).

(** Closures added to the promise of [getRate] (by [convertAmount] or by the
    client). *)
Inductive RateDoneCb :=
| CbConvertOnSuccess (amount : Value) (deferred : nat)
| RateDoneUser (u : UserCb).
Inductive RateFailCb :=
| CbConvertOnError (deferred : nat)
| RateFailUser (u : UserCb).

(** Closures [fetchQuote] adds to the jqXHR of [$.get]. *)
Inductive XhrCb :=
| CbOnSuccess (query : string) (deferred : nat)
| CbOnError (deferred : nat)
| CbOnAlways (query : string).

(** A request made with [$.get]: the jqXHR with its callback lists. *)
Record Request := mkRequest {
  url : string;
  xhr_done : list XhrCb;
  xhr_fail : list XhrCb;
  completed : bool
}.

(** How the remote end answers a request. *)
Inductive Reply :=
| Success (response : Value)
| Failure (error : Value).

(** ** The browser's [localStorage]: items under a quota counted in
    characters of keys and values. *)
Record Storage := mkStorage {
  items : gmap string string;
  quota : nat
}.

Definition storage_size (m : gmap string string) : nat :=
  map_fold (fun k v n => String.length k + String.length v + n) 0 m.

(** ** Module state *)

Record State := mkState {
  SETTINGS : gmap string Value;
  CACHED_RATES : gmap string Value;
  (** [None] under a key is [null]; a key that is absent reads [undefined]. *)
  CONVERSIONS_IN_PROGRESS : gmap string (option nat);
  quotes : list (Deferred Value QuoteDoneCb QuoteFailCb);
  rates : list (Deferred RateObject RateDoneCb RateFailCb);
  conversions : list (Deferred RateObject UserCb UserCb);
  requests : list Request;
  (** [None]: any access to [localStorage] throws. *)
  localStorage : option Storage;
  console : list string;
  (** the time [new Date()] reads, in milliseconds *)
  clock : Z;
  observed : list (nat * Received)
}.

Definition set_SETTINGS (x : gmap string Value) (s : State) : State :=
  mkState x (CACHED_RATES s) (CONVERSIONS_IN_PROGRESS s) (quotes s) (rates s)
    (conversions s) (requests s) (localStorage s) (console s) (clock s) (observed s).
Definition set_CACHED_RATES (x : gmap string Value) (s : State) : State :=
  mkState (SETTINGS s) x (CONVERSIONS_IN_PROGRESS s) (quotes s) (rates s)
    (conversions s) (requests s) (localStorage s) (console s) (clock s) (observed s).
Definition set_CONVERSIONS_IN_PROGRESS (x : gmap string (option nat)) (s : State) : State :=
  mkState (SETTINGS s) (CACHED_RATES s) x (quotes s) (rates s)
    (conversions s) (requests s) (localStorage s) (console s) (clock s) (observed s).
Definition set_quotes (x : list (Deferred Value QuoteDoneCb QuoteFailCb)) (s : State) : State :=
  mkState (SETTINGS s) (CACHED_RATES s) (CONVERSIONS_IN_PROGRESS s) x (rates s)
    (conversions s) (requests s) (localStorage s) (console s) (clock s) (observed s).
Definition set_rates (x : list (Deferred RateObject RateDoneCb RateFailCb)) (s : State) : State :=
  mkState (SETTINGS s) (CACHED_RATES s) (CONVERSIONS_IN_PROGRESS s) (quotes s) x
    (conversions s) (requests s) (localStorage s) (console s) (clock s) (observed s).
Definition set_conversions (x : list (Deferred RateObject UserCb UserCb)) (s : State) : State :=
  mkState (SETTINGS s) (CACHED_RATES s) (CONVERSIONS_IN_PROGRESS s) (quotes s) (rates s)
    x (requests s) (localStorage s) (console s) (clock s) (observed s).
Definition set_requests (x : list Request) (s : State) : State :=
  mkState (SETTINGS s) (CACHED_RATES s) (CONVERSIONS_IN_PROGRESS s) (quotes s) (rates s)
    (conversions s) x (localStorage s) (console s) (clock s) (observed s).
Definition set_localStorage (x : option Storage) (s : State) : State :=
  mkState (SETTINGS s) (CACHED_RATES s) (CONVERSIONS_IN_PROGRESS s) (quotes s) (rates s)
    (conversions s) (requests s) x (console s) (clock s) (observed s).
Definition set_console (x : list string) (s : State) : State :=
  mkState (SETTINGS s) (CACHED_RATES s) (CONVERSIONS_IN_PROGRESS s) (quotes s) (rates s)
    (conversions s) (requests s) (localStorage s) x (clock s) (observed s).
Definition set_clock (x : Z) (s : State) : State :=
  mkState (SETTINGS s) (CACHED_RATES s) (CONVERSIONS_IN_PROGRESS s) (quotes s) (rates s)
    (conversions s) (requests s) (localStorage s) (console s) x (observed s).
Definition set_observed (x : list (nat * Received)) (s : State) : State :=
  mkState (SETTINGS s) (CACHED_RATES s) (CONVERSIONS_IN_PROGRESS s) (quotes s) (rates s)
    (conversions s) (requests s) (localStorage s) (console s) (clock s) x.

(** A computation that reads and writes the module state and may throw; the
    writes made before a throw stay. *)
Definition M (A : Type) : Type := State -> Result A * State.

Definition ret {A} (a : A) : M A := fun s => (Ok a, s).
Definition bind {A B} (c : M A) (k : A -> M B) : M B :=
  fun s => match c s with
           | (Ok a, s') => k a s'
           | (Throw e, s') => (Throw e, s')
           end.
Definition throw {A} (e : Exn) : M A := fun s => (Throw e, s).
Definition lift {A} (r : Result A) : M A := fun s => (r, s).
Definition modify (f : State -> State) : M unit := fun s => (Ok tt, f s).

Notation "x <- c ;; k" := (bind c (fun x => k))
  (at level 100, c at next level, right associativity).
Notation "c ;;; k" := (bind c (fun _ => k))
  (at level 100, right associativity).

(** The three objects of the module are plain objects: a [gmap] holds
    their own properties, and a name that is not an own property is looked
    up in [Object.prototype].

    [SETTINGS.name], for the four names the module reads, none of them
    inherited; and [CACHED_RATES[queryCode]]. *)
Definition setting (name : string) (s : State) : Value :=
  default VUndefined (SETTINGS s !! name).
Definition cached (queryCode : string) (s : State) : Value :=
  default (inherited queryCode) (CACHED_RATES s !! queryCode).

Section Converter.
Context {host : Host}.

Definition ToString (v : Value) : string :=
  match v with
  | VStr s => s
  | _ => host_ToString v
  end.

Definition ToNumber (v : Value) : Number :=
  match v with
  | VUndefined => NaN
  | VNull => Fin 0
  | VBool b => Fin (if b then 1 else 0)
  | VNum n => n
  | VDate (Some t) => Fin (inject_Z t)
  | VDate None => NaN
  | VStr _ | VObj _ | VFunction _ | VPrototype _ => host_ToNumber v
  end.

(** [x > y] on numbers: false as soon as one side is [NaN]. *)
Definition num_gt (x y : Number) : bool :=
  match x, y with
  | Fin a, Fin b => negb (Qle_bool a b)
  | _, _ => false
  end.

(** ** UTILS *)

(** [value !== null && typeof value === 'object']; [Function.prototype] is
    a function. *)
Definition isObject (value : Value) : bool :=
  match value with
  | VDate _ | VObj _ => true
  | VPrototype Function_prototype => false
  | VPrototype _ => true
  | _ => false
  end.

Definition isString (value : Value) : bool :=
  match value with
  | VStr _ => true
  | _ => false
  end.

(** ** HELPERS: the pair key *)

(** [(fromCurrency || '') + '_' + (toCurrency || '')] *)
Definition toQuery (fromCurrency toCurrency : Value) : string :=
  ToString (js_or fromCurrency (VStr "")) +:+ "_" +:+
  ToString (js_or toCurrency (VStr "")).

(** Operations on a table of deferreds; a deferred is named by its index. *)
Definition settle {A D F} (i : nat) (o : Settled A)
    (h : list (Deferred A D F)) : list (Deferred A D F) :=
  alter (fun d => mkDeferred o (d_done d) (d_fail d)) i h.
Definition add_done {A D F} (i : nat) (cb : D)
    (h : list (Deferred A D F)) : list (Deferred A D F) :=
  alter (fun d => mkDeferred (d_state d) (d_done d ++ [cb]) (d_fail d)) i h.
Definition add_fail {A D F} (i : nat) (cb : F)
    (h : list (Deferred A D F)) : list (Deferred A D F) :=
  alter (fun d => mkDeferred (d_state d) (d_done d) (d_fail d ++ [cb])) i h.

(** Callbacks fire in the order in which they were added. *)
Definition fire {C} (call : C -> State -> State) (cbs : list C) (s : State) : State :=
  foldl (fun s cb => call cb s) s cbs.

(** ** HELPERS: the in-flight table *)

(** [CONVERSIONS_IN_PROGRESS[query] = promise]: the own property is set.
    (Under the name ["__proto__"], in a table that has no such own property
    yet, the assignment would replace the prototype of the table instead;
    the module assigns under a key only after the table has read falsy
    under it or after a request was made for it, which rules that case out
    in every run of the module: see [reachable_own_keys].) *)
Definition setConversionInProgress (query : string) (promise : option nat)
    (s : State) : State :=
  set_CONVERSIONS_IN_PROGRESS (<[query := promise]> (CONVERSIONS_IN_PROGRESS s)) s.

(** [CONVERSIONS_IN_PROGRESS[query]]: the own property, a promise or
    [null]; else the member of [Object.prototype] of that name; else
    [undefined]. *)
Definition getConversionInProgress (query : string) (s : State) : Returned :=
  match CONVERSIONS_IN_PROGRESS s !! query with
  | Some (Some promise) => APromise promise
  | Some None => AValue VNull
  | None => AValue (inherited query)
  end.

(** ** fetchQuote

    [$.get] returns a pending jqXHR; [.done], [.fail] and [.always] add to
    its lists ([.always] to both).  The request is answered in a later turn
    of the event loop, by [complete] below. *)
Definition jQuery_get (u : string) : Request := mkRequest u [] [] false.
Definition xhr_add_done (cb : XhrCb) (x : Request) : Request :=
  mkRequest (url x) (xhr_done x ++ [cb]) (xhr_fail x) (completed x).
Definition xhr_add_fail (cb : XhrCb) (x : Request) : Request :=
  mkRequest (url x) (xhr_done x) (xhr_fail x ++ [cb]) (completed x).
Definition xhr_add_always (cb : XhrCb) (x : Request) : Request :=
  mkRequest (url x) (xhr_done x ++ [cb]) (xhr_fail x ++ [cb]) (completed x).

Definition fetchQuote (fromCurrency toCurrency : Value) (s : State) : Returned * State :=
  let deferred := length (quotes s) in
  let s := set_quotes (quotes s ++ [new_Deferred]) s in
  let query := toQuery fromCurrency toCurrency in
  let inProgressPromise := getConversionInProgress query s in
  if truthy inProgressPromise then (inProgressPromise, s)
  else
    let xhr :=
      xhr_add_always (CbOnAlways query)
        (xhr_add_fail (CbOnError deferred)
          (xhr_add_done (CbOnSuccess query deferred)
            (jQuery_get (ToString (setting "API_URL" s) +:+ query)))) in
    let s := set_requests (requests s ++ [xhr]) s in
    let s := setConversionInProgress query (Some deferred) s in
    (APromise deferred, s).

(** ** Settling deferreds *)

Definition call_user (u : UserCb) (arg : Received) (s : State) : State :=
  match u with
  | Notify tag => set_observed (observed s ++ [(tag, arg)]) s
  | Retry tag fromCurrency toCurrency =>
    let '(p, s) := fetchQuote fromCurrency toCurrency s in
    set_observed (observed s ++ [(tag, received p)]) s
  end.

(** [deferred.resolve(data)] and [deferred.reject(error)] in [convertAmount] *)
Definition resolve_conversion (deferred : nat) (data : RateObject) (s : State) : State :=
  match conversions s !! deferred with
  | Some (mkDeferred Pending done _) =>
    fire (fun cb => call_user cb (GotData data)) done
      (set_conversions (settle deferred (Resolved data) (conversions s)) s)
  | _ => s
  end.
Definition reject_conversion (deferred : nat) (error : Value) (s : State) : State :=
  match conversions s !! deferred with
  | Some (mkDeferred Pending _ fail) =>
    fire (fun cb => call_user cb (GotValue error)) fail
      (set_conversions (settle deferred (Rejected error) (conversions s)) s)
  | _ => s
  end.

(** The closures of [convertAmount] *)
Definition convertAmount_onSuccess (amount : Value) (deferred : nat)
    (data : RateObject) (s : State) : State :=
  let data := mkRateObject (expired data) (rate data) (Some (js_mul amount (rate data))) in
  resolve_conversion deferred data s.
Definition convertAmount_onError (deferred : nat) (error : Value) (s : State) : State :=
  reject_conversion deferred error s.

Definition call_rate_done (cb : RateDoneCb) (data : RateObject) (s : State) : State :=
  match cb with
  | CbConvertOnSuccess amount deferred => convertAmount_onSuccess amount deferred data s
  | RateDoneUser u => call_user u (GotData data) s
  end.
Definition call_rate_fail (cb : RateFailCb) (error : Value) (s : State) : State :=
  match cb with
  | CbConvertOnError deferred => convertAmount_onError deferred error s
  | RateFailUser u => call_user u (GotValue error) s
  end.

(** [deferred.resolve({expired, rate})] and [deferred.reject(error)] in [getRate] *)
Definition resolve_rate (deferred : nat) (data : RateObject) (s : State) : State :=
  match rates s !! deferred with
  | Some (mkDeferred Pending done _) =>
    fire (fun cb => call_rate_done cb data) done
      (set_rates (settle deferred (Resolved data) (rates s)) s)
  | _ => s
  end.
Definition reject_rate (deferred : nat) (error : Value) (s : State) : State :=
  match rates s !! deferred with
  | Some (mkDeferred Pending _ fail) =>
    fire (fun cb => call_rate_fail cb error) fail
      (set_rates (settle deferred (Rejected error) (rates s)) s)
  | _ => s
  end.

(** ** HELPERS: the rate cache *)

Definition isRateCached (queryCode : string) (s : State) : bool :=
  isObject (cached queryCode s).

(** [compareDate.getTime()] *)
Definition getTime (d : Value) : Result (option Z) :=
  match d with
  | VDate t => Ok t
  | _ => Throw TypeError
  end.

(** [new Date().getTime() - compareDate.getTime()] *)
Definition age (now : Z) (t : option Z) : Number :=
  match t with
  | Some t => Fin (inject_Z (now - t))
  | None => NaN
  end.

Definition isRateExpired (rate : Value) (s : State) : Result bool :=
  let date := read rate "date" in
  let compareDate :=
    match date with
    | VStr str => VDate (Date_parse str)
    | _ => date
    end in
  match getTime compareDate with
  | Ok t => Ok (num_gt (age (clock s) t) (ToNumber (setting "RATES_VALIDITY_HOURS" s)))
  | Throw e => Throw e
  end.

Definition isRateValid (queryCode : string) (s : State) : Result bool :=
  if isObject (cached queryCode s) then
    match isRateExpired (cached queryCode s) s with
    | Ok b => Ok (negb b)
    | Throw e => Throw e
    end
  else Ok false.

(** The closures of [getRate] *)
Definition resolveRate (deferred : nat) (isExpired : bool) (rateValue : Value)
    (s : State) : State :=
  resolve_rate deferred (mkRateObject isExpired rateValue None) s.
Definition fetchOnSuccess (deferred : nat) (rate : Value) (s : State) : State :=
  resolveRate deferred false rate s.
Definition oldRateFallback (query : string) (deferred : nat) (error : Value)
    (s : State) : State :=
  if isRateCached query s then
    resolveRate deferred true (read (cached query s) "value") s
  else reject_rate deferred error s.

Definition call_quote_done (cb : QuoteDoneCb) (rate : Value) (s : State) : State :=
  match cb with
  | CbFetchOnSuccess deferred => fetchOnSuccess deferred rate s
  | QuoteDoneUser u => call_user u (GotValue rate) s
  end.
Definition call_quote_fail (cb : QuoteFailCb) (error : Value) (s : State) : State :=
  match cb with
  | CbOldRateFallback query deferred => oldRateFallback query deferred error s
  | QuoteFailUser u => call_user u (GotValue error) s
  end.

(** [deferred.resolve(val)] and [deferred.reject(error)] in [fetchQuote] *)
Definition resolve_quote (deferred : nat) (val : Value) (s : State) : State :=
  match quotes s !! deferred with
  | Some (mkDeferred Pending done _) =>
    fire (fun cb => call_quote_done cb val) done
      (set_quotes (settle deferred (Resolved val) (quotes s)) s)
  | _ => s
  end.
Definition reject_quote (deferred : nat) (error : Value) (s : State) : State :=
  match quotes s !! deferred with
  | Some (mkDeferred Pending _ fail) =>
    fire (fun cb => call_quote_fail cb error) fail
      (set_quotes (settle deferred (Rejected error) (quotes s)) s)
  | _ => s
  end.

(** ** UTILS: local storage *)

(** [localStorage.setItem(key, value)]: throws when the store cannot be
    reached or when the item does not fit. *)
Definition localStorage_setItem (key value : string) : M unit :=
  fun s =>
    match localStorage s with
    | None => (Throw SecurityError, s)
    | Some st =>
      let items' := <[key := value]> (items st) in
      if storage_size items' <=? quota st
      then (Ok tt, set_localStorage (Some (mkStorage items' (quota st))) s)
      else (Throw QuotaExceededError, s)
    end.

Definition localStorage_removeItem (key : string) : M unit :=
  fun s =>
    match localStorage s with
    | None => (Throw SecurityError, s)
    | Some st =>
      (Ok tt, set_localStorage (Some (mkStorage (delete key (items st)) (quota st))) s)
    end.

(** [try { setItem(test, test); removeItem(test); return true }
     catch (e) { return false }] *)
Definition isLocalStorageAvailable : M bool :=
  fun s =>
    let test := "js-currency-test" in
    match (localStorage_setItem test test ;;; localStorage_removeItem test) s with
    | (Ok _, s') => (Ok true, s')
    | (Throw _, s') => (Ok false, s')
    end.

Definition console_error (msg : string) : M unit :=
  modify (fun s => set_console (console s ++ [msg]) s).

Definition saveToLocalStorage (key : Value) (value : gmap string Value) : M unit :=
  available <- isLocalStorageAvailable ;;
  if available : bool then
    localStorage_setItem (ToString key) (JSON_stringify value)
  else
    console_error "Caching rates to local storage failed. Local storage not available".

(** [CACHED_RATES[rateName] = {value, date}] sets the own property (with the
    same proviso for ["__proto__"] as in [setConversionInProgress]:
    [cacheRate] runs for the key of a request only). *)
Definition cacheRate (rateName : string) (value : Value) : M unit :=
  modify (fun s =>
    set_CACHED_RATES
      (<[rateName := VObj [("value", value); ("date", VDate (Some (clock s)))]]>
         (CACHED_RATES s)) s) ;;;
  fun s =>
    if ToBoolean (setting "CACHE_TO_LOCAL_STORAGE" s) then
      saveToLocalStorage (setting "LOCAL_STORAGE_VARIABLE_NAME" s) (CACHED_RATES s) s
    else (Ok tt, s).

(** ** The closures of [fetchQuote] and the answer to a request *)

Definition fetchQuote_onSuccess (query : string) (deferred : nat)
    (response : Value) : M unit :=
  entry <- lift (get_prop response query) ;;
  val <- lift (get_prop entry "val") ;;
  cacheRate query val ;;;
  modify (resolve_quote deferred val).

Definition fetchQuote_onError (deferred : nat) (error : Value) : M unit :=
  modify (reject_quote deferred error).

Definition fetchQuote_onAlways (query : string) : M unit :=
  modify (setConversionInProgress query None).

Definition call_xhr (reply : Reply) (cb : XhrCb) : M unit :=
  match cb, reply with
  | CbOnSuccess query deferred, Success response =>
    fetchQuote_onSuccess query deferred response
  | CbOnError deferred, Failure error => fetchQuote_onError deferred error
  | CbOnAlways query, _ => fetchQuote_onAlways query
  | _, _ => ret tt
  end.

(** The callbacks of a list run in order; an exception thrown by one of them
    leaves the list and the remaining callbacks do not run. *)
Fixpoint fire_xhr (reply : Reply) (cbs : list XhrCb) : M unit :=
  match cbs with
  | [] => ret tt
  | cb :: rest => call_xhr reply cb ;;; fire_xhr reply rest
  end.

(** The remote end answers request [i]: its done list fires on success, its
    fail list on failure.  A [Throw] here is an exception nobody catches. *)
Definition complete (i : nat) (reply : Reply) : M unit :=
  fun s =>
    match requests s !! i with
    | Some x =>
      if completed x then (Ok tt, s)
      else
        let s := set_requests
                   (<[i := mkRequest (url x) (xhr_done x) (xhr_fail x) true]> (requests s)) s in
        match reply with
        | Success _ => fire_xhr reply (xhr_done x) s
        | Failure _ => fire_xhr reply (xhr_fail x) s
        end
    | None => (Ok tt, s)
    end.

(** ** [.done] and [.fail] on the promises the module hands out: added to
    the list while the deferred is pending, called at once when it has
    already settled that way, dropped when it settled the other way. *)

Definition quote_done (p : nat) (cb : QuoteDoneCb) (s : State) : State :=
  match quotes s !! p with
  | Some (mkDeferred Pending _ _) => set_quotes (add_done p cb (quotes s)) s
  | Some (mkDeferred (Resolved val) _ _) => call_quote_done cb val s
  | _ => s
  end.
Definition quote_fail (p : nat) (cb : QuoteFailCb) (s : State) : State :=
  match quotes s !! p with
  | Some (mkDeferred Pending _ _) => set_quotes (add_fail p cb (quotes s)) s
  | Some (mkDeferred (Rejected error) _ _) => call_quote_fail cb error s
  | _ => s
  end.
Definition rate_done (p : nat) (cb : RateDoneCb) (s : State) : State :=
  match rates s !! p with
  | Some (mkDeferred Pending _ _) => set_rates (add_done p cb (rates s)) s
  | Some (mkDeferred (Resolved data) _ _) => call_rate_done cb data s
  | _ => s
  end.
Definition rate_fail (p : nat) (cb : RateFailCb) (s : State) : State :=
  match rates s !! p with
  | Some (mkDeferred Pending _ _) => set_rates (add_fail p cb (rates s)) s
  | Some (mkDeferred (Rejected error) _ _) => call_rate_fail cb error s
  | _ => s
  end.
Definition conversion_done (p : nat) (cb : UserCb) (s : State) : State :=
  match conversions s !! p with
  | Some (mkDeferred Pending _ _) => set_conversions (add_done p cb (conversions s)) s
  | Some (mkDeferred (Resolved data) _ _) => call_user cb (GotData data) s
  | _ => s
  end.
Definition conversion_fail (p : nat) (cb : UserCb) (s : State) : State :=
  match conversions s !! p with
  | Some (mkDeferred Pending _ _) => set_conversions (add_fail p cb (conversions s)) s
  | Some (mkDeferred (Rejected error) _ _) => call_user cb (GotValue error) s
  | _ => s
  end.

(** ** Exposed functions *)

Definition getRate (fromCurrency toCurrency : Value) : M nat :=
  fun s =>
    let deferred := length (rates s) in
    let s := set_rates (rates s ++ [new_Deferred]) s in
    let query := toQuery fromCurrency toCurrency in
    match isRateValid query s with
    | Throw e => (Throw e, s)
    | Ok true =>
      (Ok deferred, resolveRate deferred false (read (cached query s) "value") s)
    | Ok false =>
      let '(p, s) := fetchQuote fromCurrency toCurrency s in
      match p with
      | APromise p =>
        let s := quote_done p (CbFetchOnSuccess deferred) s in
        let s := quote_fail p (CbOldRateFallback query deferred) s in
        (Ok deferred, s)
      | AValue _ =>
        (* [.done] of a value that is not a promise is not a function *)
        (Throw TypeError, s)
      end
    end.

Definition convertAmount (amount fromCurrency toCurrency : Value) : M nat :=
  fun s =>
    let deferred := length (conversions s) in
    let s := set_conversions (conversions s ++ [new_Deferred]) s in
    match getRate fromCurrency toCurrency s with
    | (Throw e, s) => (Throw e, s)
    | (Ok p, s) =>
      let s := rate_done p (CbConvertOnSuccess amount deferred) s in
      let s := rate_fail p (CbConvertOnError deferred) s in
      (Ok deferred, s)
    end.

(** [$.extend(target, options)]: every enumerable property of [options]
    whose value is not [undefined] is assigned to [target]; the name
    ["__proto__"] is skipped. *)
Definition jQuery_extend (target : gmap string Value) (options : Value) : gmap string Value :=
  match options with
  | VObj props =>
    foldl (fun target '(name, copy) =>
             if String.eqb name "__proto__" then target
             else match copy with
                  | VUndefined => target
                  | _ => <[name := copy]> target
                  end) target props
  | _ => target
  end.

Definition config (options : Value) (s : State) : State :=
  if isObject options then set_SETTINGS (jQuery_extend (SETTINGS s) options) s
  else s.

(** Time passes between two turns of the event loop. *)
Definition tick (dt : Z) (s : State) : State := set_clock (clock s + Z.max 0 dt) s.

(** ** The state the module starts in *)

Definition HOURS : Z := 60 * 60 * 1000.

Definition default_SETTINGS : gmap string Value :=
  <["RATES_VALIDITY_HOURS" := VNum (Fin (inject_Z (HOURS * 24)))]>
  (<["CACHE_TO_LOCAL_STORAGE" := VBool true]>
  (<["LOCAL_STORAGE_VARIABLE_NAME" := VStr "JS_CURRENCY_CONVERTER_CACHED_RATES"]>
  (<["API_URL" := VStr "http://free.currencyconverterapi.com/api/v3/convert?compact=y&q="]>
   ∅))).

(** The module just loaded: default settings, the own properties of the
    cache found at load time, and an in-flight table with no property of
    its own (both tables inherit from [Object.prototype], see [cached] and
    [getConversionInProgress]). *)
Definition loaded (cache : gmap string Value) (store : option Storage) (now : Z) : State :=
  mkState default_SETTINGS cache ∅ [] [] [] [] store [] now [].

End Converter.

(** ** A concrete host and concrete states, for closed examples *)

Definition demo_mul (a b : Value) : Value :=
  match a, b with
  | VNum (Fin x), VNum (Fin y) => VNum (Fin (Qred (x * y)))
  | _, _ => VNum NaN
  end.

Definition demo_host : Host := {|
  js_mul := demo_mul;
  Date_parse := fun s => if String.eqb s "1970-01-01T00:00:00.000Z" then Some 0%Z else None;
  host_ToNumber := fun _ => NaN;
  host_ToString := fun _ => "[object Object]";
  JSON_stringify := fun m => map_fold (fun k _ acc => k +:+ ";" +:+ acc) "" m
|}.

Definition USD : Value := VStr "USD".
Definition EUR : Value := VStr "EUR".

(** A record as [cacheRate] writes it and as it comes back from storage. *)
Definition record_at (v : Value) (t : Z) : Value :=
  VObj [("value", v); ("date", VDate (Some t))].
Definition stored_record (v : Value) (date : string) : Value :=
  VObj [("value", v); ("date", VStr date)].

(** first load, empty store with room for 1000 characters, at time 1000 *)
Definition demo_start : State := loaded ∅ (Some (mkStorage ∅ 1000)) 1000.

(** a rate of 17/20 cached at time 0, read one day later to the millisecond *)
Definition demo_boundary : State :=
  loaded {["USD_EUR" := record_at (VNum (Fin (17 # 20))) 0]} None 86400000.

(** the same record, one millisecond younger and one millisecond older *)
Definition demo_fresh : State :=
  loaded {["USD_EUR" := record_at (VNum (Fin (17 # 20))) 0]} None 86399999.
Definition demo_stale : State :=
  loaded {["USD_EUR" := record_at (VNum (Fin (17 # 20))) 0]} None 86400001.

(** the answer of the remote end for USD_EUR, [{"USD_EUR": {"val": 0.85}}] *)
Definition demo_response : Value :=
  VObj [("USD_EUR", VObj [("val", VNum (Fin (17 # 20)))])].

(** a store with room for 40 characters: the probe of
    [isLocalStorageAvailable] (32 characters) fits, the cache under its
    34-character name does not *)
Definition demo_full : State := loaded ∅ (Some (mkStorage ∅ 40)) 1000.

(** a client calls [fetchQuote] and, on failure, calls it again *)
Definition demo_retry : State :=
  let '(p, s) := @fetchQuote demo_host USD EUR demo_start in
  match p with
  | APromise p => @quote_fail demo_host p (QuoteFailUser (Retry 7 USD EUR)) s
  | AValue _ => s
  end.

(** The instant a cached record was written, after the normalisation
    [isRateExpired] applies: a [Date], or a string that parses. *)
Definition record_instant {host : Host} (rate : Value) : option Z :=
  match read rate "date" with
  | VDate t => t
  | VStr str => Date_parse str
  | _ => None
  end.


(** ** Loading the module

    The factory of the module reads the cache of an earlier session with
    [getFromLocalStorage] before it returns the four exposed functions. *)

(** What [JSON.parse] can return.  An array is kept apart: it is an object
    for [isObject], and [JSON.stringify] writes it without its named
    properties. *)
Inductive Json :=
| JValue (v : Value)
| JArray (elements : list Value).

(** [JSON.parse(text)]; [None] when it throws a [SyntaxError].  The
    properties of a parsed object have distinct names. *)
Class Reader := {
  JSON_parse : string -> option Json
}.

(** How a call made while the module loads ends. *)
Inductive Loaded (A : Type) :=
| Returns (a : A)
| Raises (e : Exn)
| RaisesSyntaxError.
Arguments Returns {A} a.
Arguments Raises {A} e.
Arguments RaisesSyntaxError {A}.

(** What evaluating the factory gives: the module with its state; a module
    whose [CACHED_RATES] is not a plain object ([cache] is what it is); or
    the exception that escapes, in which case no module is defined. *)
Inductive Module :=
| Ready (s : State)
| Odd (cache : Json) (s : State)
| Broken (e : Loaded unit) (s : State).

Section Loading.
Context {host : Host} {reader : Reader}.

(** [localStorage.getItem(key)]: the item, or [null] when there is none. *)
Definition localStorage_getItem (key : string) : M (option string) :=
  fun s =>
    match localStorage s with
    | None => (Throw SecurityError, s)
    | Some st => (Ok (items st !! key), s)
    end.

Definition getFromLocalStorage (key : Value) (s : State) : Loaded Json * State :=
  match isLocalStorageAvailable s with
  | (Ok true, s) =>
    match localStorage_getItem (ToString key) s with
    | (Ok item, s) =>
      (* [JSON.parse] applies [ToString] to its argument *)
      let text := match item with Some text => text | None => "null" end in
      match JSON_parse text with
      | Some json => (Returns json, s)
      | None => (RaisesSyntaxError, s)
      end
    | (Throw e, s) => (Raises e, s)
    end
  | (Ok false, s) =>
    match console_error
            "Retrieving rates from local storage failed. Local storage not available" s with
    | (_, s) => (Returns (JValue VUndefined), s)
    end
  | (Throw e, s) => (Raises e, s)
  end.

(** [var HOURS = ..., SETTINGS = {...},
         CACHED_RATES = SETTINGS.CACHE_TO_LOCAL_STORAGE
           ? (getFromLocalStorage(SETTINGS.LOCAL_STORAGE_VARIABLE_NAME) || {}) : {},
         CONVERSIONS_IN_PROGRESS = {};]
    in a browser whose store is [store], at time [now]. *)
Definition factory (store : option Storage) (now : Z) : Module :=
  let s := loaded ∅ store now in
  if ToBoolean (setting "CACHE_TO_LOCAL_STORAGE" s) then
    match getFromLocalStorage (setting "LOCAL_STORAGE_VARIABLE_NAME" s) s with
    | (Returns (JValue v), s) =>
      if ToBoolean v then
        match v with
        | VObj props => Ready (set_CACHED_RATES (list_to_map props) s)
        | _ => Odd (JValue v) s
        end
      else Ready s
    | (Returns (JArray elements), s) => Odd (JArray elements) s
    | (Raises e, s) => Broken (Raises e) s
    | (RaisesSyntaxError, s) => Broken RaisesSyntaxError s
    end
  else Ready s.

End Loading.

(** A parser for the closed examples.  The concrete host writes the keys of
    a cache only, so this parser can be right about one cache with the key
    USD_EUR: it answers with what JSON makes of the rate 17/20 cached at
    instant 0, the cache that the example of saving and loading writes.
    It also knows [null]; any other text is refused. *)
Definition demo_reader : Reader := {|
  JSON_parse := fun text =>
    if String.eqb text "null" then Some (JValue VNull)
    else if String.eqb text "USD_EUR;" then
      Some (JValue (VObj [("USD_EUR",
                           stored_record (VNum (Fin (17 # 20)))
                             "1970-01-01T00:00:00.000Z")]))
    else None
|}.

(** first load at instant 0, empty store with room for 1000 characters *)
Definition demo_epoch : State := loaded ∅ (Some (mkStorage ∅ 1000)) 0.

(** a fetch started in a browser whose store cannot be reached *)
Definition demo_offline : State :=
  snd (@fetchQuote demo_host USD EUR (loaded ∅ None 1000)).

(** persistence switched off right after the first load *)
Definition demo_off : State :=
  config (VObj [("CACHE_TO_LOCAL_STORAGE", VBool false)]) demo_start.

(** the cache is to be saved under a name of the page's own *)
Definition demo_renamed : State :=
  config (VObj [("LOCAL_STORAGE_VARIABLE_NAME", VStr "MY_RATES")]) demo_start.

(** a later answer of the remote end, [{"USD_EUR": {"val": 0.9}}], and an
    answer without the pair, [{}] *)
Definition demo_response_new : Value :=
  VObj [("USD_EUR", VObj [("val", VNum (Fin (9 # 10)))])].
Definition demo_response_empty : Value := VObj [].

(** records that did not come from [cacheRate]: a date that does not parse,
    and no date at all *)
Definition demo_misdated : State :=
  loaded {["USD_EUR" := stored_record (VNum (Fin (17 # 20))) "yesterday"]} None 1000.
Definition demo_undated : State :=
  loaded {["USD_EUR" := VObj [("value", VNum (Fin (17 # 20)))]]} None 1000.

(** stores found at load: one with the saved cache and 8 characters to
    spare, one whose item is not JSON *)
Definition demo_store_full : Storage :=
  mkStorage {["JS_CURRENCY_CONVERTER_CACHED_RATES" := "USD_EUR;"]} 50.
Definition demo_store_corrupt : Storage :=
  mkStorage {["JS_CURRENCY_CONVERTER_CACHED_RATES" := "{oops"]} 1000.

(** ** Vocabulary of the statements *)

(** The storage functions write [localStorage] and [console] and nothing
    else. *)
Definition storage_only (s s' : State) : Prop :=
  exists ls c, s' = set_console c (set_localStorage ls s).

(** The fields of [options] that [$.extend] copies, latest first. *)
Definition is_copied (p : string * Value) : bool :=
  negb (String.eqb (fst p) "__proto__")
  && match snd p with VUndefined => false | _ => true end.
Definition copied (props : list (string * Value)) : list (string * Value) :=
  reverse (List.filter is_copied props).

(** What settling does to a table of deferreds: the table keeps its
    length, every deferred keeps its callbacks, and a deferred changes state
    only if it is one of the targets [T] and was pending. *)
Definition heap_evolve {A D F} (T : nat -> Prop) (h h' : list (Deferred A D F)) : Prop :=
  length h' = length h
  /\ forall i d, h !! i = Some d ->
       exists d', h' !! i = Some d'
                  /\ d_done d' = d_done d /\ d_fail d' = d_fail d
                  /\ (d_state d' = d_state d \/ (T i /\ d_state d = Pending)).

Definition same_env (s s' : State) : Prop :=
  SETTINGS s' = SETTINGS s /\ CACHED_RATES s' = CACHED_RATES s
  /\ clock s' = clock s /\ localStorage s' = localStorage s
  /\ console s' = console s.

(** Firing callbacks settles deferreds of [getRate] among [TR] and deferreds
    of [convertAmount] among [TC], and leaves settings, cache, clock and
    store alone. *)
Definition settles (TR TC : nat -> Prop) (s s' : State) : Prop :=
  same_env s s'
  /\ heap_evolve TR (rates s) (rates s')
  /\ heap_evolve TC (conversions s) (conversions s').

(** The deferred a closure settles. *)
Definition rate_of_done (cb : QuoteDoneCb) : option nat :=
  match cb with CbFetchOnSuccess d => Some d | QuoteDoneUser _ => None end.
Definition rate_of_fail (cb : QuoteFailCb) : option nat :=
  match cb with CbOldRateFallback _ d => Some d | QuoteFailUser _ => None end.
Definition conv_of_done (cb : RateDoneCb) : option nat :=
  match cb with CbConvertOnSuccess _ d => Some d | RateDoneUser _ => None end.
Definition conv_of_fail (cb : RateFailCb) : option nat :=
  match cb with CbConvertOnError d => Some d | RateFailUser _ => None end.

Definition targets {C} (target : C -> option nat) (cbs : list C) (d : nat) : Prop :=
  exists cb, cb ∈ cbs /\ target cb = Some d.

Definition nobody : nat -> Prop := fun _ => False.
Definition anybody : nat -> Prop := fun _ => True.

Ltac proj :=
  cbn [SETTINGS CACHED_RATES CONVERSIONS_IN_PROGRESS quotes rates conversions
       requests localStorage console clock observed
       set_SETTINGS set_CACHED_RATES set_CONVERSIONS_IN_PROGRESS set_quotes
       set_rates set_conversions set_requests set_localStorage set_console
       set_clock set_observed fst snd] in *.

(** The request [fetchQuote] issues for [query] on behalf of [deferred]. *)
Definition fetch_request {host : Host} (s : State) (query : string) (deferred : nat) : Request :=
  mkRequest (ToString (setting "API_URL" s) +:+ query)
    [CbOnSuccess query deferred; CbOnAlways query]
    [CbOnError deferred; CbOnAlways query] false.

(** No fetch is registered under [query]: the table reads [undefined]
    (nothing of its own and nothing inherited under the name) or [null]. *)
Definition idle (query : string) (s : State) : Prop :=
  (CONVERSIONS_IN_PROGRESS s !! query = None /\ ToBoolean (inherited query) = false)
  \/ CONVERSIONS_IN_PROGRESS s !! query = Some None.

(** The table has nothing of its own under [query] and reads a member of
    [Object.prototype] there. *)
Definition reads_member (query : string) (s : State) : Prop :=
  CONVERSIONS_IN_PROGRESS s !! query = None /\ ToBoolean (inherited query) = true.

Definition is_pending {A D F} (h : list (Deferred A D F)) (i : nat) : Prop :=
  exists d, h !! i = Some d /\ d_state d = Pending.

Definition state_of {A D F} (h : list (Deferred A D F)) (i : nat) : option (Settled A) :=
  d_state <$> h !! i.

(** The deferred [d] of a [getRate] call for [query] waits on the quote
    promise [P]: its two closures are on [P]'s lists, and no closure ahead
    of them settles [d]. *)
Definition awaits (s : State) (P : nat) (query : string) (d : nat) : Prop :=
  exists L1 L2 F1 F2,
    quotes s !! P
    = Some (mkDeferred Pending (L1 ++ CbFetchOnSuccess d :: L2)
              (F1 ++ CbOldRateFallback query d :: F2))
    /\ ~ targets rate_of_done L1 d /\ ~ targets rate_of_fail F1 d
    /\ is_pending (rates s) d.

(** Closures on the quote promises only name [getRate] deferreds that
    exist. *)
Definition rates_bounded (s : State) : Prop :=
  forall P dq d, quotes s !! P = Some dq ->
    targets rate_of_done (d_done dq) d \/ targets rate_of_fail (d_fail dq) d ->
    d < length (rates s).

(** What [getRate] resolves with when the fetch fails. *)
Definition fallback (query : string) (error : Value) (s : State) : Settled RateObject :=
  if isRateCached query s
  then Resolved (mkRateObject true (read (cached query s) "value") None)
  else Rejected error.

(** Request [i] is flagged as answered. *)
Definition mark_completed (i : nat) (x : Request) (s : State) : State :=
  set_requests (<[i := mkRequest (url x) (xhr_done x) (xhr_fail x) true]> (requests s)) s.

(** [n] calls in a row, none of them giving control back to the event loop;
    the promises are returned in call order. *)
Fixpoint repeat_call {A} (n : nat) (c : M A) : M (list A) :=
  match n with
  | 0 => ret []
  | S n => a <- c ;; l <- repeat_call n c ;; ret (a :: l)
  end.

(** [k] callers of [getRate] for [query], with deferreds [d0 .. d0+k-1],
    wait on the quote promise [P], whose request is the last one issued. *)
Definition sharing {host : Host} (s0 s : State) (query : string) (k : nat) : Prop :=
  let P := length (quotes s0) in
  let d0 := length (rates s0) in
  CONVERSIONS_IN_PROGRESS s !! query = Some (Some P)
  /\ quotes s !! P
     = Some (mkDeferred Pending (CbFetchOnSuccess <$> seq d0 k)
               (CbOldRateFallback query <$> seq d0 k))
  /\ rates s = rates s0 ++ replicate k new_Deferred
  /\ requests s = requests s0 ++ [fetch_request s0 query P]
  /\ same_env s0 s.

(** What firing callbacks does to the in-flight table, the quote deferreds
    and the request log: an entry that holds a promise keeps it, and the two
    lists only get longer, the first by deferreds without callbacks (a
    callback of the client may call [fetchQuote]); what the client has
    recorded stays recorded. *)
Definition grows (s s' : State) : Prop :=
  (forall query p, CONVERSIONS_IN_PROGRESS s !! query = Some (Some p) ->
                   CONVERSIONS_IN_PROGRESS s' !! query = Some (Some p))
  /\ (exists l, quotes s' = quotes s ++ l /\ Forall (fun d => d = new_Deferred) l)
  /\ (exists l, requests s' = requests s ++ l)
  /\ (exists l, observed s' = observed s ++ l).

(** [data.value = amount * data.rate] *)
Definition with_value {host : Host} (amount : Value) (data : RateObject) : RateObject :=
  mkRateObject (expired data) (rate data) (Some (js_mul amount (rate data))).

(** The promise [c] of [convertAmount] follows the promise [p] of its
    [getRate] call: pending with it, resolved with its object plus [value],
    rejected with its error. *)
Definition follows {host : Host} (s : State) (p c : nat) (amount : Value) : Prop :=
  match state_of (rates s) p with
  | Some Pending => state_of (conversions s) c = Some Pending
  | Some (Resolved data) =>
    state_of (conversions s) c = Some (Resolved (with_value amount data))
  | Some (Rejected error) => state_of (conversions s) c = Some (Rejected error)
  | None => False
  end.

(** Closures on the [getRate] promises only name [convertAmount] deferreds
    that exist. *)
Definition conversions_bounded (s : State) : Prop :=
  forall d dr c, rates s !! d = Some dr ->
    targets conv_of_done (d_done dr) c \/ targets conv_of_fail (d_fail dr) c ->
    c < length (conversions s).

(** While [p] is pending it carries the two closures of [convertAmount] and
    nothing else, and no other [getRate] promise settles [c]. *)
Definition converting {host : Host} (s : State) (p c : nat) (amount : Value) : Prop :=
  follows s p c amount
  /\ (state_of (rates s) p = Some Pending ->
      rates s !! p
      = Some (mkDeferred Pending [CbConvertOnSuccess amount c] [CbConvertOnError c]))
  /\ (forall d dr, d <> p -> rates s !! d = Some dr ->
        ~ targets conv_of_done (d_done dr) c /\ ~ targets conv_of_fail (d_fail dr) c).

(** The answers of the remote end, one request at a time; an exception
    thrown by a handler is lost in the event loop. *)
Definition answers {host : Host} (events : list (nat * Reply)) (s : State) : State :=
  foldl (fun s '(i, reply) => snd (complete i reply s)) s events.

(** ** The client

    What the client of the module and the remote end can do, one turn of
    the event loop at a time.  An exception that escapes a call or a handler
    ends the turn; what was written before it stays. *)
Inductive Promise :=
| QuotePromise (p : nat)
| RatePromise (p : nat)
| ConversionPromise (p : nat).

Inductive Action :=
| Config (options : Value)
| GetRate (fromCurrency toCurrency : Value)
| FetchQuote (fromCurrency toCurrency : Value)
| ConvertAmount (amount fromCurrency toCurrency : Value)
| Done (p : Promise) (u : UserCb)
| Fail (p : Promise) (u : UserCb)
| Answer (i : nat) (reply : Reply)
| Wait (dt : Z).

Definition perform {host : Host} (a : Action) (s : State) : State :=
  match a with
  | Config options => config options s
  | GetRate f t => snd (getRate f t s)
  | FetchQuote f t => snd (fetchQuote f t s)
  | ConvertAmount amount f t => snd (convertAmount amount f t s)
  | Done (QuotePromise p) u => quote_done p (QuoteDoneUser u) s
  | Done (RatePromise p) u => rate_done p (RateDoneUser u) s
  | Done (ConversionPromise p) u => conversion_done p u s
  | Fail (QuotePromise p) u => quote_fail p (QuoteFailUser u) s
  | Fail (RatePromise p) u => rate_fail p (RateFailUser u) s
  | Fail (ConversionPromise p) u => conversion_fail p u s
  | Answer i reply => snd (complete i reply s)
  | Wait dt => tick dt s
  end.

Definition run {host : Host} (actions : list Action) (s : State) : State :=
  foldl (fun s a => perform a s) s actions.

(** Both kinds of closure name deferreds that exist. *)
Definition bounded (s : State) : Prop := rates_bounded s /\ conversions_bounded s.

(** A step that adds no closure: the deferreds of [getRate] and
    [convertAmount] stay as many and keep their callbacks, the deferreds of
    [fetchQuote] keep theirs, and a new one has none. *)
Definition keeps_lists (s s' : State) : Prop :=
  length (rates s') = length (rates s)
  /\ length (conversions s') = length (conversions s)
  /\ (forall P dq', quotes s' !! P = Some dq' ->
        (d_done dq' = [] /\ d_fail dq' = [])
        \/ exists dq, quotes s !! P = Some dq
                      /\ d_done dq' = d_done dq /\ d_fail dq' = d_fail dq)
  /\ (forall d dr', rates s' !! d = Some dr' ->
        exists dr, rates s !! d = Some dr
                   /\ d_done dr' = d_done dr /\ d_fail dr' = d_fail dr).

(** The in-flight table and the request log are linked to the quote
    deferreds: an entry names a deferred that exists; a request carries the
    three closures of [fetchQuote] for one key and one deferred, and that
    deferred is registered under no other key. *)
Definition entries_exist (s : State) : Prop :=
  forall query P, CONVERSIONS_IN_PROGRESS s !! query = Some (Some P) ->
    P < length (quotes s).

Definition requests_wf (s : State) : Prop :=
  forall i x, requests s !! i = Some x ->
    exists query P,
      xhr_done x = [CbOnSuccess query P; CbOnAlways query]
      /\ xhr_fail x = [CbOnError P; CbOnAlways query]
      /\ P < length (quotes s)
      /\ forall query', CONVERSIONS_IN_PROGRESS s !! query' = Some (Some P) ->
           query' = query.

Definition linked (s : State) : Prop := entries_exist s /\ requests_wf s.

(** Every promise in the table, [X] apart, is pending. *)
Definition entries_pending_but (X : nat) (s : State) : Prop :=
  forall query P, CONVERSIONS_IN_PROGRESS s !! query = Some (Some P) ->
    P <> X -> is_pending (quotes s) P.

Definition tidy (X : nat) (s : State) : Prop := linked s /\ entries_pending_but X s.

(** Between two turns of the event loop every promise in the table is
    pending. *)
Definition entries_pending (s : State) : Prop :=
  forall query P, CONVERSIONS_IN_PROGRESS s !! query = Some (Some P) ->
    is_pending (quotes s) P.

Definition well_formed (s : State) : Prop :=
  bounded s /\ linked s /\ entries_pending s.

(** Settings, store and console are as before. *)
Definition same_store (s s' : State) : Prop :=
  SETTINGS s' = SETTINGS s /\ localStorage s' = localStorage s
  /\ console s' = console s.

(** Everything a client can do except [config]. *)
Definition no_config (a : Action) : bool :=
  match a with Config _ => false | _ => true end.

(** The store is out of reach, or has no room for the probe item of
    [isLocalStorageAvailable]. *)
Definition store_unavailable (s : State) : Prop :=
  localStorage s = None
  \/ exists st, localStorage s = Some st
                /\ quota st < storage_size (<["js-currency-test" := "js-currency-test"]>
                                              (items st)).

(** The record [cacheRate] writes at time [now]. *)
Definition record_of (value : Value) (now : Z) : Value :=
  VObj [("value", value); ("date", VDate (Some now))].

(** Every request that has not been answered is the one whose promise the
    table holds under the request's key. *)
Definition registered (s : State) : Prop :=
  forall i x query P,
    requests s !! i = Some x -> completed x = false ->
    xhr_done x = [CbOnSuccess query P; CbOnAlways query] ->
    CONVERSIONS_IN_PROGRESS s !! query = Some (Some P).

(** No two requests settle the same promise. *)
Definition distinct_promises (s : State) : Prop :=
  forall i j x y query query' P,
    requests s !! i = Some x -> requests s !! j = Some y ->
    xhr_done x = [CbOnSuccess query P; CbOnAlways query] ->
    xhr_done y = [CbOnSuccess query' P; CbOnAlways query'] ->
    i = j.

Definition sound (s : State) : Prop :=
  linked s /\ registered s /\ distinct_promises s.

(** The table holds [P] under [query] and no request that could clear the
    entry is left to be answered. *)
Definition dead_key (query : string) (P : nat) (s : State) : Prop :=
  CONVERSIONS_IN_PROGRESS s !! query = Some (Some P)
  /\ forall i x query' P',
       requests s !! i = Some x -> completed x = false ->
       xhr_done x = [CbOnSuccess query' P'; CbOnAlways query'] ->
       query' <> query.



Section Properties.
Context {host : Host}.

(** ** The pair key *)

(** C9: the key is the two codes joined by an underscore, and two empty
    codes (or two missing arguments) give exactly ["_"]. *)
Theorem toQuery_joins_codes (a b : string) :
  toQuery (VStr a) (VStr b) = a +:+ "_" +:+ b
  /\ toQuery (VStr "") (VStr "") = "_"
  /\ toQuery VUndefined VUndefined = "_".
Proof.
  unfold toQuery, js_or; cbn [ToBoolean ToString].
  repeat split.
  destruct (String.eqb_spec a ""), (String.eqb_spec b ""); subst; reflexivity.
Qed.

(** ** Reading the state back after a write *)

Lemma set_SETTINGS_id (s : State) : set_SETTINGS (SETTINGS s) s = s.
Proof. destruct s; reflexivity. Qed.

Lemma alter_last {A} (f : A -> A) (l : list A) (x : A) :
  alter f (length l) (l ++ [x]) = l ++ [f x].
Proof.
  induction l as [|y l IH]; [reflexivity|].
  cbn. f_equal. exact IH.
Qed.

Lemma lookup_last {A} (l : list A) (x : A) : (l ++ [x]) !! length l = Some x.
Proof. induction l as [|y l IH]; [reflexivity|exact IH]. Qed.

Lemma storage_only_refl s : storage_only s s.
Proof. exists (localStorage s), (console s). destruct s; reflexivity. Qed.

Lemma storage_only_trans s1 s2 s3 :
  storage_only s1 s2 -> storage_only s2 s3 -> storage_only s1 s3.
Proof.
  intros (ls & c & ->) (ls' & c' & ->). exists ls', c'. reflexivity.
Qed.

Lemma set_localStorage_only ls s : storage_only s (set_localStorage ls s).
Proof. exists ls, (console s). destruct s; reflexivity. Qed.

Lemma set_console_only c s : storage_only s (set_console c s).
Proof. exists (localStorage s), c. destruct s; reflexivity. Qed.

Lemma localStorage_setItem_only key value s :
  storage_only s (snd (localStorage_setItem key value s)).
Proof.
  unfold localStorage_setItem. destruct (localStorage s) as [st|] eqn:E.
  - destruct (_ <=? _); cbn [snd]; [|apply storage_only_refl].
    apply set_localStorage_only.
  - apply storage_only_refl.
Qed.

Lemma localStorage_removeItem_only key s :
  storage_only s (snd (localStorage_removeItem key s)).
Proof.
  unfold localStorage_removeItem. destruct (localStorage s) as [st|] eqn:E.
  - apply set_localStorage_only.
  - apply storage_only_refl.
Qed.

Lemma bind_only {A B} (c : M A) (k : A -> M B) s :
  storage_only s (snd (c s)) ->
  (forall a s', storage_only s' (snd (k a s'))) ->
  storage_only s (snd (bind c k s)).
Proof.
  intros Hc Hk. unfold bind. destruct (c s) as [[a|e] s'] eqn:E; cbn [snd] in *.
  - eapply storage_only_trans; [exact Hc|apply Hk].
  - exact Hc.
Qed.

Lemma isLocalStorageAvailable_only s :
  storage_only s (snd (isLocalStorageAvailable s)).
Proof.
  unfold isLocalStorageAvailable.
  pose proof (bind_only (localStorage_setItem "js-currency-test" "js-currency-test")
                (fun _ => localStorage_removeItem "js-currency-test") s
                (localStorage_setItem_only _ _ s)
                (fun _ s' => localStorage_removeItem_only _ s')) as H.
  destruct (bind _ _ s) as [[a|e] s']; exact H.
Qed.

Lemma saveToLocalStorage_only key value s :
  storage_only s (snd (saveToLocalStorage key value s)).
Proof.
  unfold saveToLocalStorage. apply bind_only; [apply isLocalStorageAvailable_only|].
  intros [] s'; [apply localStorage_setItem_only|].
  unfold console_error, modify; cbn [snd]. apply set_console_only.
Qed.

(** [cacheRate] stores the record before it turns to the store, so the
    record is in the cache whatever the store does. *)
Lemma cacheRate_shape rateName value s :
  storage_only
    (set_CACHED_RATES
       (<[rateName := VObj [("value", value); ("date", VDate (Some (clock s)))]]>
          (CACHED_RATES s)) s)
    (snd (cacheRate rateName value s)).
Proof.
  unfold cacheRate, bind, modify.
  match goal with |- context [if ?b then _ else _] => destruct b end.
  - apply saveToLocalStorage_only.
  - apply storage_only_refl.
Qed.

Lemma cacheRate_CACHED_RATES rateName value s :
  CACHED_RATES (snd (cacheRate rateName value s))
  = <[rateName := VObj [("value", value); ("date", VDate (Some (clock s)))]]>
      (CACHED_RATES s).
Proof. destruct (cacheRate_shape rateName value s) as (ls & c & ->). reflexivity. Qed.

(** C10: the key is not injective: the pairs (A, B_C) and (A_B, C) differ
    and have the same key, so a rate cached for one is the cached rate of
    the other, and a fetch for one is joined by a fetch for the other
    without a second request. *)
Theorem toQuery_not_injective :
  (VStr "A", VStr "B_C") <> (VStr "A_B", VStr "C")
  /\ toQuery (VStr "A") (VStr "B_C") = toQuery (VStr "A_B") (VStr "C")
  /\ (forall s v,
        let s' := snd (cacheRate (toQuery (VStr "A") (VStr "B_C")) v s) in
        isRateCached (toQuery (VStr "A_B") (VStr "C")) s' = true
        /\ read (cached (toQuery (VStr "A_B") (VStr "C")) s') "value" = v)
  /\ (forall s,
        let '(p1, s1) := fetchQuote (VStr "A") (VStr "B_C") s in
        let '(p2, s2) := fetchQuote (VStr "A_B") (VStr "C") s1 in
        p2 = p1 /\ requests s2 = requests s1).
Proof.
  split; [intros H; discriminate H|].
  split; [reflexivity|].
  split.
  - intros s v.
    assert (Hc : CACHED_RATES (snd (cacheRate "A_B_C" v s)) !! "A_B_C"
                 = Some (VObj [("value", v); ("date", VDate (Some (clock s)))])).
    { rewrite cacheRate_CACHED_RATES. apply lookup_insert_eq. }
    change (toQuery (VStr "A") (VStr "B_C")) with "A_B_C".
    change (toQuery (VStr "A_B") (VStr "C")) with "A_B_C".
    cbv zeta. unfold isRateCached, cached. rewrite Hc. split; reflexivity.
  - intros s. unfold fetchQuote.
    change (toQuery (VStr "A") (VStr "B_C")) with "A_B_C".
    change (toQuery (VStr "A_B") (VStr "C")) with "A_B_C".
    unfold getConversionInProgress, setConversionInProgress.
    cbn [CONVERSIONS_IN_PROGRESS set_quotes set_requests set_CONVERSIONS_IN_PROGRESS].
    change (inherited "A_B_C") with VUndefined.
    destruct (CONVERSIONS_IN_PROGRESS s !! "A_B_C") as [[p|]|] eqn:E;
      cbn [truthy ToBoolean
           CONVERSIONS_IN_PROGRESS set_quotes set_requests set_CONVERSIONS_IN_PROGRESS];
      rewrite ?E, ?lookup_insert_eq; cbn [truthy]; split; reflexivity.
Qed.

(** ** Freshness *)

Lemma isRateExpired_instant rate s t :
  record_instant rate = Some t ->
  isRateExpired rate s
  = Ok (num_gt (Fin (inject_Z (clock s - t)))
          (ToNumber (setting "RATES_VALIDITY_HOURS" s))).
Proof.
  unfold record_instant, isRateExpired. intros H.
  destruct (read rate "date") as [| | | | str | [t'|] | | |]; try discriminate H;
    cbn [getTime]; [rewrite H|injection H as ->]; reflexivity.
Qed.

Lemma record_instant_isObject rate t : record_instant rate = Some t -> isObject rate = true.
Proof.
  unfold record_instant, read. destruct rate; try discriminate; reflexivity.
Qed.

Lemma isRateValid_instant queryCode s t v :
  record_instant (cached queryCode s) = Some t ->
  ToNumber (setting "RATES_VALIDITY_HOURS" s) = Fin v ->
  isRateValid queryCode s = Ok (Qle_bool (inject_Z (clock s - t)) v).
Proof.
  intros Ht Hv. unfold isRateValid.
  rewrite (record_instant_isObject _ _ Ht), (isRateExpired_instant _ _ _ Ht), Hv.
  cbn [num_gt]. rewrite negb_involutive. reflexivity.
Qed.

(** C5: a cached record is fresh iff [now - timestamp <= validityPeriod];
    a record whose age equals the validity period is fresh; and the
    classification is a function of the instant, the settings and the
    record alone, so evaluating it again at the same instant gives the same
    answer. *)
Theorem fresh_iff_age_within_validity (queryCode : string) (s : State) (t : Z) (v : Q)
    (Ht : record_instant (cached queryCode s) = Some t)
    (Hv : ToNumber (setting "RATES_VALIDITY_HOURS" s) = Fin v) :
  (isRateValid queryCode s = Ok true <-> (inject_Z (clock s - t) <= v)%Q)
  /\ (isRateValid queryCode s = Ok false <-> ~ (inject_Z (clock s - t) <= v)%Q)
  /\ (isRateExpired (cached queryCode s) s = Ok false
      <-> (inject_Z (clock s - t) <= v)%Q)
  /\ ((inject_Z (clock s - t) == v)%Q -> isRateValid queryCode s = Ok true)
  /\ (forall s', clock s' = clock s -> SETTINGS s' = SETTINGS s ->
        CACHED_RATES s' !! queryCode = CACHED_RATES s !! queryCode ->
        isRateValid queryCode s' = isRateValid queryCode s).
Proof.
  assert (Hsame : forall s', clock s' = clock s -> SETTINGS s' = SETTINGS s ->
            CACHED_RATES s' !! queryCode = CACHED_RATES s !! queryCode ->
            isRateValid queryCode s' = isRateValid queryCode s).
  { intros s' Hc Hs Hr. unfold isRateValid, isRateExpired, cached, setting.
    rewrite Hc, Hs, Hr. reflexivity. }
  rewrite (isRateValid_instant _ _ _ _ Ht Hv), (isRateExpired_instant _ _ _ Ht), Hv
    in *.
  cbn [num_gt].
  pose proof (Qle_bool_iff (inject_Z (clock s - t)) v) as Hle.
  destruct (Qle_bool (inject_Z (clock s - t)) v) eqn:E; cbn [negb].
  - assert (Hy : (inject_Z (clock s - t) <= v)%Q) by (apply Hle; reflexivity).
    split; [tauto|]. split; [split; [discriminate|tauto]|].
    split; [tauto|]. split; [reflexivity|exact Hsame].
  - assert (Hn : ~ (inject_Z (clock s - t) <= v)%Q).
    { intros H. apply Hle in H. discriminate H. }
    split; [split; [discriminate|tauto]|]. split; [tauto|].
    split; [split; [discriminate|tauto]|].
    split; [|exact Hsame].
    intros Heq. exfalso. apply Hn. rewrite Heq. apply Qle_refl.
Qed.

(** ** A fresh record is served from the cache *)

Lemma resolve_new_rate (data : RateObject) (s : State) :
  resolve_rate (length (rates s)) data (set_rates (rates s ++ [new_Deferred]) s)
  = set_rates (rates s ++ [mkDeferred (Resolved data) [] []]) s.
Proof.
  unfold resolve_rate. cbn [rates set_rates]. rewrite lookup_last.
  cbn [new_Deferred fire foldl]. unfold settle. rewrite alter_last.
  destruct s; reflexivity.
Qed.

Lemma reject_new_rate (error : Value) (s : State) :
  reject_rate (length (rates s)) error (set_rates (rates s ++ [new_Deferred]) s)
  = set_rates (rates s ++ [mkDeferred (Rejected error) [] []]) s.
Proof.
  unfold reject_rate. cbn [rates set_rates]. rewrite lookup_last.
  cbn [new_Deferred fire foldl]. unfold settle. rewrite alter_last.
  destruct s; reflexivity.
Qed.

Lemma isRateValid_set_rates queryCode x s :
  isRateValid queryCode (set_rates x s) = isRateValid queryCode s.
Proof. reflexivity. Qed.

Lemma getRate_valid fromCurrency toCurrency s :
  isRateValid (toQuery fromCurrency toCurrency) s = Ok true ->
  getRate fromCurrency toCurrency s
  = (Ok (length (rates s)),
     set_rates
       (rates s ++
        [mkDeferred
           (Resolved (mkRateObject false
                        (read (cached (toQuery fromCurrency toCurrency) s) "value") None))
           [] []]) s).
Proof.
  intros H. unfold getRate. rewrite isRateValid_set_rates, H.
  unfold resolveRate. rewrite resolve_new_rate. reflexivity.
Qed.

(** C4: when the record cached under the pair's key is younger than the
    validity period, [getRate] returns a promise already resolved with
    [{rate: the cached value, expired: false}] and issues no request (the
    request log, the in-flight table and the cache are as before). *)
Theorem getRate_fresh_hit (fromCurrency toCurrency : Value) (s : State) (t : Z) (v : Q)
    (Ht : record_instant (cached (toQuery fromCurrency toCurrency) s) = Some t)
    (Hv : ToNumber (setting "RATES_VALIDITY_HOURS" s) = Fin v)
    (Hage : (inject_Z (clock s - t) < v)%Q) :
  exists s',
    getRate fromCurrency toCurrency s = (Ok (length (rates s)), s')
    /\ rates s' !! length (rates s)
       = Some (mkDeferred
                 (Resolved
                    (mkRateObject false
                       (read (cached (toQuery fromCurrency toCurrency) s) "value") None))
                 [] [])
    /\ requests s' = requests s
    /\ CONVERSIONS_IN_PROGRESS s' = CONVERSIONS_IN_PROGRESS s
    /\ CACHED_RATES s' = CACHED_RATES s.
Proof.
  eexists. split.
  - apply getRate_valid. rewrite (isRateValid_instant _ _ _ _ Ht Hv).
    f_equal. apply Qle_bool_iff, Qlt_le_weak, Hage.
  - cbn [rates set_rates requests CONVERSIONS_IN_PROGRESS CACHED_RATES].
    rewrite lookup_last. repeat split; reflexivity.
Qed.

(** ** Configuration *)

Lemma assoc_app name l1 l2 :
  assoc name (l1 ++ l2)
  = match assoc name l1 with Some v => Some v | None => assoc name l2 end.
Proof.
  induction l1 as [|[k v] l1 IH]; [reflexivity|].
  cbn. destruct (String.eqb k name); [reflexivity|exact IH].
Qed.

Lemma jQuery_extend_lookup target props name :
  jQuery_extend target (VObj props) !! name
  = match assoc name (copied props) with
    | Some v => Some v
    | None => target !! name
    end.
Proof.
  unfold jQuery_extend, copied. revert target.
  induction props as [|[k v] props IH]; intros target; [reflexivity|].
  cbn [foldl List.filter]. rewrite IH. unfold is_copied at 2. cbn [fst snd].
  destruct (String.eqb_spec k "__proto__") as [->|Hk]; cbn [negb andb];
    [reflexivity|].
  destruct v; try reflexivity;
    rewrite reverse_cons, assoc_app; cbn [assoc];
    (destruct (assoc name _) as [w|]; [reflexivity|]);
    (destruct (String.eqb_spec k name) as [->|Hn];
      [apply lookup_insert_eq|apply lookup_insert_ne; exact Hn]).
Qed.

(** C8: [config] merges an object into the settings field by field (each
    field of the argument that carries a value replaces the setting of that
    name, every other setting stays) and touches nothing else; for an
    argument that is not an object, [null] and the primitives included, the
    state is unchanged, and no call to [config] throws. *)
Theorem config_merges_objects_only (options : Value) (s : State) :
  (isObject options = false -> config options s = s)
  /\ (forall props name, options = VObj props ->
        SETTINGS (config options s) !! name
        = match assoc name (copied props) with
          | Some v => Some v
          | None => SETTINGS s !! name
          end)
  /\ config options s = set_SETTINGS (SETTINGS (config options s)) s
  /\ config VUndefined s = s /\ config VNull s = s
  /\ (forall b, config (VBool b) s = s)
  /\ (forall n, config (VNum n) s = s)
  /\ (forall str, config (VStr str) s = s).
Proof.
  split; [intros H; unfold config; rewrite H; reflexivity|].
  split.
  { intros props name ->. unfold config. cbn [isObject SETTINGS set_SETTINGS].
    apply jQuery_extend_lookup. }
  split.
  { unfold config. destruct (isObject options); [reflexivity|].
    symmetry; apply set_SETTINGS_id. }
  repeat split; reflexivity.
Qed.

(** ** Settling: what firing callbacks can and cannot change *)

(** ** The three ways through [fetchQuote] *)

Lemma fetchQuote_idle fromCurrency toCurrency s :
  idle (toQuery fromCurrency toCurrency) s ->
  fetchQuote fromCurrency toCurrency s
  = (APromise (length (quotes s)),
     mkState (SETTINGS s) (CACHED_RATES s)
       (<[toQuery fromCurrency toCurrency := Some (length (quotes s))]>
          (CONVERSIONS_IN_PROGRESS s))
       (quotes s ++ [new_Deferred]) (rates s) (conversions s)
       (requests s ++
        [fetch_request s (toQuery fromCurrency toCurrency) (length (quotes s))])
       (localStorage s) (console s) (clock s) (observed s)).
Proof.
  intros H. unfold fetchQuote, getConversionInProgress. proj.
  destruct H as [[-> Hf] | ->]; cbn [truthy ToBoolean]; [rewrite Hf|]; reflexivity.
Qed.

Lemma fetchQuote_join fromCurrency toCurrency s P :
  CONVERSIONS_IN_PROGRESS s !! toQuery fromCurrency toCurrency = Some (Some P) ->
  fetchQuote fromCurrency toCurrency s
  = (APromise P, set_quotes (quotes s ++ [new_Deferred]) s).
Proof.
  intros H. unfold fetchQuote, getConversionInProgress. proj. rewrite H. reflexivity.
Qed.

(** Under a name that the table inherits, [fetchQuote] returns the member
    it read: no request is made and the table is not written. *)
Lemma fetchQuote_member fromCurrency toCurrency s :
  reads_member (toQuery fromCurrency toCurrency) s ->
  fetchQuote fromCurrency toCurrency s
  = (AValue (inherited (toQuery fromCurrency toCurrency)),
     set_quotes (quotes s ++ [new_Deferred]) s).
Proof.
  intros [H Hm]. unfold fetchQuote, getConversionInProgress. proj.
  rewrite H. cbn [truthy]. rewrite Hm. reflexivity.
Qed.

Lemma table_cases query s :
  (exists P, CONVERSIONS_IN_PROGRESS s !! query = Some (Some P))
  \/ reads_member query s \/ idle query s.
Proof.
  unfold reads_member, idle.
  destruct (CONVERSIONS_IN_PROGRESS s !! query) as [[P|]|]; eauto.
  destruct (ToBoolean (inherited query)); auto.
Qed.

Lemma fetchQuote_cases fromCurrency toCurrency s :
  (exists P, CONVERSIONS_IN_PROGRESS s !! toQuery fromCurrency toCurrency = Some (Some P)
             /\ fetchQuote fromCurrency toCurrency s
                = (APromise P, set_quotes (quotes s ++ [new_Deferred]) s))
  \/ (reads_member (toQuery fromCurrency toCurrency) s
      /\ fetchQuote fromCurrency toCurrency s
         = (AValue (inherited (toQuery fromCurrency toCurrency)),
            set_quotes (quotes s ++ [new_Deferred]) s))
  \/ (idle (toQuery fromCurrency toCurrency) s
      /\ fetchQuote fromCurrency toCurrency s
         = (APromise (length (quotes s)),
            mkState (SETTINGS s) (CACHED_RATES s)
              (<[toQuery fromCurrency toCurrency := Some (length (quotes s))]>
                 (CONVERSIONS_IN_PROGRESS s))
              (quotes s ++ [new_Deferred]) (rates s) (conversions s)
              (requests s ++
               [fetch_request s (toQuery fromCurrency toCurrency) (length (quotes s))])
              (localStorage s) (console s) (clock s) (observed s))).
Proof.
  destruct (table_cases (toQuery fromCurrency toCurrency) s) as [[P E]|[Hm|Hi]].
  - left. exists P. split; [exact E|apply fetchQuote_join, E].
  - right. left. split; [exact Hm|apply fetchQuote_member, Hm].
  - right. right. split; [exact Hi|apply fetchQuote_idle, Hi].
Qed.

Lemma heap_evolve_refl {A D F} T (h : list (Deferred A D F)) : heap_evolve T h h.
Proof. split; [reflexivity|]. intros i d H. exists d. auto. Qed.

Lemma heap_evolve_mono {A D F} (T T' : nat -> Prop) (h h' : list (Deferred A D F)) :
  (forall i, T i -> T' i) -> heap_evolve T h h' -> heap_evolve T' h h'.
Proof.
  intros HT [Hl H]. split; [exact Hl|]. intros i d Hd.
  destruct (H i d Hd) as (d' & ? & ? & ? & [?|[? ?]]); exists d';
    repeat split; auto.
Qed.

Lemma heap_evolve_trans {A D F} T (h1 h2 h3 : list (Deferred A D F)) :
  heap_evolve T h1 h2 -> heap_evolve T h2 h3 -> heap_evolve T h1 h3.
Proof.
  intros [L1 H1] [L2 H2]. split; [congruence|]. intros i d Hd.
  destruct (H1 i d Hd) as (d2 & Hd2 & Hdone & Hfail & Hst).
  destruct (H2 i d2 Hd2) as (d3 & Hd3 & Hdone' & Hfail' & Hst').
  exists d3. repeat split; try congruence.
  destruct Hst as [Hst|[? ?]]; [|right; auto].
  destruct Hst' as [Hst'|[? ?]]; [left; congruence|right; split; congruence].
Qed.

Lemma heap_evolve_settle {A D F} i (o : Settled A) (h : list (Deferred A D F)) d :
  h !! i = Some d -> d_state d = Pending -> heap_evolve (eq i) h (settle i o h).
Proof.
  intros Hi Hp. unfold settle. split; [apply length_alter|]. intros j dj Hj.
  destruct (decide (i = j)) as [<-|Hne].
  - rewrite list_lookup_alter_eq, Hi. cbn. eexists. split; [reflexivity|].
    cbn. assert (dj = d) as -> by congruence. auto.
  - rewrite list_lookup_alter_ne by exact Hne. exists dj. auto.
Qed.

(** A deferred that is not a target, or that has settled, stays as it is. *)
Lemma heap_evolve_keeps {A D F} T (h h' : list (Deferred A D F)) i d :
  heap_evolve T h h' -> h !! i = Some d ->
  (~ T i \/ d_state d <> Pending) -> h' !! i = Some d.
Proof.
  intros [_ H] Hd Hk. destruct (H i d Hd) as (d' & Hd' & Hdone & Hfail & Hst).
  assert (d_state d' = d_state d) as Hs.
  { destruct Hst as [?|[? ?]]; [assumption|]. destruct Hk; contradiction. }
  rewrite Hd'. f_equal. destruct d, d'; cbn in *; congruence.
Qed.

Lemma heap_evolve_lists {A D F} T (h h' : list (Deferred A D F)) i d' :
  heap_evolve T h h' -> h' !! i = Some d' ->
  exists d, h !! i = Some d /\ d_done d' = d_done d /\ d_fail d' = d_fail d.
Proof.
  intros [L H] Hd'.
  destruct (h !! i) as [d|] eqn:Hd.
  - destruct (H i d Hd) as (d2 & Hd2 & ? & ? & _). exists d.
    assert (d2 = d') as <- by congruence. auto.
  - apply lookup_ge_None in Hd. apply lookup_lt_Some in Hd'. lia.
Qed.

Lemma same_env_refl s : same_env s s.
Proof. repeat split. Qed.

Lemma same_env_trans s1 s2 s3 : same_env s1 s2 -> same_env s2 s3 -> same_env s1 s3.
Proof. unfold same_env. intuition congruence. Qed.

Lemma settles_refl TR TC s : settles TR TC s s.
Proof. split; [apply same_env_refl|]. split; apply heap_evolve_refl. Qed.

Lemma settles_trans TR TC s1 s2 s3 :
  settles TR TC s1 s2 -> settles TR TC s2 s3 -> settles TR TC s1 s3.
Proof.
  intros (E1 & R1 & C1) (E2 & R2 & C2).
  split; [eapply same_env_trans; eassumption|].
  split; eapply heap_evolve_trans; eassumption.
Qed.

Lemma settles_mono (TR TC TR' TC' : nat -> Prop) s s' :
  (forall i, TR i -> TR' i) -> (forall i, TC i -> TC' i) ->
  settles TR TC s s' -> settles TR' TC' s s'.
Proof.
  intros HR HC (E & R & C). split; [exact E|].
  split; eapply heap_evolve_mono; eassumption.
Qed.

Ltac weaken L :=
  eapply settles_mono; [| |apply L];
  try (intros ? []; fail); try (intros ? []; reflexivity); try (intros; exact I).

(** [fetchQuote] touches the quote deferreds, the request log and the
    in-flight table only. *)
Lemma fetchQuote_settles fromCurrency toCurrency s :
  settles nobody nobody s (snd (fetchQuote fromCurrency toCurrency s)).
Proof.
  destruct (fetchQuote_cases fromCurrency toCurrency s)
    as [(P & _ & ->)|[(_ & ->)|(_ & ->)]]; proj;
    (split; [repeat split|split; apply heap_evolve_refl]).
Qed.

Lemma call_user_settles u arg s : settles nobody nobody s (call_user u arg s).
Proof.
  destruct u as [tag|tag f t]; cbn [call_user].
  - split; [repeat split|split; apply heap_evolve_refl].
  - pose proof (fetchQuote_settles f t s) as H.
    destruct (fetchQuote f t s) as [p s1]. proj.
    eapply settles_trans; [exact H|].
    split; [repeat split|split; apply heap_evolve_refl].
Qed.

(** Firing a list: the targets are those of its callbacks. *)
Lemma fire_settles {C} (call : C -> State -> State) (TR TC : nat -> Prop) cbs :
  (forall cb s, cb ∈ cbs -> settles TR TC s (call cb s)) ->
  forall s, settles TR TC s (fire call cbs s).
Proof.
  unfold fire. induction cbs as [|cb cbs IH]; intros H s; cbn [foldl].
  - apply settles_refl.
  - eapply settles_trans.
    + apply H. left.
    + apply IH. intros cb' s' Hin. apply H. right. exact Hin.
Qed.

Lemma settle_conversions_settles c o s d :
  conversions s !! c = Some d -> d_state d = Pending ->
  settles nobody (eq c) s (set_conversions (settle c o (conversions s)) s).
Proof.
  intros E Hp. split; [repeat split|]. split; [apply heap_evolve_refl|]. proj.
  eapply heap_evolve_settle; eassumption.
Qed.

Lemma settle_rates_settles d o s dr TC :
  rates s !! d = Some dr -> d_state dr = Pending ->
  settles (eq d) TC s (set_rates (settle d o (rates s)) s).
Proof.
  intros E Hp. split; [repeat split|]. split; [|apply heap_evolve_refl]. proj.
  eapply heap_evolve_settle; eassumption.
Qed.

Lemma resolve_conversion_settles c data s :
  settles nobody (eq c) s (resolve_conversion c data s).
Proof.
  unfold resolve_conversion.
  destruct (conversions s !! c) as [[[| |] done fail]|] eqn:E; try apply settles_refl.
  eapply settles_trans.
  - eapply settle_conversions_settles; [exact E|reflexivity].
  - apply fire_settles. intros cb s' _.
    weaken call_user_settles.
Qed.

Lemma reject_conversion_settles c error s :
  settles nobody (eq c) s (reject_conversion c error s).
Proof.
  unfold reject_conversion.
  destruct (conversions s !! c) as [[[| |] done fail]|] eqn:E; try apply settles_refl.
  eapply settles_trans.
  - eapply settle_conversions_settles; [exact E|reflexivity].
  - apply fire_settles. intros cb s' _.
    weaken call_user_settles.
Qed.

Lemma call_rate_done_settles cb data s :
  settles nobody (fun c => conv_of_done cb = Some c) s (call_rate_done cb data s).
Proof.
  destruct cb as [amount c|u]; cbn [call_rate_done conv_of_done].
  - unfold convertAmount_onSuccess.
    weaken resolve_conversion_settles.
  - weaken call_user_settles.
Qed.

Lemma call_rate_fail_settles cb error s :
  settles nobody (fun c => conv_of_fail cb = Some c) s (call_rate_fail cb error s).
Proof.
  destruct cb as [c|u]; cbn [call_rate_fail conv_of_fail].
  - unfold convertAmount_onError.
    weaken reject_conversion_settles.
  - weaken call_user_settles.
Qed.

Lemma fire_rate_done_settles cbs data s :
  settles nobody (targets conv_of_done cbs) s
    (fire (fun cb => call_rate_done cb data) cbs s).
Proof.
  apply fire_settles. intros cb s' Hin.
  weaken call_rate_done_settles.
  all: try (intros c Hc; exists cb; auto).
Qed.

Lemma fire_rate_fail_settles cbs error s :
  settles nobody (targets conv_of_fail cbs) s
    (fire (fun cb => call_rate_fail cb error) cbs s).
Proof.
  apply fire_settles. intros cb s' Hin.
  weaken call_rate_fail_settles.
  all: try (intros c Hc; exists cb; auto).
Qed.

Lemma resolve_rate_settles d data s :
  settles (eq d) anybody s (resolve_rate d data s).
Proof.
  unfold resolve_rate.
  destruct (rates s !! d) as [[[| |] done fail]|] eqn:E; try apply settles_refl.
  eapply settles_trans.
  - eapply settle_rates_settles; [exact E|reflexivity].
  - weaken fire_rate_done_settles.
Qed.

Lemma reject_rate_settles d error s :
  settles (eq d) anybody s (reject_rate d error s).
Proof.
  unfold reject_rate.
  destruct (rates s !! d) as [[[| |] done fail]|] eqn:E; try apply settles_refl.
  eapply settles_trans.
  - eapply settle_rates_settles; [exact E|reflexivity].
  - weaken fire_rate_fail_settles.
Qed.

Lemma call_quote_done_settles cb rate s :
  settles (fun d => rate_of_done cb = Some d) anybody s (call_quote_done cb rate s).
Proof.
  destruct cb as [d|u]; cbn [call_quote_done rate_of_done].
  - unfold fetchOnSuccess, resolveRate.
    weaken resolve_rate_settles.
  - weaken call_user_settles.
Qed.

Lemma call_quote_fail_settles cb error s :
  settles (fun d => rate_of_fail cb = Some d) anybody s (call_quote_fail cb error s).
Proof.
  destruct cb as [q d|u]; cbn [call_quote_fail rate_of_fail].
  - unfold oldRateFallback, resolveRate. destruct (isRateCached q s).
    + weaken resolve_rate_settles.
    + weaken reject_rate_settles.
  - weaken call_user_settles.
Qed.

Lemma fire_quote_done_settles cbs rate s :
  settles (targets rate_of_done cbs) anybody s
    (fire (fun cb => call_quote_done cb rate) cbs s).
Proof.
  apply fire_settles. intros cb s' Hin.
  weaken call_quote_done_settles.
  all: try (intros c Hc; exists cb; auto).
Qed.

Lemma fire_quote_fail_settles cbs error s :
  settles (targets rate_of_fail cbs) anybody s
    (fire (fun cb => call_quote_fail cb error) cbs s).
Proof.
  apply fire_settles. intros cb s' Hin.
  weaken call_quote_fail_settles.
  all: try (intros c Hc; exists cb; auto).
Qed.

(** ** The calls, step by step *)

(** Whatever the table held, after [fetchQuote] it reads under the key what
    was returned. *)
Lemma fetchQuote_registers fromCurrency toCurrency s :
  getConversionInProgress (toQuery fromCurrency toCurrency)
    (snd (fetchQuote fromCurrency toCurrency s))
  = fst (fetchQuote fromCurrency toCurrency s).
Proof.
  unfold getConversionInProgress.
  destruct (fetchQuote_cases fromCurrency toCurrency s)
    as [(P & E & ->)|[([E _] & ->)|(_ & ->)]]; proj.
  - rewrite E. reflexivity.
  - rewrite E. reflexivity.
  - rewrite lookup_insert_eq. reflexivity.
Qed.

Lemma getRate_idle fromCurrency toCurrency s :
  let query := toQuery fromCurrency toCurrency in
  let d := length (rates s) in
  isRateValid query s = Ok false -> idle query s ->
  getRate fromCurrency toCurrency s
  = (Ok d,
     mkState (SETTINGS s) (CACHED_RATES s)
       (<[query := Some (length (quotes s))]> (CONVERSIONS_IN_PROGRESS s))
       (quotes s ++
        [mkDeferred Pending [CbFetchOnSuccess d] [CbOldRateFallback query d]])
       (rates s ++ [new_Deferred]) (conversions s)
       (requests s ++ [fetch_request s query (length (quotes s))])
       (localStorage s) (console s) (clock s) (observed s)).
Proof.
  intros query d Hv Hi. unfold getRate. rewrite isRateValid_set_rates.
  fold query. rewrite Hv. rewrite fetchQuote_idle by exact Hi. proj.
  unfold quote_done. proj. rewrite lookup_last. cbn [new_Deferred]. proj.
  unfold quote_fail, add_done. proj. rewrite alter_last, lookup_last. proj.
  unfold add_fail. rewrite alter_last. reflexivity.
Qed.

Lemma getRate_join fromCurrency toCurrency s P L F :
  let query := toQuery fromCurrency toCurrency in
  let d := length (rates s) in
  isRateValid query s = Ok false ->
  CONVERSIONS_IN_PROGRESS s !! query = Some (Some P) ->
  quotes s !! P = Some (mkDeferred Pending L F) ->
  getRate fromCurrency toCurrency s
  = (Ok d,
     set_quotes
       (<[P := mkDeferred Pending (L ++ [CbFetchOnSuccess d])
                 (F ++ [CbOldRateFallback query d])]> (quotes s) ++ [new_Deferred])
       (set_rates (rates s ++ [new_Deferred]) s)).
Proof.
  intros query d Hv Hs HP. unfold getRate. rewrite isRateValid_set_rates.
  fold query. rewrite Hv.
  rewrite (fetchQuote_join _ _ _ P) by exact Hs. proj.
  assert (HP' : (quotes s ++ [new_Deferred]) !! P = Some (mkDeferred Pending L F)).
  { apply lookup_app_l_Some, HP. }
  unfold quote_done. proj. rewrite HP'. proj.
  assert (Hlt : P < length (quotes s)) by (eapply lookup_lt_Some; exact HP).
  unfold quote_fail, add_done. proj.
  rewrite list_lookup_alter_eq, HP'. cbn [fmap option_fmap option_map d_state]. proj.
  unfold add_fail. f_equal. cbv [set_quotes set_rates]. proj. f_equal.
  rewrite list_alter_alter_eq, alter_app_l by exact Hlt. f_equal.
  apply list_eq. intros j. destruct (decide (P = j)) as [<-|Hne].
  - rewrite list_lookup_alter_eq, HP, list_lookup_insert_eq by exact Hlt. reflexivity.
  - rewrite list_lookup_alter_ne, list_lookup_insert_ne by exact Hne. reflexivity.
Qed.

(** ** What a waiting [getRate] receives *)

Lemma fire_app {C} (call : C -> State -> State) l1 l2 s :
  fire call (l1 ++ l2) s = fire call l2 (fire call l1 s).
Proof. unfold fire. apply foldl_app. Qed.

Lemma settles_rate_kept TR TC s s' d dr :
  settles TR TC s s' -> rates s !! d = Some dr ->
  (~ TR d \/ d_state dr <> Pending) -> rates s' !! d = Some dr.
Proof. intros (_ & H & _). apply heap_evolve_keeps. exact H. Qed.

Lemma settles_conversion_kept TR TC s s' c dc :
  settles TR TC s s' -> conversions s !! c = Some dc ->
  (~ TC c \/ d_state dc <> Pending) -> conversions s' !! c = Some dc.
Proof. intros (_ & _ & H). apply heap_evolve_keeps. exact H. Qed.

Lemma settles_isRateCached TR TC s s' query :
  settles TR TC s s' -> isRateCached query s' = isRateCached query s.
Proof. intros ((_ & H & _) & _). unfold isRateCached, cached. rewrite H. reflexivity. Qed.

Lemma settles_cached TR TC s s' query :
  settles TR TC s s' -> cached query s' = cached query s.
Proof. intros ((_ & H & _) & _). unfold cached. rewrite H. reflexivity. Qed.

Lemma settles_fallback TR TC s s' query error :
  settles TR TC s s' -> fallback query error s' = fallback query error s.
Proof.
  intros H. unfold fallback.
  rewrite (settles_isRateCached _ _ _ _ _ H), (settles_cached _ _ _ _ _ H).
  reflexivity.
Qed.

Lemma resolve_rate_pending d data s done fail :
  rates s !! d = Some (mkDeferred Pending done fail) ->
  rates (resolve_rate d data s) !! d = Some (mkDeferred (Resolved data) done fail).
Proof.
  intros H. unfold resolve_rate. rewrite H.
  eapply settles_rate_kept; [apply fire_rate_done_settles| |left; intros []].
  proj. unfold settle. rewrite list_lookup_alter_eq, H. reflexivity.
Qed.

Lemma reject_rate_pending d error s done fail :
  rates s !! d = Some (mkDeferred Pending done fail) ->
  rates (reject_rate d error s) !! d = Some (mkDeferred (Rejected error) done fail).
Proof.
  intros H. unfold reject_rate. rewrite H.
  eapply settles_rate_kept; [apply fire_rate_fail_settles| |left; intros []].
  proj. unfold settle. rewrite list_lookup_alter_eq, H. reflexivity.
Qed.

Lemma oldRateFallback_pending query d error s done fail :
  rates s !! d = Some (mkDeferred Pending done fail) ->
  rates (oldRateFallback query d error s) !! d
  = Some (mkDeferred (fallback query error s) done fail).
Proof.
  intros H. unfold oldRateFallback, fallback, resolveRate.
  destruct (isRateCached query s).
  - apply resolve_rate_pending, H.
  - apply reject_rate_pending, H.
Qed.

Lemma set_quotes_settles x s : settles nobody nobody s (set_quotes x s).
Proof. split; [repeat split|split; apply heap_evolve_refl]. Qed.

(** The fetch fails: every waiting [getRate] gets the cached value, marked
    expired, when the cache holds a record, and the error otherwise. *)
Lemma awaits_reject s P query d error :
  awaits s P query d ->
  state_of (rates (reject_quote P error s)) d = Some (fallback query error s).
Proof.
  intros (L1 & L2 & F1 & F2 & HP & _ & HF1 & [[st done fail] [Hd Hst]]).
  cbn in Hst. subst st.
  unfold reject_quote. rewrite HP.
  set (s1 := set_quotes _ s).
  change (F1 ++ CbOldRateFallback query d :: F2)
    with (F1 ++ [CbOldRateFallback query d] ++ F2).
  rewrite !fire_app.
  set (s2 := fire _ F1 s1).
  assert (H12 : settles (targets rate_of_fail F1) anybody s s2).
  { eapply settles_trans; [|apply fire_quote_fail_settles].
    weaken (set_quotes_settles (settle P (Rejected error) (quotes s)) s). }
  assert (Hd2 : rates s2 !! d = Some (mkDeferred Pending done fail)).
  { eapply settles_rate_kept; [exact H12|exact Hd|left; exact HF1]. }
  cbn [fire foldl call_quote_fail]. fold (fire (fun cb => call_quote_fail cb error) F2).
  pose proof (oldRateFallback_pending query d error s2 done fail Hd2) as Hd3.
  rewrite (settles_fallback _ _ _ _ _ _ H12) in Hd3.
  unfold state_of.
  assert (Hset : fallback query error s <> Pending).
  { unfold fallback. destruct (isRateCached query s); discriminate. }
  erewrite settles_rate_kept;
    [|apply fire_quote_fail_settles|exact Hd3|right; exact Hset].
  reflexivity.
Qed.

(** The fetch succeeds: every waiting [getRate] gets the fetched rate, not
    expired. *)
Lemma awaits_resolve s P query d val :
  awaits s P query d ->
  state_of (rates (resolve_quote P val s)) d
  = Some (Resolved (mkRateObject false val None)).
Proof.
  intros (L1 & L2 & F1 & F2 & HP & HL1 & _ & [[st done fail] [Hd Hst]]).
  cbn in Hst. subst st.
  unfold resolve_quote. rewrite HP.
  set (s1 := set_quotes _ s).
  change (L1 ++ CbFetchOnSuccess d :: L2) with (L1 ++ [CbFetchOnSuccess d] ++ L2).
  rewrite !fire_app.
  set (s2 := fire _ L1 s1).
  assert (H12 : settles (targets rate_of_done L1) anybody s s2).
  { eapply settles_trans; [|apply fire_quote_done_settles].
    weaken (set_quotes_settles (settle P (Resolved val) (quotes s)) s). }
  assert (Hd2 : rates s2 !! d = Some (mkDeferred Pending done fail)).
  { eapply settles_rate_kept; [exact H12|exact Hd|left; exact HL1]. }
  cbn [fire foldl call_quote_done]. fold (fire (fun cb => call_quote_done cb val) L2).
  unfold fetchOnSuccess, resolveRate.
  pose proof (resolve_rate_pending d (mkRateObject false val None) s2 done fail Hd2)
    as Hd3.
  unfold state_of.
  erewrite settles_rate_kept;
    [|apply fire_quote_done_settles|exact Hd3|right; discriminate].
  reflexivity.
Qed.

(** ** The answer to a request *)

Lemma complete_failure s i x P query error :
  requests s !! i = Some x -> completed x = false ->
  xhr_fail x = [CbOnError P; CbOnAlways query] ->
  complete i (Failure error) s
  = (Ok tt,
     setConversionInProgress query None (reject_quote P error (mark_completed i x s))).
Proof.
  intros Hx Hc Hf. destruct x as [u dn fl c]. cbn in Hc, Hf. subst c fl.
  unfold complete. rewrite Hx. reflexivity.
Qed.

Lemma complete_success s i x P query response :
  requests s !! i = Some x -> completed x = false ->
  xhr_done x = [CbOnSuccess query P; CbOnAlways query] ->
  complete i (Success response) s
  = match get_prop response query with
    | Throw e => (Throw e, mark_completed i x s)
    | Ok entry =>
      match get_prop entry "val" with
      | Throw e => (Throw e, mark_completed i x s)
      | Ok val =>
        match cacheRate query val (mark_completed i x s) with
        | (Throw e, s1) => (Throw e, s1)
        | (Ok _, s1) =>
          (Ok tt, setConversionInProgress query None (resolve_quote P val s1))
        end
      end
    end.
Proof.
  intros Hx Hc Hf. destruct x as [u dn fl c]. cbn in Hc, Hf. subst c dn.
  unfold complete. rewrite Hx. cbn [completed xhr_done xhr_fail url].
  cbn [fire_xhr call_xhr]. unfold fetchQuote_onSuccess, bind, lift, mark_completed.
  cbn [completed xhr_done xhr_fail url].
  destruct (get_prop response query) as [entry|e]; [|reflexivity].
  destruct (get_prop entry "val") as [val|e]; [|reflexivity].
  destruct (cacheRate query val _) as [[[]|e] s1]; reflexivity.
Qed.

(** ** Stale fallback *)

Lemma getRate_awaits fromCurrency toCurrency s :
  let query := toQuery fromCurrency toCurrency in
  let d := length (rates s) in
  rates_bounded s ->
  isRateValid query s = Ok false ->
  (idle query s
   \/ exists P, CONVERSIONS_IN_PROGRESS s !! query = Some (Some P)
                /\ is_pending (quotes s) P) ->
  exists s1 P,
    getRate fromCurrency toCurrency s = (Ok d, s1)
    /\ CONVERSIONS_IN_PROGRESS s1 !! query = Some (Some P)
    /\ awaits s1 P query d
    /\ same_env s s1
    /\ (idle query s ->
        P = length (quotes s)
        /\ requests s1 = requests s ++ [fetch_request s query P])
    /\ (~ idle query s -> requests s1 = requests s).
Proof.
  intros query d Hb Hv [Hi|(P & Hs & [[st L F] [HP Hst]])].
  - eexists _, (length (quotes s)). split; [apply getRate_idle; assumption|].
    proj. split; [apply lookup_insert_eq|]. split.
    { exists [], [], [], []. proj. rewrite !lookup_last. split; [reflexivity|].
      split; [intros (cb & Hin & _); inversion Hin|].
      split; [intros (cb & Hin & _); inversion Hin|].
      exists new_Deferred. unfold d. rewrite lookup_last. split; reflexivity. }
    split; [repeat split|]. split; [intros _; split; reflexivity|].
    intros Hn. contradiction.
  - cbn in Hst. subst st.
    assert (Hlt : P < length (quotes s)) by (eapply lookup_lt_Some; exact HP).
    eexists _, P. split; [eapply getRate_join; eassumption|].
    proj. split; [exact Hs|]. split.
    { exists L, [], F, []. proj.
      rewrite lookup_app_l by (rewrite length_insert; exact Hlt).
      rewrite list_lookup_insert_eq by exact Hlt. split; [reflexivity|].
      split; [|split].
      - intros Ht. specialize (Hb P _ d HP (or_introl Ht)). unfold d in Hb. lia.
      - intros Ht. specialize (Hb P _ d HP (or_intror Ht)). unfold d in Hb. lia.
      - exists new_Deferred. unfold d. rewrite lookup_last. split; reflexivity. }
    split; [repeat split|]. split; [|intros _; reflexivity].
    intros [[Hi _]|Hi]; fold query in Hs; rewrite Hs in Hi; discriminate Hi.
Qed.

Lemma awaits_same s s' P query d :
  quotes s' = quotes s -> rates s' = rates s -> awaits s P query d -> awaits s' P query d.
Proof. unfold awaits. intros -> ->. auto. Qed.

Lemma getRate_member fromCurrency toCurrency s :
  isRateValid (toQuery fromCurrency toCurrency) s = Ok false ->
  reads_member (toQuery fromCurrency toCurrency) s ->
  getRate fromCurrency toCurrency s
  = (Throw TypeError,
     set_quotes (quotes s ++ [new_Deferred]) (set_rates (rates s ++ [new_Deferred]) s)).
Proof.
  intros Hv Hm. unfold getRate. rewrite isRateValid_set_rates, Hv.
  rewrite fetchQuote_member by exact Hm. reflexivity.
Qed.

(** C1: for every pair, a [getRate] call that has to fetch (no fresh
    record under the key) and whose fetch fails, however much later,
    resolves with [{rate: the cached value, expired: true}] when the cache
    holds a record under the key, whatever its age, and is rejected with
    the error of the fetch exactly when the cache holds none.  The call
    either starts the fetch or joins the one in flight for the key.  The
    one case without a fetch to fail is a key under which the in-flight
    table reads a member of [Object.prototype] ([__defineGetter__] and the
    like): there [fetchQuote] returns the member, no request is made and
    [getRate] throws a [TypeError]. *)
Theorem getRate_fetch_failure_falls_back
    (fromCurrency toCurrency : Value) (s : State) (error : Value) (dt : Z)
    (Hb : rates_bounded s)
    (Hv : isRateValid (toQuery fromCurrency toCurrency) s = Ok false)
    (Hq : idle (toQuery fromCurrency toCurrency) s
          \/ (exists P, CONVERSIONS_IN_PROGRESS s !! toQuery fromCurrency toCurrency
                        = Some (Some P)
                        /\ is_pending (quotes s) P)
          \/ reads_member (toQuery fromCurrency toCurrency) s) :
  let query := toQuery fromCurrency toCurrency in
  let d := length (rates s) in
  (reads_member query s ->
   fst (getRate fromCurrency toCurrency s) = Throw TypeError
   /\ requests (snd (getRate fromCurrency toCurrency s)) = requests s
   /\ CONVERSIONS_IN_PROGRESS (snd (getRate fromCurrency toCurrency s))
      = CONVERSIONS_IN_PROGRESS s)
  /\ (~ reads_member query s ->
      exists s1 P,
        getRate fromCurrency toCurrency s = (Ok d, s1)
        /\ CONVERSIONS_IN_PROGRESS s1 !! query = Some (Some P)
        /\ (idle query s ->
            requests s1 = requests s ++ [fetch_request s query P])
        /\ forall i x query',
             requests s1 !! i = Some x -> completed x = false ->
             xhr_fail x = [CbOnError P; CbOnAlways query'] ->
             let s2 := snd (complete i (Failure error) (tick dt s1)) in
             (isRateCached query s = true ->
              state_of (rates s2) d
              = Some (Resolved (mkRateObject true (read (cached query s) "value") None)))
             /\ (isRateCached query s = false ->
                 state_of (rates s2) d = Some (Rejected error))
             /\ (state_of (rates s2) d = Some (Rejected error)
                 <-> isRateCached query s = false)).
Proof.
  intros query d. split.
  { intros Hm. unfold query in *. rewrite (getRate_member _ _ _ Hv Hm).
    repeat split. }
  intros Hnm.
  assert (Hq' : idle query s
                \/ exists P, CONVERSIONS_IN_PROGRESS s !! query = Some (Some P)
                             /\ is_pending (quotes s) P).
  { destruct Hq as [H|[H|H]]; [left; exact H|right; exact H|contradiction]. }
  destruct (getRate_awaits fromCurrency toCurrency s Hb Hv Hq')
    as (s1 & P & Hg & Hs & Ha & He & Hi & _).
  exists s1, P. split; [exact Hg|]. split; [exact Hs|].
  split; [intros H; apply Hi, H|].
  intros i x query' Hx Hc Hf s2.
  assert (Hst : state_of (rates s2) d = Some (fallback query error s)).
  { unfold s2. erewrite complete_failure; [|exact Hx|exact Hc|exact Hf].
    cbn [snd]. unfold setConversionInProgress. proj.
    rewrite (awaits_reject _ P query d).
    - f_equal. unfold fallback, isRateCached, cached, mark_completed, tick. proj.
      destruct He as (_ & -> & _). reflexivity.
    - eapply awaits_same; [| |exact Ha]; reflexivity. }
  rewrite Hst. unfold fallback.
  destruct (isRateCached query s); repeat split; intros; congruence.
Qed.

(** ** Concurrent callers share one fetch *)

Lemma isRateValid_same_env s s' queryCode :
  same_env s s' -> isRateValid queryCode s' = isRateValid queryCode s.
Proof.
  intros (Hs & Hc & Hk & _). unfold isRateValid, isRateExpired, cached, setting.
  rewrite Hs, Hc, Hk. reflexivity.
Qed.

Lemma uncached_not_valid queryCode s :
  isRateCached queryCode s = false -> isRateValid queryCode s = Ok false.
Proof. unfold isRateCached, isRateValid. intros ->. reflexivity. Qed.

Lemma sharing_first fromCurrency toCurrency s :
  let query := toQuery fromCurrency toCurrency in
  isRateValid query s = Ok false -> idle query s ->
  exists s1, getRate fromCurrency toCurrency s = (Ok (length (rates s)), s1)
             /\ sharing s s1 query 1.
Proof.
  intros query Hv Hi. eexists. split; [apply getRate_idle; assumption|].
  unfold sharing. proj. split; [apply lookup_insert_eq|].
  rewrite lookup_last. repeat split.
Qed.

Lemma sharing_next fromCurrency toCurrency s0 s k :
  let query := toQuery fromCurrency toCurrency in
  isRateValid query s0 = Ok false -> sharing s0 s query k ->
  exists s1, getRate fromCurrency toCurrency s = (Ok (length (rates s0) + k), s1)
             /\ sharing s0 s1 query (S k).
Proof.
  intros query Hv (Hs & HP & Hr & Hq & He).
  assert (Hlen : length (rates s) = length (rates s0) + k).
  { rewrite Hr, length_app, length_replicate. reflexivity. }
  assert (Hlt : length (quotes s0) < length (quotes s))
    by (eapply lookup_lt_Some; exact HP).
  eexists. split.
  - rewrite <- Hlen. eapply getRate_join; [|exact Hs|exact HP].
    rewrite (isRateValid_same_env s0 s) by exact He. exact Hv.
  - unfold sharing. proj. split; [exact Hs|]. split.
    { rewrite lookup_app_l by (rewrite length_insert; exact Hlt).
      rewrite list_lookup_insert_eq by exact Hlt.
      rewrite Hlen, seq_S, !fmap_app. reflexivity. }
    split.
    { rewrite Hr, <- app_assoc. f_equal.
      change [new_Deferred] with (replicate 1 (@new_Deferred RateObject RateDoneCb RateFailCb)).
      rewrite <- replicate_add. f_equal. lia. }
    split; [exact Hq|]. exact He.
Qed.

Lemma sharing_calls fromCurrency toCurrency s0 n : forall s k,
  let query := toQuery fromCurrency toCurrency in
  isRateValid query s0 = Ok false -> sharing s0 s query k ->
  exists s1,
    repeat_call n (getRate fromCurrency toCurrency) s
    = (Ok (seq (length (rates s0) + k) n), s1)
    /\ sharing s0 s1 query (k + n).
Proof.
  induction n as [|n IH]; intros s k query Hv Hsh.
  - exists s. split; [reflexivity|]. rewrite Nat.add_0_r. exact Hsh.
  - destruct (sharing_next fromCurrency toCurrency s0 s k Hv Hsh) as (s1 & Hg & Hsh1).
    destruct (IH s1 (S k) Hv Hsh1) as (s2 & Hr & Hsh2).
    exists s2. split.
    + cbn [repeat_call]. unfold bind at 1. rewrite Hg.
      unfold bind at 1. rewrite Hr. unfold ret. cbn [seq].
      replace (length (rates s0) + S k) with (S (length (rates s0) + k)) by lia.
      reflexivity.
    + replace (k + S n) with (S k + n) by lia. exact Hsh2.
Qed.

Lemma sharing_awaits s0 s query k d :
  sharing s0 s query k -> d ∈ seq (length (rates s0)) k ->
  awaits s (length (quotes s0)) query d.
Proof.
  intros (Hs & HP & Hr & Hq & He) Hin.
  apply elem_of_seq in Hin. destruct Hin as [Hlo Hhi].
  set (d0 := length (rates s0)) in *.
  assert (Hsplit : seq d0 k = seq d0 (d - d0) ++ d :: seq (S d) (k - S (d - d0))).
  { replace k with ((d - d0) + S (k - S (d - d0))) at 1 by lia.
    rewrite seq_app. cbn [seq].
    replace (d0 + (d - d0)) with d by lia. reflexivity. }
  exists (CbFetchOnSuccess <$> seq d0 (d - d0)),
         (CbFetchOnSuccess <$> seq (S d) (k - S (d - d0))),
         (CbOldRateFallback query <$> seq d0 (d - d0)),
         (CbOldRateFallback query <$> seq (S d) (k - S (d - d0))).
  split; [rewrite HP, Hsplit, !fmap_app; reflexivity|].
  split; [|split].
  - intros (cb & Hcb & Ht). apply list_elem_of_fmap in Hcb.
    destruct Hcb as (j & -> & Hj). apply elem_of_seq in Hj.
    cbn in Ht. injection Ht as ->. lia.
  - intros (cb & Hcb & Ht). apply list_elem_of_fmap in Hcb.
    destruct Hcb as (j & -> & Hj). apply elem_of_seq in Hj.
    cbn in Ht. injection Ht as ->. lia.
  - exists new_Deferred. split; [|reflexivity].
    rewrite Hr, lookup_app_r by (fold d0; lia).
    apply lookup_replicate. split; [reflexivity|]. fold d0. lia.
Qed.

Lemma cacheRate_keeps_deferreds rateName value s :
  quotes (snd (cacheRate rateName value s)) = quotes s
  /\ rates (snd (cacheRate rateName value s)) = rates s.
Proof.
  destruct (cacheRate_shape rateName value s) as (ls & c & ->). split; reflexivity.
Qed.

(** Callers sharing one fetch, on the path where a fetch is started: from a
    state where the pair has no cached record and the in-flight table reads
    nothing under its key, N >= 1 getRate calls in a row for the pair issue
    exactly one request, and when that request is answered all N promises
    are in the same state: rejected with the error of the fetch, or resolved
    with [{rate: the fetched rate, expired: false}], or (when the handler of
    the response throws) all still pending. *)
Theorem concurrent_getRate_share_one_fetch
    (fromCurrency toCurrency : Value) (s : State) (n : nat) (reply : Reply)
    (Hc : isRateCached (toQuery fromCurrency toCurrency) s = false)
    (Hi : idle (toQuery fromCurrency toCurrency) s) :
  let query := toQuery fromCurrency toCurrency in
  let callers := seq (length (rates s)) (S n) in
  exists s1,
    repeat_call (S n) (getRate fromCurrency toCurrency) s = (Ok callers, s1)
    /\ requests s1
       = requests s ++ [fetch_request s query (length (quotes s))]
    /\ exists o,
         (forall d, d ∈ callers ->
            state_of (rates (snd (complete (length (requests s)) reply s1))) d
            = Some o)
         /\ match reply, fst (complete (length (requests s)) reply s1) with
            | Failure error, _ => o = Rejected error
            | Success response, Ok _ =>
              exists entry val,
                get_prop response query = Ok entry
                /\ get_prop entry "val" = Ok val
                /\ o = Resolved (mkRateObject false val None)
            | Success response, Throw _ => o = Pending
            end.
Proof.
  intros query callers.
  pose proof (uncached_not_valid _ _ Hc) as Hv.
  destruct (sharing_first fromCurrency toCurrency s Hv Hi) as (s1 & Hg & Hsh1).
  destruct (sharing_calls fromCurrency toCurrency s n s1 1 Hv Hsh1) as (s2 & Hr & Hsh).
  exists s2. split.
  { cbn [repeat_call]. unfold bind at 1. rewrite Hg. unfold bind at 1.
    rewrite Hr. unfold callers, ret. cbn [seq].
    replace (length (rates s) + 1) with (S (length (rates s))) by lia.
    reflexivity. }
  pose proof Hsh as (Hs & HP & Hrt & Hq & He). split; [exact Hq|].
  assert (Hx : requests s2 !! length (requests s)
               = Some (fetch_request s query (length (quotes s)))).
  { rewrite Hq. apply lookup_last. }
  assert (Haw : forall d, d ∈ callers -> awaits s2 (length (quotes s)) query d).
  { intros d Hd. eapply sharing_awaits; [exact Hsh|]. exact Hd. }
  assert (Hpend : forall s', quotes s' = quotes s2 -> rates s' = rates s2 ->
            forall d, d ∈ callers -> state_of (rates s') d = Some Pending).
  { intros s' _ Hr' d Hd. destruct (Haw d Hd) as (_ & _ & _ & _ & _ & _ & _ & dr & Hdr & Hst).
    unfold state_of. rewrite Hr', Hdr. cbn. f_equal. exact Hst. }
  destruct reply as [response|error].
  - erewrite complete_success; [|exact Hx|reflexivity|reflexivity].
    destruct (get_prop response query) as [entry|e] eqn:E1;
      [|exists Pending; split; [apply Hpend; reflexivity|reflexivity]].
    destruct (get_prop entry "val") as [val|e] eqn:E2;
      [|exists Pending; split; [apply Hpend; reflexivity|reflexivity]].
    destruct (cacheRate_keeps_deferreds query val
                (mark_completed (length (requests s))
                   (fetch_request s query (length (quotes s))) s2)) as [Hkq Hkr].
    destruct (cacheRate query val _) as [[[]|e] s3]; cbn [fst snd] in *.
    + exists (Resolved (mkRateObject false val None)). split.
      * intros d Hd. unfold setConversionInProgress. proj.
        apply (awaits_resolve _ _ query).
        eapply awaits_same; [exact Hkq|exact Hkr|]. apply Haw, Hd.
      * exists entry, val. auto.
    + exists Pending. split; [|reflexivity].
      apply Hpend; assumption.
  - erewrite complete_failure; [|exact Hx|reflexivity|reflexivity].
    exists (Rejected error). split; [|reflexivity].
    intros d Hd. cbn [snd]. unfold setConversionInProgress. proj.
    rewrite (awaits_reject _ (length (quotes s)) query d).
    + f_equal. unfold fallback, isRateCached, cached, mark_completed. proj.
      destruct He as (_ & -> & _). fold (cached query s).
      fold (isRateCached query s). fold query in Hc. rewrite Hc. reflexivity.
    + eapply awaits_same; [| |apply Haw, Hd]; reflexivity.
Qed.

(** ** The in-flight entry while and after the shared promise settles *)

Lemma grows_refl s : grows s s.
Proof.
  split; [auto|]. split; [|split].
  - exists []. split; [symmetry; apply app_nil_r|constructor].
  - exists []. symmetry; apply app_nil_r.
  - exists []. symmetry; apply app_nil_r.
Qed.

Lemma grows_trans s1 s2 s3 : grows s1 s2 -> grows s2 s3 -> grows s1 s3.
Proof.
  intros (C1 & (l1 & Q1 & N1) & [r1 R1] & [o1 O1])
         (C2 & (l2 & Q2 & N2) & [r2 R2] & [o2 O2]).
  split; [auto|]. split; [|split].
  - exists (l1 ++ l2). split; [rewrite Q2, Q1, app_assoc; reflexivity|].
    apply Forall_app. split; assumption.
  - exists (r1 ++ r2). rewrite R2, R1, app_assoc. reflexivity.
  - exists (o1 ++ o2). rewrite O2, O1, app_assoc. reflexivity.
Qed.

Lemma fire_grows {C} (call : C -> State -> State) cbs :
  (forall cb s, grows s (call cb s)) -> forall s, grows s (fire call cbs s).
Proof.
  intros H. unfold fire. induction cbs as [|cb cbs IH]; intros s; cbn [foldl].
  - apply grows_refl.
  - eapply grows_trans; [apply H|apply IH].
Qed.

Lemma fetchQuote_grows fromCurrency toCurrency s :
  grows s (snd (fetchQuote fromCurrency toCurrency s)).
Proof.
  destruct (fetchQuote_cases fromCurrency toCurrency s)
    as [(P & E & ->)|[(_ & ->)|(Hi & ->)]]; proj.
  1,2: split; [auto|]; split; [|split];
    [exists [new_Deferred]; split; [reflexivity|repeat constructor]
    |exists []; symmetry; apply app_nil_r
    |exists []; symmetry; apply app_nil_r].
  split; [|split; [|split]].
  + intros query p Hq. proj. rewrite lookup_insert_ne; [exact Hq|].
    destruct Hi as [[E _]|E]; congruence.
  + exists [new_Deferred]. split; [reflexivity|repeat constructor].
  + eexists; reflexivity.
  + exists []. symmetry; apply app_nil_r.
Qed.

Lemma grows_observed s s' l :
  CONVERSIONS_IN_PROGRESS s' = CONVERSIONS_IN_PROGRESS s ->
  quotes s' = quotes s -> requests s' = requests s ->
  observed s' = observed s ++ l -> grows s s'.
Proof.
  intros Hc Hq Hr Ho. split; [rewrite Hc; auto|]. split; [|split].
  - exists []. split; [rewrite app_nil_r; assumption|constructor].
  - exists []. rewrite app_nil_r; assumption.
  - exists l. exact Ho.
Qed.

Lemma grows_same s s' :
  CONVERSIONS_IN_PROGRESS s' = CONVERSIONS_IN_PROGRESS s ->
  quotes s' = quotes s -> requests s' = requests s ->
  observed s' = observed s -> grows s s'.
Proof.
  intros Hc Hq Hr Ho. apply (grows_observed s s' []); try assumption.
  rewrite app_nil_r. exact Ho.
Qed.

Lemma call_user_grows u arg s : grows s (call_user u arg s).
Proof.
  destruct u as [tag|tag f t]; cbn [call_user].
  - eapply grows_observed; reflexivity.
  - pose proof (fetchQuote_grows f t s) as H.
    destruct (fetchQuote f t s) as [p s1]. proj.
    eapply grows_trans; [exact H|]. eapply grows_observed; reflexivity.
Qed.

Lemma resolve_conversion_grows c data s : grows s (resolve_conversion c data s).
Proof.
  unfold resolve_conversion.
  destruct (conversions s !! c) as [[[| |] done fail]|]; try apply grows_refl.
  eapply grows_trans; [|apply fire_grows; intros; apply call_user_grows].
  apply grows_same; reflexivity.
Qed.

Lemma reject_conversion_grows c error s : grows s (reject_conversion c error s).
Proof.
  unfold reject_conversion.
  destruct (conversions s !! c) as [[[| |] done fail]|]; try apply grows_refl.
  eapply grows_trans; [|apply fire_grows; intros; apply call_user_grows].
  apply grows_same; reflexivity.
Qed.

Lemma call_rate_done_grows cb data s : grows s (call_rate_done cb data s).
Proof.
  destruct cb; [apply resolve_conversion_grows|apply call_user_grows].
Qed.

Lemma call_rate_fail_grows cb error s : grows s (call_rate_fail cb error s).
Proof.
  destruct cb; [apply reject_conversion_grows|apply call_user_grows].
Qed.

Lemma resolve_rate_grows d data s : grows s (resolve_rate d data s).
Proof.
  unfold resolve_rate.
  destruct (rates s !! d) as [[[| |] done fail]|]; try apply grows_refl.
  eapply grows_trans; [|apply fire_grows; intros; apply call_rate_done_grows].
  apply grows_same; reflexivity.
Qed.

Lemma reject_rate_grows d error s : grows s (reject_rate d error s).
Proof.
  unfold reject_rate.
  destruct (rates s !! d) as [[[| |] done fail]|]; try apply grows_refl.
  eapply grows_trans; [|apply fire_grows; intros; apply call_rate_fail_grows].
  apply grows_same; reflexivity.
Qed.

Lemma call_quote_done_grows cb rate s : grows s (call_quote_done cb rate s).
Proof.
  destruct cb; [apply resolve_rate_grows|apply call_user_grows].
Qed.

Lemma call_quote_fail_grows cb error s : grows s (call_quote_fail cb error s).
Proof.
  destruct cb as [q d|u]; [|apply call_user_grows].
  cbn [call_quote_fail]. unfold oldRateFallback.
  destruct (isRateCached q s); [apply resolve_rate_grows|apply reject_rate_grows].
Qed.

(** Settling the quote promise [P]: the table still holds every promise it
    held, and [P] itself ends up settled. *)
Lemma resolve_quote_keeps_entries P val s :
  (forall query p, CONVERSIONS_IN_PROGRESS s !! query = Some (Some p) ->
     CONVERSIONS_IN_PROGRESS (resolve_quote P val s) !! query = Some (Some p))
  /\ (is_pending (quotes s) P ->
      state_of (quotes (resolve_quote P val s)) P = Some (Resolved val)).
Proof.
  unfold resolve_quote.
  destruct (quotes s !! P) as [[[| |] done fail]|] eqn:E;
    try (split; [auto|]; intros (d & Hd & Hp); rewrite E in Hd;
         inversion Hd; subst d; discriminate Hp).
  set (s1 := set_quotes _ s).
  destruct (fire_grows (fun cb => call_quote_done cb val) done
              (fun cb s => call_quote_done_grows cb val s) s1) as (Hc & (l & Hq & _) & _).
  split; [intros query p Hp; apply Hc; exact Hp|].
  intros _. unfold state_of. rewrite Hq. unfold s1. proj.
  rewrite lookup_app_l
    by (unfold settle; rewrite length_alter; eapply lookup_lt_Some; exact E).
  unfold settle. rewrite list_lookup_alter_eq, E. reflexivity.
Qed.

Lemma reject_quote_keeps_entries P error s :
  (forall query p, CONVERSIONS_IN_PROGRESS s !! query = Some (Some p) ->
     CONVERSIONS_IN_PROGRESS (reject_quote P error s) !! query = Some (Some p))
  /\ (is_pending (quotes s) P ->
      state_of (quotes (reject_quote P error s)) P = Some (Rejected error)).
Proof.
  unfold reject_quote.
  destruct (quotes s !! P) as [[[| |] done fail]|] eqn:E;
    try (split; [auto|]; intros (d & Hd & Hp); rewrite E in Hd;
         inversion Hd; subst d; discriminate Hp).
  set (s1 := set_quotes _ s).
  destruct (fire_grows (fun cb => call_quote_fail cb error) fail
              (fun cb s => call_quote_fail_grows cb error s) s1) as (Hc & (l & Hq & _) & _).
  split; [intros query p Hp; apply Hc; exact Hp|].
  intros _. unfold state_of. rewrite Hq. unfold s1. proj.
  rewrite lookup_app_l
    by (unfold settle; rewrite length_alter; eapply lookup_lt_Some; exact E).
  unfold settle. rewrite list_lookup_alter_eq, E. reflexivity.
Qed.

Lemma cacheRate_keeps_entries rateName value s :
  CONVERSIONS_IN_PROGRESS (snd (cacheRate rateName value s)) = CONVERSIONS_IN_PROGRESS s.
Proof. destruct (cacheRate_shape rateName value s) as (ls & c & ->). reflexivity. Qed.

(** A callback of the client that calls [fetchQuote] for the key while the
    promise registered under the key settles is handed that promise. *)
Lemma retry_joins tag fromCurrency toCurrency arg s P :
  CONVERSIONS_IN_PROGRESS s !! toQuery fromCurrency toCurrency = Some (Some P) ->
  (tag, GotPromise P) ∈ observed (call_user (Retry tag fromCurrency toCurrency) arg s).
Proof.
  intros H. cbn [call_user]. rewrite (fetchQuote_join _ _ _ _ H). proj.
  apply elem_of_app. right. apply list_elem_of_singleton. reflexivity.
Qed.

Lemma grows_observed_elem s s' o : grows s s' -> o ∈ observed s -> o ∈ observed s'.
Proof.
  intros (_ & _ & _ & [l ->]) H. apply elem_of_app. left. exact H.
Qed.

Lemma retry_during_reject L error s P tag fromCurrency toCurrency :
  CONVERSIONS_IN_PROGRESS s !! toQuery fromCurrency toCurrency = Some (Some P) ->
  QuoteFailUser (Retry tag fromCurrency toCurrency) ∈ L ->
  (tag, GotPromise P) ∈ observed (fire (fun cb => call_quote_fail cb error) L s).
Proof.
  intros Hs Hin. apply list_elem_of_split in Hin. destruct Hin as (L1 & L2 & ->).
  change (L1 ++ QuoteFailUser (Retry tag fromCurrency toCurrency) :: L2)
    with (L1 ++ [QuoteFailUser (Retry tag fromCurrency toCurrency)] ++ L2).
  rewrite !fire_app.
  eapply grows_observed_elem;
    [apply fire_grows; intros; apply call_quote_fail_grows|].
  cbn [fire foldl call_quote_fail]. apply retry_joins.
  destruct (fire_grows (fun cb => call_quote_fail cb error) L1
              (fun cb s => call_quote_fail_grows cb error s) s) as (Hc & _).
  apply Hc, Hs.
Qed.

Lemma retry_during_resolve L val s P tag fromCurrency toCurrency :
  CONVERSIONS_IN_PROGRESS s !! toQuery fromCurrency toCurrency = Some (Some P) ->
  QuoteDoneUser (Retry tag fromCurrency toCurrency) ∈ L ->
  (tag, GotPromise P) ∈ observed (fire (fun cb => call_quote_done cb val) L s).
Proof.
  intros Hs Hin. apply list_elem_of_split in Hin. destruct Hin as (L1 & L2 & ->).
  change (L1 ++ QuoteDoneUser (Retry tag fromCurrency toCurrency) :: L2)
    with (L1 ++ [QuoteDoneUser (Retry tag fromCurrency toCurrency)] ++ L2).
  rewrite !fire_app.
  eapply grows_observed_elem;
    [apply fire_grows; intros; apply call_quote_done_grows|].
  cbn [fire foldl call_quote_done]. apply retry_joins.
  destruct (fire_grows (fun cb => call_quote_done cb val) L1
              (fun cb s => call_quote_done_grows cb val s) s) as (Hc & _).
  apply Hc, Hs.
Qed.

(** C2 (as the code has it): when the fetch registered for a key is
    answered and its handler runs to the end (always on failure; on success
    when the response carries the rate and the cache write does not throw),
    the handler first settles the shared promise, and every callback that
    runs during that settlement still finds the key's entry holding the
    promise; only then is the entry cleared (set to [null]).  A caller that
    arrives after the handler has returned finds the entry empty and starts
    a new fetch with a request of its own. *)
Theorem in_flight_entry_cleared_after_settling
    (s : State) (i : nat) (x : Request) (P : nat) (query : string) (reply : Reply)
    (Hx : requests s !! i = Some x)
    (Hc : completed x = false)
    (Hd : xhr_done x = [CbOnSuccess query P; CbOnAlways query])
    (Hf : xhr_fail x = [CbOnError P; CbOnAlways query])
    (Hok : fst (complete i reply s) = Ok tt) :
  let s' := snd (complete i reply s) in
  exists s_mid,
    s' = setConversionInProgress query None s_mid
    /\ (forall p, CONVERSIONS_IN_PROGRESS s !! query = Some (Some p) ->
          CONVERSIONS_IN_PROGRESS s_mid !! query = Some (Some p))
    /\ (is_pending (quotes s) P ->
        exists o, o <> Pending
                  /\ state_of (quotes s_mid) P = Some o
                  /\ state_of (quotes s') P = Some o)
    /\ (forall done fail tag fromCurrency toCurrency,
          quotes s !! P = Some (mkDeferred Pending done fail) ->
          CONVERSIONS_IN_PROGRESS s !! query = Some (Some P) ->
          toQuery fromCurrency toCurrency = query ->
          match reply with
          | Success _ => QuoteDoneUser (Retry tag fromCurrency toCurrency) ∈ done
          | Failure _ => QuoteFailUser (Retry tag fromCurrency toCurrency) ∈ fail
          end ->
          (tag, GotPromise P) ∈ observed s')
    /\ CONVERSIONS_IN_PROGRESS s' !! query = Some None
    /\ forall fromCurrency toCurrency,
         toQuery fromCurrency toCurrency = query ->
         fst (fetchQuote fromCurrency toCurrency s') = length (quotes s')
         /\ requests (snd (fetchQuote fromCurrency toCurrency s'))
            = requests s' ++ [fetch_request s' query (length (quotes s'))].
Proof.
  intros s'.
  assert (Hfinal : forall s_mid, s' = setConversionInProgress query None s_mid ->
            CONVERSIONS_IN_PROGRESS s' !! query = Some None
            /\ forall fromCurrency toCurrency,
                 toQuery fromCurrency toCurrency = query ->
                 fst (fetchQuote fromCurrency toCurrency s') = length (quotes s')
                 /\ requests (snd (fetchQuote fromCurrency toCurrency s'))
                    = requests s' ++ [fetch_request s' query (length (quotes s'))]).
  { intros s_mid ->. unfold setConversionInProgress at 1. proj.
    split; [apply lookup_insert_eq|]. intros f t <-.
    rewrite fetchQuote_idle; [split; reflexivity|].
    right. unfold setConversionInProgress. proj. apply lookup_insert_eq. }
  destruct reply as [response|error].
  - pose proof (complete_success s i x P query response Hx Hc Hd) as Hcs.
    subst s'. rewrite Hcs in Hok, Hfinal |- *. clear Hcs.
    destruct (get_prop response query) as [entry|e]; [|discriminate Hok].
    destruct (get_prop entry "val") as [val|e]; [|discriminate Hok].
    pose proof (cacheRate_keeps_entries query val (mark_completed i x s)) as Hk.
    destruct (cacheRate_keeps_deferreds query val (mark_completed i x s)) as [Hq _].
    destruct (cacheRate query val (mark_completed i x s)) as [[[]|e] s1];
      [|discriminate Hok].
    cbn [fst snd] in *.
    destruct (resolve_quote_keeps_entries P val s1) as [Hkeep Hst].
    exists (resolve_quote P val s1). split; [reflexivity|].
    split; [intros p Hp; apply Hkeep; rewrite Hk; exact Hp|].
    split; [|split; [|apply (Hfinal _ eq_refl)]].
    + intros Hp. exists (Resolved val). split; [discriminate|].
      assert (is_pending (quotes s1) P) as Hp1 by (rewrite Hq; exact Hp).
      split; apply Hst, Hp1.
    + intros done fail tag f t HP Hs <- Hin.
      unfold setConversionInProgress. proj. unfold resolve_quote.
      rewrite Hq. unfold mark_completed. proj. rewrite HP.
      apply (retry_during_resolve _ _ _ _ tag f t); [|exact Hin].
      proj. rewrite Hk. exact Hs.
  - pose proof (complete_failure s i x P query error Hx Hc Hf) as Hcf.
    subst s'. rewrite Hcf in Hok, Hfinal |- *. clear Hcf.
    cbn [fst snd] in *.
    destruct (reject_quote_keeps_entries P error (mark_completed i x s)) as [Hkeep Hst].
    exists (reject_quote P error (mark_completed i x s)). split; [reflexivity|].
    split; [intros p Hp; apply Hkeep; exact Hp|].
    split; [|split; [|apply (Hfinal _ eq_refl)]].
    + intros Hp. exists (Rejected error). split; [discriminate|].
      split; apply Hst, Hp.
    + intros done fail tag f t HP Hs <- Hin.
      unfold setConversionInProgress. proj. unfold reject_quote.
      unfold mark_completed. proj. rewrite HP.
      apply (retry_during_reject _ _ _ _ tag f t); [|exact Hin]. exact Hs.
Qed.

(** ** [convertAmount] *)

Lemma resolve_conversion_pending c data s done fail :
  conversions s !! c = Some (mkDeferred Pending done fail) ->
  conversions (resolve_conversion c data s) !! c
  = Some (mkDeferred (Resolved data) done fail).
Proof.
  intros H. unfold resolve_conversion. rewrite H.
  eapply settles_conversion_kept;
    [apply fire_settles; intros; apply call_user_settles| |left; intros []].
  proj. unfold settle. rewrite list_lookup_alter_eq, H. reflexivity.
Qed.

Lemma reject_conversion_pending c error s done fail :
  conversions s !! c = Some (mkDeferred Pending done fail) ->
  conversions (reject_conversion c error s) !! c
  = Some (mkDeferred (Rejected error) done fail).
Proof.
  intros H. unfold reject_conversion. rewrite H.
  eapply settles_conversion_kept;
    [apply fire_settles; intros; apply call_user_settles| |left; intros []].
  proj. unfold settle. rewrite list_lookup_alter_eq, H. reflexivity.
Qed.

(** Settling [d] touches the [convertAmount] deferreds its own closures
    name, and no other. *)
Lemma resolve_rate_settles_own d data s dr :
  rates s !! d = Some dr ->
  settles (eq d) (targets conv_of_done (d_done dr)) s (resolve_rate d data s).
Proof.
  intros E. unfold resolve_rate. rewrite E.
  destruct dr as [[| |] done fail]; try apply settles_refl.
  eapply settles_trans.
  - eapply settle_rates_settles; [exact E|reflexivity].
  - weaken fire_rate_done_settles. auto.
Qed.

Lemma reject_rate_settles_own d error s dr :
  rates s !! d = Some dr ->
  settles (eq d) (targets conv_of_fail (d_fail dr)) s (reject_rate d error s).
Proof.
  intros E. unfold reject_rate. rewrite E.
  destruct dr as [[| |] done fail]; try apply settles_refl.
  eapply settles_trans.
  - eapply settle_rates_settles; [exact E|reflexivity].
  - weaken fire_rate_fail_settles. auto.
Qed.

Lemma converting_same s s' p c amount :
  rates s' = rates s -> conversions s' = conversions s ->
  converting s p c amount -> converting s' p c amount.
Proof. unfold converting, follows. intros -> ->. auto. Qed.

Lemma state_of_lookup {A D F} (h : list (Deferred A D F)) i d :
  h !! i = Some d -> state_of h i = Some (d_state d).
Proof. unfold state_of. intros ->. reflexivity. Qed.

(** Closures are never added or removed while callbacks fire. *)
Lemma settles_keeps_others TR TC s s' p c :
  settles TR TC s s' ->
  (forall d dr, d <> p -> rates s !! d = Some dr ->
     ~ targets conv_of_done (d_done dr) c /\ ~ targets conv_of_fail (d_fail dr) c) ->
  forall d dr, d <> p -> rates s' !! d = Some dr ->
    ~ targets conv_of_done (d_done dr) c /\ ~ targets conv_of_fail (d_fail dr) c.
Proof.
  intros (_ & Hr & _) H d dr' Hne Hd'.
  destruct (heap_evolve_lists _ _ _ _ _ Hr Hd') as (dr & Hd & -> & ->).
  exact (H d dr Hne Hd).
Qed.

Lemma converting_resolve_rate s p c amount d data :
  converting s p c amount -> converting (resolve_rate d data s) p c amount.
Proof.
  intros (Hfo & Hli & Hot).
  destruct (rates s !! d) as [dr|] eqn:E;
    [|unfold resolve_rate; rewrite E; exact (conj Hfo (conj Hli Hot))].
  pose proof (resolve_rate_settles_own d data s dr E) as Hs.
  pose proof (settles_keeps_others _ _ _ _ p c Hs Hot) as Hot'.
  destruct (decide (d = p)) as [->|Hne].
  - destruct dr as [st done fail]. destruct st as [|data0|e0].
    + (* [p] is pending: its closure resolves [c] *)
      assert (Hp : state_of (rates s) p = Some Pending)
        by (rewrite (state_of_lookup _ _ _ E); reflexivity).
      specialize (Hli Hp). rewrite E in Hli. injection Hli as -> ->.
      unfold follows in Hfo. rewrite Hp in Hfo.
      unfold state_of in Hfo.
      destruct (conversions s !! c) as [[stc donec failc]|] eqn:Ec;
        [|discriminate Hfo].
      cbn in Hfo. injection Hfo as ->.
      pose proof (resolve_rate_pending p data s _ _ E) as Hp'.
      split; [|split; [|exact Hot']].
      * unfold follows. rewrite (state_of_lookup _ _ _ Hp'). cbn [d_state].
        unfold resolve_rate. rewrite E.
        cbn [fire foldl call_rate_done]. unfold convertAmount_onSuccess.
        erewrite state_of_lookup;
          [|apply resolve_conversion_pending; proj; exact Ec].
        reflexivity.
      * rewrite (state_of_lookup _ _ _ Hp'). discriminate.
    + unfold resolve_rate. rewrite E. exact (conj Hfo (conj Hli Hot)).
    + unfold resolve_rate. rewrite E. exact (conj Hfo (conj Hli Hot)).
  - (* another promise settles: neither [p] nor [c] moves *)
    destruct (Hot d dr Hne E) as [Hnd _].
    assert (Hrp : rates (resolve_rate d data s) !! p = rates s !! p).
    { destruct (rates s !! p) as [drp|] eqn:Ep.
      - eapply settles_rate_kept; [exact Hs|exact Ep|left; congruence].
      - destruct Hs as (_ & [Hl _] & _). apply lookup_ge_None.
        apply lookup_ge_None in Ep. lia. }
    assert (Hcc : conversions (resolve_rate d data s) !! c = conversions s !! c).
    { destruct (conversions s !! c) as [dc|] eqn:Ec.
      - eapply settles_conversion_kept; [exact Hs|exact Ec|left; exact Hnd].
      - destruct Hs as (_ & _ & [Hl _]). apply lookup_ge_None.
        apply lookup_ge_None in Ec. lia. }
    split; [|split; [|exact Hot']].
    + unfold follows, state_of in *. rewrite Hrp, Hcc. exact Hfo.
    + unfold state_of in *. rewrite Hrp. exact Hli.
Qed.

Lemma converting_reject_rate s p c amount d error :
  converting s p c amount -> converting (reject_rate d error s) p c amount.
Proof.
  intros (Hfo & Hli & Hot).
  destruct (rates s !! d) as [dr|] eqn:E;
    [|unfold reject_rate; rewrite E; exact (conj Hfo (conj Hli Hot))].
  pose proof (reject_rate_settles_own d error s dr E) as Hs.
  pose proof (settles_keeps_others _ _ _ _ p c Hs Hot) as Hot'.
  destruct (decide (d = p)) as [->|Hne].
  - destruct dr as [st done fail]. destruct st as [|data0|e0].
    + assert (Hp : state_of (rates s) p = Some Pending)
        by (rewrite (state_of_lookup _ _ _ E); reflexivity).
      specialize (Hli Hp). rewrite E in Hli. injection Hli as -> ->.
      unfold follows in Hfo. rewrite Hp in Hfo.
      unfold state_of in Hfo.
      destruct (conversions s !! c) as [[stc donec failc]|] eqn:Ec;
        [|discriminate Hfo].
      cbn in Hfo. injection Hfo as ->.
      pose proof (reject_rate_pending p error s _ _ E) as Hp'.
      split; [|split; [|exact Hot']].
      * unfold follows. rewrite (state_of_lookup _ _ _ Hp'). cbn [d_state].
        unfold reject_rate. rewrite E.
        cbn [fire foldl call_rate_fail]. unfold convertAmount_onError.
        erewrite state_of_lookup;
          [|apply reject_conversion_pending; proj; exact Ec].
        reflexivity.
      * rewrite (state_of_lookup _ _ _ Hp'). discriminate.
    + unfold reject_rate. rewrite E. exact (conj Hfo (conj Hli Hot)).
    + unfold reject_rate. rewrite E. exact (conj Hfo (conj Hli Hot)).
  - destruct (Hot d dr Hne E) as [_ Hnd].
    assert (Hrp : rates (reject_rate d error s) !! p = rates s !! p).
    { destruct (rates s !! p) as [drp|] eqn:Ep.
      - eapply settles_rate_kept; [exact Hs|exact Ep|left; congruence].
      - destruct Hs as (_ & [Hl _] & _). apply lookup_ge_None.
        apply lookup_ge_None in Ep. lia. }
    assert (Hcc : conversions (reject_rate d error s) !! c = conversions s !! c).
    { destruct (conversions s !! c) as [dc|] eqn:Ec.
      - eapply settles_conversion_kept; [exact Hs|exact Ec|left; exact Hnd].
      - destruct Hs as (_ & _ & [Hl _]). apply lookup_ge_None.
        apply lookup_ge_None in Ec. lia. }
    split; [|split; [|exact Hot']].
    + unfold follows, state_of in *. rewrite Hrp, Hcc. exact Hfo.
    + unfold state_of in *. rewrite Hrp. exact Hli.
Qed.

Lemma converting_call_user s p c amount u arg :
  converting s p c amount -> converting (call_user u arg s) p c amount.
Proof.
  destruct u as [tag|tag f t]; cbn [call_user].
  - apply converting_same; reflexivity.
  - intros H. destruct (fetchQuote f t s) as [q s1] eqn:E.
    apply (converting_same s); [| |exact H].
    + proj. change s1 with (snd (q, s1)). rewrite <- E.
      destruct (fetchQuote_cases f t s) as [(? & _ & ->)|[(_ & ->)|(_ & ->)]];
        reflexivity.
    + proj. change s1 with (snd (q, s1)). rewrite <- E.
      destruct (fetchQuote_cases f t s) as [(? & _ & ->)|[(_ & ->)|(_ & ->)]];
        reflexivity.
Qed.

Lemma fire_invariant {C} (I : State -> Prop) (call : C -> State -> State) cbs :
  (forall cb s, I s -> I (call cb s)) -> forall s, I s -> I (fire call cbs s).
Proof.
  intros H. unfold fire. induction cbs as [|cb cbs IH]; intros s Hs; cbn [foldl].
  - exact Hs.
  - apply IH, H, Hs.
Qed.

Lemma converting_resolve_quote s p c amount P val :
  converting s p c amount -> converting (resolve_quote P val s) p c amount.
Proof.
  intros H. unfold resolve_quote.
  destruct (quotes s !! P) as [[[| |] done fail]|]; try exact H.
  apply fire_invariant.
  - intros [d|u] s' Hs'; cbn [call_quote_done].
    + apply converting_resolve_rate, Hs'.
    + apply converting_call_user, Hs'.
  - eapply converting_same; [| |exact H]; reflexivity.
Qed.

Lemma converting_reject_quote s p c amount P error :
  converting s p c amount -> converting (reject_quote P error s) p c amount.
Proof.
  intros H. unfold reject_quote.
  destruct (quotes s !! P) as [[[| |] done fail]|]; try exact H.
  apply fire_invariant.
  - intros [q d|u] s' Hs'; cbn [call_quote_fail].
    + unfold oldRateFallback, resolveRate. destruct (isRateCached q s').
      * apply converting_resolve_rate, Hs'.
      * apply converting_reject_rate, Hs'.
    + apply converting_call_user, Hs'.
  - eapply converting_same; [| |exact H]; reflexivity.
Qed.

Lemma converting_call_xhr s p c amount reply cb :
  converting s p c amount -> converting (snd (call_xhr reply cb s)) p c amount.
Proof.
  intros H. destruct cb as [q P|P|q], reply as [response|error];
    cbn [call_xhr ret snd]; try exact H.
  - unfold fetchQuote_onSuccess, bind, lift.
    destruct (get_prop response q) as [entry|e]; [|exact H].
    destruct (get_prop entry "val") as [val|e]; [|exact H].
    destruct (cacheRate_keeps_deferreds q val s) as [_ Hr].
    assert (Hc : conversions (snd (cacheRate q val s)) = conversions s).
    { destruct (cacheRate_shape q val s) as (ls & k & ->). reflexivity. }
    destruct (cacheRate q val s) as [[[]|e] s1]; cbn [snd] in *.
    + unfold modify. cbn [snd]. apply converting_resolve_quote.
      eapply converting_same; [exact Hr|exact Hc|exact H].
    + eapply converting_same; [exact Hr|exact Hc|exact H].
  - unfold fetchQuote_onError, modify. cbn [snd]. apply converting_reject_quote, H.
Qed.

Lemma converting_fire_xhr reply cbs : forall s p c amount,
  converting s p c amount -> converting (snd (fire_xhr reply cbs s)) p c amount.
Proof.
  induction cbs as [|cb cbs IH]; intros s p c amount H; cbn [fire_xhr].
  - exact H.
  - unfold bind. pose proof (converting_call_xhr s p c amount reply cb H) as H1.
    destruct (call_xhr reply cb s) as [[[]|e] s1]; cbn [snd] in *.
    + apply IH, H1.
    + exact H1.
Qed.

Lemma converting_complete s p c amount i reply :
  converting s p c amount -> converting (snd (complete i reply s)) p c amount.
Proof.
  intros H. unfold complete.
  destruct (requests s !! i) as [x|]; [|exact H].
  destruct (completed x); [exact H|].
  destruct reply; apply converting_fire_xhr;
    (eapply converting_same; [| |exact H]; reflexivity).
Qed.

Lemma converting_answers events : forall s p c amount,
  converting s p c amount -> converting (answers events s) p c amount.
Proof.
  unfold answers. induction events as [|[i reply] events IH];
    intros s p c amount H; cbn [foldl].
  - exact H.
  - apply IH, converting_complete, H.
Qed.

Lemma resolve_rate_last l data s :
  rates s = l ++ [new_Deferred] ->
  resolve_rate (length l) data s
  = set_rates (l ++ [mkDeferred (Resolved data) [] []]) s.
Proof.
  intros H. unfold resolve_rate. rewrite H, lookup_last.
  cbn [new_Deferred fire foldl]. unfold settle. rewrite alter_last. reflexivity.
Qed.

Lemma reject_rate_last l error s :
  rates s = l ++ [new_Deferred] ->
  reject_rate (length l) error s
  = set_rates (l ++ [mkDeferred (Rejected error) [] []]) s.
Proof.
  intros H. unfold reject_rate. rewrite H, lookup_last.
  cbn [new_Deferred fire foldl]. unfold settle. rewrite alter_last. reflexivity.
Qed.

Lemma resolve_conversion_last l data s :
  conversions s = l ++ [new_Deferred] ->
  resolve_conversion (length l) data s
  = set_conversions (l ++ [mkDeferred (Resolved data) [] []]) s.
Proof.
  intros H. unfold resolve_conversion. rewrite H, lookup_last.
  cbn [new_Deferred fire foldl]. unfold settle. rewrite alter_last. reflexivity.
Qed.

Lemma reject_conversion_last l error s :
  conversions s = l ++ [new_Deferred] ->
  reject_conversion (length l) error s
  = set_conversions (l ++ [mkDeferred (Rejected error) [] []]) s.
Proof.
  intros H. unfold reject_conversion. rewrite H, lookup_last.
  cbn [new_Deferred fire foldl]. unfold settle. rewrite alter_last. reflexivity.
Qed.

Lemma fetchQuote_keeps fromCurrency toCurrency s :
  rates (snd (fetchQuote fromCurrency toCurrency s)) = rates s
  /\ conversions (snd (fetchQuote fromCurrency toCurrency s)) = conversions s.
Proof.
  destruct (fetchQuote_cases fromCurrency toCurrency s)
    as [(? & _ & ->)|[(_ & ->)|(_ & ->)]]; split; reflexivity.
Qed.

(** [getRate] adds its own deferred, with no callbacks yet, and touches no
    other deferred of [getRate] or [convertAmount]. *)
Lemma getRate_rates fromCurrency toCurrency s :
  exists st,
    rates (snd (getRate fromCurrency toCurrency s))
    = rates s ++ [mkDeferred st [] []]
    /\ conversions (snd (getRate fromCurrency toCurrency s)) = conversions s
    /\ match fst (getRate fromCurrency toCurrency s) with
       | Ok p => p = length (rates s)
       | Throw _ => True
       end.
Proof.
  unfold getRate. rewrite isRateValid_set_rates.
  destruct (isRateValid _ s) as [[|]|e].
  - unfold resolveRate. rewrite (resolve_rate_last (rates s)) by reflexivity.
    eexists. repeat split.
  - set (s0 := set_rates _ s).
    destruct (fetchQuote_keeps fromCurrency toCurrency s0) as [Hr Hc].
    destruct (fetchQuote fromCurrency toCurrency s0) as [[P|v] s1];
      unfold s0 in Hr, Hc; clear s0; proj;
      [|exists Pending; repeat split; assumption].
    unfold quote_done.
    destruct (quotes s1 !! P) as [[[|val|error] done fail]|] eqn:EP.
    + unfold quote_fail, add_done. proj.
      rewrite list_lookup_alter_eq, EP. cbn [fmap option_fmap option_map d_state].
      proj. exists Pending. repeat split; assumption.
    + cbn [call_quote_done]. unfold fetchOnSuccess, resolveRate.
      rewrite (resolve_rate_last (rates s)) by exact Hr.
      unfold quote_fail. proj. rewrite EP. proj.
      eexists. repeat split. exact Hc.
    + unfold quote_fail. rewrite EP. cbn [call_quote_fail].
      unfold oldRateFallback, resolveRate.
      destruct (isRateCached _ s1).
      * rewrite (resolve_rate_last (rates s)) by exact Hr. proj.
        eexists. repeat split. exact Hc.
      * rewrite (reject_rate_last (rates s)) by exact Hr. proj.
        eexists. repeat split. exact Hc.
    + unfold quote_fail. rewrite EP. proj. exists Pending. repeat split; assumption.
  - proj. exists Pending. repeat split.
Qed.

Lemma bounded_others s dr' :
  conversions_bounded s ->
  forall d dr, d <> length (rates s) -> (rates s ++ [dr']) !! d = Some dr ->
    ~ targets conv_of_done (d_done dr) (length (conversions s))
    /\ ~ targets conv_of_fail (d_fail dr) (length (conversions s)).
Proof.
  intros Hb d dr Hne Hd.
  assert (Hlt : d < length (rates s)).
  { apply lookup_lt_Some in Hd. rewrite length_app in Hd. cbn in Hd. lia. }
  rewrite lookup_app_l in Hd by exact Hlt.
  split; intros Ht.
  - specialize (Hb d dr _ Hd (or_introl Ht)). lia.
  - specialize (Hb d dr _ Hd (or_intror Ht)). lia.
Qed.

Lemma convertAmount_converting amount fromCurrency toCurrency s :
  conversions_bounded s ->
  let c := length (conversions s) in
  let s0 := set_conversions (conversions s ++ [new_Deferred]) s in
  match getRate fromCurrency toCurrency s0 with
  | (Throw e, s1) => convertAmount amount fromCurrency toCurrency s = (Throw e, s1)
  | (Ok p, _) =>
    exists s2, convertAmount amount fromCurrency toCurrency s = (Ok c, s2)
               /\ converting s2 p c amount
  end.
Proof.
  intros Hb c s0. unfold convertAmount. fold s0.
  destruct (getRate_rates fromCurrency toCurrency s0) as (st & Hr & Hc & Hp).
  destruct (getRate fromCurrency toCurrency s0) as [[p|e] s1]; [|reflexivity].
  cbn [fst snd] in *. subst p. subst s0. subst c. proj.
  eexists. split; [reflexivity|].
  assert (Hothers : forall dr', forall d dr, d <> length (rates s) ->
            (rates s ++ [dr']) !! d = Some dr ->
            ~ targets conv_of_done (d_done dr) (length (conversions s))
            /\ ~ targets conv_of_fail (d_fail dr) (length (conversions s))).
  { intros dr'. apply bounded_others, Hb. }
  destruct st as [|data|error].
  - (* the rate is not there yet: the two closures are queued *)
    unfold rate_done. rewrite Hr, lookup_last. proj.
    unfold rate_fail, add_done. proj. rewrite alter_last, lookup_last. proj.
    unfold add_fail. rewrite alter_last. cbn [d_state d_done d_fail].
    split; [|split].
    + unfold follows, state_of. proj. rewrite Hc, !lookup_last. reflexivity.
    + intros _. proj. apply lookup_last.
    + intros d dr Hne Hd. proj. eapply Hothers; eassumption.
  - (* the rate is there: [onSuccess] runs at once *)
    unfold rate_done. rewrite Hr, lookup_last. cbn [call_rate_done].
    unfold convertAmount_onSuccess.
    rewrite (resolve_conversion_last (conversions s)) by exact Hc.
    unfold rate_fail. proj. rewrite Hr, lookup_last. proj.
    split; [|split].
    + unfold follows, state_of. proj. rewrite Hr, !lookup_last. reflexivity.
    + unfold state_of. proj. rewrite Hr, lookup_last. discriminate.
    + intros d dr Hne Hd. proj. rewrite Hr in Hd. eapply Hothers; eassumption.
  - (* [getRate] failed at once: [onError] runs at once *)
    unfold rate_done. rewrite Hr, lookup_last. proj.
    unfold rate_fail. rewrite Hr, lookup_last. cbn [call_rate_fail].
    unfold convertAmount_onError.
    rewrite (reject_conversion_last (conversions s)) by exact Hc.
    split; [|split].
    + unfold follows, state_of. proj. rewrite Hr, !lookup_last. reflexivity.
    + unfold state_of. proj. rewrite Hr, lookup_last. discriminate.
    + intros d dr Hne Hd. proj. rewrite Hr in Hd. eapply Hothers; eassumption.
Qed.


(** The deferred that [convertAmount] creates before it calls [getRate] is
    invisible to that call. *)
Lemma getRate_ignores_conversions fromCurrency toCurrency x s :
  getRate fromCurrency toCurrency (set_conversions x s)
  = (fst (getRate fromCurrency toCurrency s),
     set_conversions x (snd (getRate fromCurrency toCurrency s))).
Proof.
  unfold getRate. proj.
  change (isRateValid (toQuery fromCurrency toCurrency)
            (set_rates (rates s ++ [new_Deferred]) (set_conversions x s)))
    with (isRateValid (toQuery fromCurrency toCurrency) s).
  rewrite isRateValid_set_rates.
  destruct (isRateValid _ s) as [[|]|e]; [| |reflexivity].
  - unfold resolveRate.
    rewrite !(resolve_rate_last (rates s)) by reflexivity. reflexivity.
  - unfold fetchQuote, getConversionInProgress. proj.
    destruct (CONVERSIONS_IN_PROGRESS s !! _) as [[P|]|]; cbn [truthy ToBoolean]; proj.
    + unfold quote_done, quote_fail. proj.
      destruct ((quotes s ++ [new_Deferred]) !! P)
        as [[[|val|error] done fail]|] eqn:EP; proj.
      * unfold add_done. rewrite list_lookup_alter_eq, EP. reflexivity.
      * cbn [call_quote_done]. unfold fetchOnSuccess, resolveRate.
        rewrite !(resolve_rate_last (rates s)) by reflexivity. proj.
        rewrite EP. reflexivity.
      * rewrite EP. cbn [call_quote_fail]. unfold oldRateFallback, resolveRate.
        change (isRateCached (toQuery fromCurrency toCurrency)
                  (set_quotes (quotes s ++ [new_Deferred])
                     (set_rates (rates s ++ [new_Deferred]) (set_conversions x s))))
          with (isRateCached (toQuery fromCurrency toCurrency) s).
        change (isRateCached (toQuery fromCurrency toCurrency)
                  (set_quotes (quotes s ++ [new_Deferred])
                     (set_rates (rates s ++ [new_Deferred]) s)))
          with (isRateCached (toQuery fromCurrency toCurrency) s).
        destruct (isRateCached _ s).
        -- rewrite !(resolve_rate_last (rates s)) by reflexivity. reflexivity.
        -- rewrite !(reject_rate_last (rates s)) by reflexivity. reflexivity.
      * rewrite EP. reflexivity.
    + unfold quote_done, quote_fail, setConversionInProgress. proj.
      rewrite !lookup_last. cbn [new_Deferred]. proj.
      unfold add_done. rewrite !alter_last, !lookup_last. reflexivity.
    + destruct (ToBoolean (inherited _)); proj; [reflexivity|].
      unfold quote_done, quote_fail, setConversionInProgress. proj.
      rewrite !lookup_last. cbn [new_Deferred]. proj.
      unfold add_done. rewrite !alter_last, !lookup_last. reflexivity.
Qed.

Lemma rate_done_state p cb s :
  state_of (rates (rate_done p cb s)) p = state_of (rates s) p.
Proof.
  unfold rate_done, state_of.
  destruct (rates s !! p) as [[[|data|error] done fail]|] eqn:E; proj;
    rewrite ?E; try reflexivity.
  - unfold add_done. rewrite list_lookup_alter_eq, E. reflexivity.
  - erewrite settles_rate_kept;
      [|apply call_rate_done_settles|exact E|left; intros []]. reflexivity.
Qed.

Lemma rate_fail_state p cb s :
  state_of (rates (rate_fail p cb s)) p = state_of (rates s) p.
Proof.
  unfold rate_fail, state_of.
  destruct (rates s !! p) as [[[|data|error] done fail]|] eqn:E; proj;
    rewrite ?E; try reflexivity.
  - unfold add_fail. rewrite list_lookup_alter_eq, E. reflexivity.
  - erewrite settles_rate_kept;
      [|apply call_rate_fail_settles|exact E|left; intros []]. reflexivity.
Qed.

(** C6: [convertAmount] throws what [getRate] would throw for the pair;
    otherwise the promise it returns follows the promise [getRate] would
    return, now and after any answers of the remote end: pending while
    that one is pending, resolved with the same object ([rate] and
    [expired] untouched) plus [value = amount * rate] when it resolves,
    rejected with the same error when it is rejected. *)
Theorem convertAmount_follows_getRate
    (amount fromCurrency toCurrency : Value) (s : State)
    (Hb : conversions_bounded s) :
  let c := length (conversions s) in
  match getRate fromCurrency toCurrency s with
  | (Throw e, _) =>
    fst (convertAmount amount fromCurrency toCurrency s) = Throw e
  | (Ok p, sg) =>
    exists sc,
      convertAmount amount fromCurrency toCurrency s = (Ok c, sc)
      /\ state_of (rates sc) p = state_of (rates sg) p
      /\ forall events,
           match state_of (rates (answers events sc)) p with
           | Some Pending => state_of (conversions (answers events sc)) c = Some Pending
           | Some (Resolved data) =>
             state_of (conversions (answers events sc)) c
             = Some (Resolved (mkRateObject (expired data) (rate data)
                                 (Some (js_mul amount (rate data)))))
           | Some (Rejected error) =>
             state_of (conversions (answers events sc)) c = Some (Rejected error)
           | None => False
           end
  end.
Proof.
  intros c.
  pose proof (convertAmount_converting amount fromCurrency toCurrency s Hb) as H.
  cbv zeta in H. fold c in H.
  rewrite getRate_ignores_conversions in H.
  assert (Hnow : forall p sg, getRate fromCurrency toCurrency s = (Ok p, sg) ->
            forall sc, convertAmount amount fromCurrency toCurrency s = (Ok c, sc) ->
            state_of (rates sc) p = state_of (rates sg) p).
  { intros p sg Hg sc. unfold convertAmount.
    rewrite getRate_ignores_conversions, Hg. cbn [fst snd].
    intros [= <-]. rewrite rate_fail_state, rate_done_state. reflexivity. }
  destruct (getRate fromCurrency toCurrency s) as [[p|e] sg]; cbn [fst snd] in H.
  - destruct H as (sc & Hconv & Hinv). exists sc. split; [exact Hconv|].
    split; [eapply Hnow; [reflexivity|exact Hconv]|].
    intros events.
    destruct (converting_answers events sc p c amount Hinv) as [Hf _]. exact Hf.
  - rewrite H. reflexivity.
Qed.

(** ** Writing the cache *)

(** What [cacheRate] does when the store lets it: the record is stored with
    the current time; with persistence off the store is not touched; with
    persistence on and the store out of reach the failure is logged; with
    persistence on and room in the store the whole cache is written under
    the configured name. *)
Lemma cacheRate_writes_through rateName value s :
  let record := VObj [("value", value); ("date", VDate (Some (clock s)))] in
  let cache := <[rateName := record]> (CACHED_RATES s) in
  let name := ToString (setting "LOCAL_STORAGE_VARIABLE_NAME" s) in
  CACHED_RATES (snd (cacheRate rateName value s)) = cache
  /\ (ToBoolean (setting "CACHE_TO_LOCAL_STORAGE" s) = false ->
      cacheRate rateName value s = (Ok tt, set_CACHED_RATES cache s))
  /\ (ToBoolean (setting "CACHE_TO_LOCAL_STORAGE" s) = true ->
      localStorage s = None ->
      cacheRate rateName value s
      = (Ok tt,
         set_console
           (console s ++
            ["Caching rates to local storage failed. Local storage not available"])
           (set_CACHED_RATES cache s)))
  /\ (forall st,
        ToBoolean (setting "CACHE_TO_LOCAL_STORAGE" s) = true ->
        localStorage s = Some st ->
        let probe := "js-currency-test" in
        storage_size (<[probe := probe]> (items st)) <= quota st ->
        storage_size (<[name := JSON_stringify cache]> (delete probe (items st)))
          <= quota st ->
        cacheRate rateName value s
        = (Ok tt,
           set_localStorage
             (Some (mkStorage (<[name := JSON_stringify cache]> (delete probe (items st)))
                      (quota st)))
             (set_CACHED_RATES cache s))).
Proof.
  intros record cache name. split; [apply cacheRate_CACHED_RATES|].
  subst record cache name.
  unfold cacheRate, bind, modify, setting. proj.
  split; [intros ->; reflexivity|].
  split.
  - intros -> Hls. unfold saveToLocalStorage, bind, isLocalStorageAvailable, bind,
      localStorage_setItem. proj. rewrite Hls. reflexivity.
  - intros st -> Hls Hprobe Hfit.
    unfold saveToLocalStorage, bind, isLocalStorageAvailable, bind,
      localStorage_setItem, localStorage_removeItem. proj. rewrite Hls.
    apply Nat.leb_le in Hprobe. rewrite Hprobe. proj. cbn [items quota].
    rewrite delete_insert_eq.
    apply Nat.leb_le in Hfit. rewrite Hfit. reflexivity.
Qed.

(** ** Closures name deferreds that exist, in every state the client can
    reach *)

Lemma keeps_lists_refl s : keeps_lists s s.
Proof.
  split; [reflexivity|]. split; [reflexivity|]. split.
  - intros P dq H. right. exists dq. auto.
  - intros d dr H. exists dr. auto.
Qed.

Lemma keeps_lists_trans s1 s2 s3 :
  keeps_lists s1 s2 -> keeps_lists s2 s3 -> keeps_lists s1 s3.
Proof.
  intros (R1 & C1 & Q1 & L1) (R2 & C2 & Q2 & L2).
  split; [congruence|]. split; [congruence|]. split.
  - intros P dq3 H3. destruct (Q2 P dq3 H3) as [He|(dq2 & H2 & Hd & Hf)]; [left; exact He|].
    destruct (Q1 P dq2 H2) as [[Hd1 Hf1]|(dq1 & H1 & Hd1 & Hf1)].
    + left. split; congruence.
    + right. exists dq1. repeat split; congruence.
  - intros d dr3 H3. destruct (L2 d dr3 H3) as (dr2 & H2 & Hd & Hf).
    destruct (L1 d dr2 H2) as (dr1 & H1 & Hd1 & Hf1).
    exists dr1. repeat split; congruence.
Qed.

Lemma keeps_same s s' :
  quotes s' = quotes s -> rates s' = rates s -> conversions s' = conversions s ->
  keeps_lists s s'.
Proof.
  intros Hq Hr Hc. unfold keeps_lists. rewrite Hq, Hr, Hc. apply keeps_lists_refl.
Qed.

Lemma no_targets {C} (target : C -> option nat) d : ~ targets target [] d.
Proof. intros (cb & Hin & _). inversion Hin. Qed.

Lemma keeps_lists_bounded s s' : keeps_lists s s' -> bounded s -> bounded s'.
Proof.
  intros (R & C & Q & L) [Hr Hc]. split.
  - intros P dq' d HP Ht. rewrite R.
    destruct (Q P dq' HP) as [[Hd Hf]|(dq & Hq & Hd & Hf)].
    + rewrite Hd, Hf in Ht. destruct Ht as [Ht|Ht]; destruct (no_targets _ _ Ht).
    + rewrite Hd, Hf in Ht. exact (Hr P dq d Hq Ht).
  - intros d dr' c Hd Ht. rewrite C.
    destruct (L d dr' Hd) as (dr & Hdr & Hdn & Hfl).
    rewrite Hdn, Hfl in Ht. exact (Hc d dr c Hdr Ht).
Qed.

Lemma settles_grows_keeps TR TC s s' :
  settles TR TC s s' -> grows s s' -> keeps_lists s s'.
Proof.
  intros (_ & Hr & Hc) (_ & (l & Hq & Hnew) & _ & _).
  split; [apply Hr|]. split; [apply Hc|]. split.
  - intros P dq' HP. rewrite Hq in HP.
    destruct (decide (P < length (quotes s))) as [Hlt|Hge].
    + rewrite lookup_app_l in HP by exact Hlt. right. exists dq'. auto.
    + rewrite lookup_app_r in HP by lia. left.
      rewrite Forall_forall in Hnew.
      rewrite (Hnew dq') by (eapply list_elem_of_lookup_2; exact HP).
      split; reflexivity.
  - intros d dr' Hd. destruct (heap_evolve_lists _ _ _ _ _ Hr Hd) as (dr & ? & ? & ?).
    exists dr. auto.
Qed.

Lemma call_user_keeps u arg s : keeps_lists s (call_user u arg s).
Proof. eapply settles_grows_keeps; [apply call_user_settles|apply call_user_grows]. Qed.

Lemma settle_quote_keeps P o s :
  keeps_lists s (set_quotes (settle P o (quotes s)) s).
Proof.
  split; [reflexivity|]. split; [reflexivity|]. split.
  - intros P' dq' H. proj. right. unfold settle in H.
    destruct (decide (P = P')) as [<-|Hne].
    + rewrite list_lookup_alter_eq in H.
      destruct (quotes s !! P) as [dq|]; [|discriminate H].
      injection H as <-. exists dq. auto.
    + rewrite list_lookup_alter_ne in H by exact Hne. exists dq'. auto.
  - intros d dr H. exists dr. auto.
Qed.

Lemma resolve_quote_keeps P val s : keeps_lists s (resolve_quote P val s).
Proof.
  unfold resolve_quote.
  destruct (quotes s !! P) as [[[| |] done fail]|]; try apply keeps_lists_refl.
  eapply keeps_lists_trans; [apply settle_quote_keeps|].
  eapply settles_grows_keeps; [apply fire_quote_done_settles|].
  apply fire_grows. intros; apply call_quote_done_grows.
Qed.

Lemma reject_quote_keeps P error s : keeps_lists s (reject_quote P error s).
Proof.
  unfold reject_quote.
  destruct (quotes s !! P) as [[[| |] done fail]|]; try apply keeps_lists_refl.
  eapply keeps_lists_trans; [apply settle_quote_keeps|].
  eapply settles_grows_keeps; [apply fire_quote_fail_settles|].
  apply fire_grows. intros; apply call_quote_fail_grows.
Qed.

Lemma call_xhr_keeps reply cb s : keeps_lists s (snd (call_xhr reply cb s)).
Proof.
  destruct cb as [q P|P|q], reply as [response|error];
    cbn [call_xhr ret snd]; try apply keeps_lists_refl;
    try (apply keeps_same; reflexivity).
  - unfold fetchQuote_onSuccess, bind, lift.
    destruct (get_prop response q) as [entry|e]; [|apply keeps_lists_refl].
    destruct (get_prop entry "val") as [val|e]; [|apply keeps_lists_refl].
    destruct (cacheRate_keeps_deferreds q val s) as [Hq Hr].
    assert (Hc : conversions (snd (cacheRate q val s)) = conversions s).
    { destruct (cacheRate_shape q val s) as (ls & k & ->). reflexivity. }
    destruct (cacheRate q val s) as [[[]|e] s1]; cbn [snd] in *.
    + unfold modify. cbn [snd].
      eapply keeps_lists_trans; [apply keeps_same; eassumption|].
      apply resolve_quote_keeps.
    + apply keeps_same; assumption.
  - unfold fetchQuote_onError, modify. cbn [snd]. apply reject_quote_keeps.
Qed.

Lemma fire_xhr_keeps reply cbs : forall s, keeps_lists s (snd (fire_xhr reply cbs s)).
Proof.
  induction cbs as [|cb cbs IH]; intros s; cbn [fire_xhr].
  - apply keeps_lists_refl.
  - unfold bind. pose proof (call_xhr_keeps reply cb s) as H1.
    destruct (call_xhr reply cb s) as [[[]|e] s1]; cbn [snd] in *.
    + eapply keeps_lists_trans; [exact H1|apply IH].
    + exact H1.
Qed.

Lemma complete_keeps i reply s : keeps_lists s (snd (complete i reply s)).
Proof.
  unfold complete.
  destruct (requests s !! i) as [x|]; [|apply keeps_lists_refl].
  destruct (completed x); [apply keeps_lists_refl|].
  destruct reply;
    (eapply keeps_lists_trans; [|apply fire_xhr_keeps]; apply keeps_same; reflexivity).
Qed.

Lemma targets_app {C} (target : C -> option nat) l1 l2 d :
  targets target (l1 ++ l2) d <-> targets target l1 d \/ targets target l2 d.
Proof.
  unfold targets. split.
  - intros (cb & Hin & Ht). apply elem_of_app in Hin.
    destruct Hin; [left|right]; exists cb; auto.
  - intros [(cb & Hin & Ht)|(cb & Hin & Ht)]; exists cb; split; auto;
      apply elem_of_app; auto.
Qed.

Lemma targets_one {C} (target : C -> option nat) cb d :
  targets target [cb] d <-> target cb = Some d.
Proof.
  unfold targets. split.
  - intros (cb' & Hin & Ht). apply list_elem_of_singleton in Hin. congruence.
  - intros H. exists cb. split; [apply list_elem_of_singleton; reflexivity|exact H].
Qed.

(** The quote deferreds after [getRate]: untouched (the call threw or was
    served from the cache), one unused deferred more (the call joined a
    promise that had already settled), the new promise with the two
    closures, or the promise in flight with the two closures added. *)
Lemma getRate_quotes fromCurrency toCurrency s :
  let s' := snd (getRate fromCurrency toCurrency s) in
  let d := length (rates s) in
  let query := toQuery fromCurrency toCurrency in
  quotes s' = quotes s
  \/ quotes s' = quotes s ++ [new_Deferred]
  \/ quotes s'
     = quotes s ++ [mkDeferred Pending [CbFetchOnSuccess d] [CbOldRateFallback query d]]
  \/ exists P L F,
       quotes s !! P = Some (mkDeferred Pending L F)
       /\ quotes s'
          = <[P := mkDeferred Pending (L ++ [CbFetchOnSuccess d])
                     (F ++ [CbOldRateFallback query d])]> (quotes s)
            ++ [new_Deferred].
Proof.
  intros s' d query.
  destruct (isRateValid query s) as [[|]|e] eqn:Hv.
  - left. unfold s'. rewrite getRate_valid by exact Hv. reflexivity.
  - destruct (CONVERSIONS_IN_PROGRESS s !! query) as [[P|]|] eqn:Hs.
    + destruct (quotes s !! P) as [[st L F]|] eqn:HP.
      * destruct st as [|val|error].
        -- right. right. right. exists P, L, F. split; [exact HP|].
           unfold s'. erewrite getRate_join; [reflexivity|exact Hv|exact Hs|exact HP].
        -- right. left. unfold s', getRate. rewrite isRateValid_set_rates.
           fold query. rewrite Hv.
           rewrite (fetchQuote_join _ _ _ P) by exact Hs. proj.
           unfold quote_done, quote_fail. proj.
           rewrite (lookup_app_l_Some _ _ _ _ HP). cbn [call_quote_done].
           unfold fetchOnSuccess, resolveRate.
           rewrite (resolve_rate_last (rates s)) by reflexivity. proj.
           rewrite (lookup_app_l_Some _ _ _ _ HP). reflexivity.
        -- right. left. unfold s', getRate. rewrite isRateValid_set_rates.
           fold query. rewrite Hv.
           rewrite (fetchQuote_join _ _ _ P) by exact Hs. proj.
           unfold quote_done, quote_fail. proj.
           rewrite (lookup_app_l_Some _ _ _ _ HP). proj.
           rewrite (lookup_app_l_Some _ _ _ _ HP). cbn [call_quote_fail].
           unfold oldRateFallback, resolveRate.
           destruct (isRateCached _ _).
           ++ rewrite (resolve_rate_last (rates s)) by reflexivity. reflexivity.
           ++ rewrite (reject_rate_last (rates s)) by reflexivity. reflexivity.
      * unfold s', getRate. rewrite isRateValid_set_rates.
        fold query. rewrite Hv.
        rewrite (fetchQuote_join _ _ _ P) by exact Hs. proj.
        unfold quote_done, quote_fail. proj.
        apply lookup_ge_None in HP.
        destruct (decide (P = length (quotes s))) as [->|Hne].
        -- (* the entry names the deferred this very call creates *)
           right. right. left.
           rewrite lookup_last. cbn [new_Deferred]. proj.
           unfold add_done. rewrite alter_last, lookup_last. proj.
           unfold add_fail. rewrite alter_last. reflexivity.
        -- right. left.
           assert (HP' : (quotes s ++ [new_Deferred]) !! P = None).
           { apply lookup_ge_None. rewrite length_app. cbn. lia. }
           rewrite HP'. proj. rewrite HP'. reflexivity.
    + right. right. left. unfold s'. rewrite getRate_idle; [reflexivity|exact Hv|].
      right. exact Hs.
    + destruct (ToBoolean (inherited query)) eqn:Hm.
      * right. left. unfold s', getRate. rewrite isRateValid_set_rates.
        fold query. rewrite Hv.
        rewrite fetchQuote_member by (split; [exact Hs|exact Hm]). reflexivity.
      * right. right. left. unfold s'. rewrite getRate_idle; [reflexivity|exact Hv|].
        left. split; [exact Hs|exact Hm].
  - left. unfold s', getRate. rewrite isRateValid_set_rates. fold query. rewrite Hv.
    reflexivity.
Qed.

Lemma rates_bounded_append s s' dr :
  rates_bounded s ->
  rates s' = rates s ++ [dr] ->
  (forall P dq' d, quotes s' !! P = Some dq' ->
     targets rate_of_done (d_done dq') d \/ targets rate_of_fail (d_fail dq') d ->
     d = length (rates s)
     \/ exists dq, quotes s !! P = Some dq
                   /\ (targets rate_of_done (d_done dq) d
                       \/ targets rate_of_fail (d_fail dq) d)) ->
  rates_bounded s'.
Proof.
  intros Hb Hr Hq P dq' d HP Ht. rewrite Hr, length_app. cbn [length].
  destruct (Hq P dq' d HP Ht) as [->|(dq & Hdq & Ht')]; [lia|].
  specialize (Hb P dq d Hdq Ht'). lia.
Qed.

Lemma getRate_rates_bounded fromCurrency toCurrency s :
  rates_bounded s -> rates_bounded (snd (getRate fromCurrency toCurrency s)).
Proof.
  intros Hb.
  destruct (getRate_rates fromCurrency toCurrency s) as (st & Hr & _ & _).
  eapply rates_bounded_append; [exact Hb|exact Hr|].
  intros P dq' d HP Ht.
  destruct (getRate_quotes fromCurrency toCurrency s)
    as [Hq|[Hq|[Hq|(P0 & L & F & HP0 & Hq)]]]; rewrite Hq in HP.
  - right. exists dq'. auto.
  - destruct (decide (P < length (quotes s))) as [Hlt|Hge].
    + rewrite lookup_app_l in HP by exact Hlt. right. exists dq'. auto.
    + rewrite lookup_app_r in HP by lia.
      apply list_elem_of_lookup_2, list_elem_of_singleton in HP. subst dq'.
      destruct Ht as [Ht|Ht]; destruct (no_targets _ _ Ht).
  - destruct (decide (P < length (quotes s))) as [Hlt|Hge].
    + rewrite lookup_app_l in HP by exact Hlt. right. exists dq'. auto.
    + rewrite lookup_app_r in HP by lia.
      apply list_elem_of_lookup_2, list_elem_of_singleton in HP. subst dq'.
      left. cbn [d_done d_fail] in Ht.
      destruct Ht as [Ht|Ht]; apply targets_one in Ht; cbn in Ht; congruence.
  - assert (Hlt0 : P0 < length (quotes s)) by (eapply lookup_lt_Some; exact HP0).
    destruct (decide (P < length (quotes s))) as [Hlt|Hge].
    + rewrite lookup_app_l in HP by (rewrite length_insert; exact Hlt).
      destruct (decide (P0 = P)) as [<-|Hne].
      * rewrite list_lookup_insert_eq in HP by exact Hlt0. injection HP as <-.
        cbn [d_done d_fail] in Ht.
        destruct Ht as [Ht|Ht]; apply targets_app in Ht; destruct Ht as [Ht|Ht].
        -- right. eexists. split; [exact HP0|]. left. exact Ht.
        -- left. apply targets_one in Ht. cbn in Ht. congruence.
        -- right. eexists. split; [exact HP0|]. right. exact Ht.
        -- left. apply targets_one in Ht. cbn in Ht. congruence.
      * rewrite list_lookup_insert_ne in HP by exact Hne. right. exists dq'. auto.
    + rewrite lookup_app_r in HP by (rewrite length_insert; lia).
      apply list_elem_of_lookup_2, list_elem_of_singleton in HP. subst dq'.
      destruct Ht as [Ht|Ht]; destruct (no_targets _ _ Ht).
Qed.

Lemma conversions_bounded_append s s' dr dc :
  conversions_bounded s ->
  rates s' = rates s ++ [dr] ->
  conversions s' = conversions s \/ conversions s' = conversions s ++ [dc] ->
  (forall c, targets conv_of_done (d_done dr) c \/ targets conv_of_fail (d_fail dr) c ->
     c < length (conversions s')) ->
  conversions_bounded s'.
Proof.
  intros Hb Hr Hc Hnew d dr' c Hd Ht. rewrite Hr in Hd.
  destruct (decide (d < length (rates s))) as [Hlt|Hge].
  - rewrite lookup_app_l in Hd by exact Hlt. specialize (Hb d dr' c Hd Ht).
    destruct Hc as [-> | ->]; [exact Hb|]. rewrite length_app. lia.
  - rewrite lookup_app_r in Hd by lia.
    apply list_elem_of_lookup_2, list_elem_of_singleton in Hd. subst dr'.
    apply Hnew, Ht.
Qed.

Lemma getRate_bounded fromCurrency toCurrency s :
  bounded s -> bounded (snd (getRate fromCurrency toCurrency s)).
Proof.
  intros [Hr Hc]. split; [apply getRate_rates_bounded, Hr|].
  destruct (getRate_rates fromCurrency toCurrency s) as (st & Hrs & Hcs & _).
  eapply (conversions_bounded_append s _ _ new_Deferred); [exact Hc|exact Hrs| |].
  - left. exact Hcs.
  - intros c [Ht|Ht]; destruct (no_targets _ _ Ht).
Qed.

(** The deferreds after [convertAmount]: those of [getRate], with the two
    closures on the new [getRate] promise if it is still pending, and one
    more [convertAmount] deferred. *)
Lemma convertAmount_shape amount fromCurrency toCurrency s :
  let s' := snd (convertAmount amount fromCurrency toCurrency s) in
  quotes s' = quotes (snd (getRate fromCurrency toCurrency s))
  /\ exists dr dc,
       rates s' = rates s ++ [dr]
       /\ conversions s' = conversions s ++ [dc]
       /\ forall c, targets conv_of_done (d_done dr) c
                    \/ targets conv_of_fail (d_fail dr) c ->
                    c = length (conversions s).
Proof.
  intros s'. unfold s', convertAmount.
  rewrite getRate_ignores_conversions.
  destruct (getRate_rates fromCurrency toCurrency s) as (st & Hr & Hc & Hp).
  destruct (getRate fromCurrency toCurrency s) as [[p|e] sg]; cbn [fst snd] in *.
  - subst p. destruct st as [|data|error].
    + unfold rate_done. proj. rewrite Hr, lookup_last. proj.
      unfold rate_fail, add_done. proj. rewrite alter_last, lookup_last. proj.
      unfold add_fail. rewrite alter_last. cbn [d_state d_done d_fail].
      split; [reflexivity|]. eexists _, _. split; [reflexivity|].
      split; [reflexivity|].
      cbn [d_done d_fail].
      intros c [Ht|Ht]; apply targets_one in Ht; cbn in Ht; congruence.
    + unfold rate_done. proj. rewrite Hr, lookup_last. cbn [call_rate_done].
      unfold convertAmount_onSuccess.
      rewrite (resolve_conversion_last (conversions s)) by reflexivity.
      unfold rate_fail. proj. rewrite Hr, lookup_last. proj.
      split; [reflexivity|]. eexists _, _. split; [exact Hr|].
      split; [reflexivity|].
      intros c [Ht|Ht]; destruct (no_targets _ _ Ht).
    + unfold rate_done. proj. rewrite Hr, lookup_last. proj.
      unfold rate_fail. proj. rewrite Hr, lookup_last. cbn [call_rate_fail].
      unfold convertAmount_onError.
      rewrite (reject_conversion_last (conversions s)) by reflexivity. proj.
      split; [reflexivity|]. eexists _, _. split; [exact Hr|].
      split; [reflexivity|].
      intros c [Ht|Ht]; destruct (no_targets _ _ Ht).
  - proj. split; [reflexivity|]. eexists _, _. split; [exact Hr|].
    split; [reflexivity|].
    intros c [Ht|Ht]; cbn in Ht; destruct (no_targets _ _ Ht).
Qed.

Lemma convertAmount_bounded amount fromCurrency toCurrency s :
  bounded s -> bounded (snd (convertAmount amount fromCurrency toCurrency s)).
Proof.
  intros [Hr Hc].
  destruct (convertAmount_shape amount fromCurrency toCurrency s)
    as (Hq & dr & dc & Hrs & Hcs & Hnew).
  split.
  - pose proof (getRate_rates_bounded fromCurrency toCurrency s Hr) as Hg.
    destruct (getRate_rates fromCurrency toCurrency s) as (st & Hgr & _ & _).
    intros P dq d HP Ht. rewrite Hq in HP. specialize (Hg P dq d HP Ht).
    rewrite Hgr in Hg. rewrite Hrs. rewrite !length_app in *. exact Hg.
  - eapply conversions_bounded_append; [exact Hc|exact Hrs|right; exact Hcs|].
    intros c Ht. rewrite (Hnew c Ht), Hcs, length_app. cbn. lia.
Qed.

Lemma fetchQuote_keeps_lists fromCurrency toCurrency s :
  keeps_lists s (snd (fetchQuote fromCurrency toCurrency s)).
Proof.
  eapply settles_grows_keeps; [apply fetchQuote_settles|apply fetchQuote_grows].
Qed.

(** Adding a callback of the client adds no target. *)
Lemma add_user_keeps_targets {A D F} (target : D -> option nat) p cb
    (h : list (Deferred A D F)) i d' x :
  target cb = None ->
  add_done p cb h !! i = Some d' -> targets target (d_done d') x ->
  exists d, h !! i = Some d /\ targets target (d_done d) x /\ d_fail d' = d_fail d.
Proof.
  intros Hn Hd Ht. unfold add_done in Hd.
  destruct (decide (p = i)) as [<-|Hne].
  - rewrite list_lookup_alter_eq in Hd.
    destruct (h !! p) as [d|]; [|discriminate Hd]. injection Hd as <-.
    exists d. split; [reflexivity|]. cbn [d_done d_fail] in *. split; [|reflexivity].
    apply targets_app in Ht. destruct Ht as [Ht|Ht]; [exact Ht|].
    apply targets_one in Ht. congruence.
  - rewrite list_lookup_alter_ne in Hd by exact Hne. exists d'. auto.
Qed.

Lemma add_user_fail_keeps_targets {A D F} (target : F -> option nat) p cb
    (h : list (Deferred A D F)) i d' x :
  target cb = None ->
  add_fail p cb h !! i = Some d' -> targets target (d_fail d') x ->
  exists d, h !! i = Some d /\ targets target (d_fail d) x /\ d_done d' = d_done d.
Proof.
  intros Hn Hd Ht. unfold add_fail in Hd.
  destruct (decide (p = i)) as [<-|Hne].
  - rewrite list_lookup_alter_eq in Hd.
    destruct (h !! p) as [d|]; [|discriminate Hd]. injection Hd as <-.
    exists d. split; [reflexivity|]. cbn [d_done d_fail] in *. split; [|reflexivity].
    apply targets_app in Ht. destruct Ht as [Ht|Ht]; [exact Ht|].
    apply targets_one in Ht. congruence.
  - rewrite list_lookup_alter_ne in Hd by exact Hne. exists d'. auto.
Qed.

Lemma add_done_fail_other {A D F} p cb (h : list (Deferred A D F)) i d' :
  add_done p cb h !! i = Some d' ->
  exists d, h !! i = Some d /\ d_fail d' = d_fail d.
Proof.
  unfold add_done. intros Hd. destruct (decide (p = i)) as [<-|Hne].
  - rewrite list_lookup_alter_eq in Hd.
    destruct (h !! p) as [d|]; [|discriminate Hd]. injection Hd as <-.
    exists d. auto.
  - rewrite list_lookup_alter_ne in Hd by exact Hne. exists d'. auto.
Qed.

Lemma add_fail_done_other {A D F} p cb (h : list (Deferred A D F)) i d' :
  add_fail p cb h !! i = Some d' ->
  exists d, h !! i = Some d /\ d_done d' = d_done d.
Proof.
  unfold add_fail. intros Hd. destruct (decide (p = i)) as [<-|Hne].
  - rewrite list_lookup_alter_eq in Hd.
    destruct (h !! p) as [d|]; [|discriminate Hd]. injection Hd as <-.
    exists d. auto.
  - rewrite list_lookup_alter_ne in Hd by exact Hne. exists d'. auto.
Qed.

Lemma quote_done_user_bounded p u s :
  bounded s -> bounded (quote_done p (QuoteDoneUser u) s).
Proof.
  intros Hb. unfold quote_done.
  destruct (quotes s !! p) as [[[|val|error] done fail]|]; try exact Hb.
  - destruct Hb as [Hr Hc]. split; [|exact Hc].
    intros P dq' d HP [Ht|Ht]; proj.
    + destruct (add_user_keeps_targets rate_of_done p (QuoteDoneUser u) _ P dq' d eq_refl HP Ht)
        as (dq & Hdq & Ht' & _).
      exact (Hr P dq d Hdq (or_introl Ht')).
    + destruct (add_done_fail_other p _ _ P dq' HP) as (dq & Hdq & Hf).
      rewrite Hf in Ht. exact (Hr P dq d Hdq (or_intror Ht)).
  - cbn [call_quote_done]. eapply keeps_lists_bounded; [apply call_user_keeps|exact Hb].
Qed.

Lemma quote_fail_user_bounded p u s :
  bounded s -> bounded (quote_fail p (QuoteFailUser u) s).
Proof.
  intros Hb. unfold quote_fail.
  destruct (quotes s !! p) as [[[|val|error] done fail]|]; try exact Hb.
  - destruct Hb as [Hr Hc]. split; [|exact Hc].
    intros P dq' d HP [Ht|Ht]; proj.
    + destruct (add_fail_done_other p _ _ P dq' HP) as (dq & Hdq & Hf).
      rewrite Hf in Ht. exact (Hr P dq d Hdq (or_introl Ht)).
    + destruct (add_user_fail_keeps_targets rate_of_fail p (QuoteFailUser u) _ P dq' d eq_refl HP Ht)
        as (dq & Hdq & Ht' & _).
      exact (Hr P dq d Hdq (or_intror Ht')).
  - cbn [call_quote_fail]. eapply keeps_lists_bounded; [apply call_user_keeps|exact Hb].
Qed.

Lemma rate_done_user_bounded p u s :
  bounded s -> bounded (rate_done p (RateDoneUser u) s).
Proof.
  intros Hb. unfold rate_done.
  destruct (rates s !! p) as [[[|data|error] done fail]|]; try exact Hb.
  - destruct Hb as [Hr Hc]. split.
    + intros P dq d HP Ht. proj. unfold add_done. rewrite length_alter.
      exact (Hr P dq d HP Ht).
    + intros d dr' c Hd [Ht|Ht]; proj.
      * destruct (add_user_keeps_targets conv_of_done p (RateDoneUser u) _ d dr' c eq_refl Hd Ht)
          as (dr & Hdr & Ht' & _).
        exact (Hc d dr c Hdr (or_introl Ht')).
      * destruct (add_done_fail_other p _ _ d dr' Hd) as (dr & Hdr & Hf).
        rewrite Hf in Ht. exact (Hc d dr c Hdr (or_intror Ht)).
  - cbn [call_rate_done]. eapply keeps_lists_bounded; [apply call_user_keeps|exact Hb].
Qed.

Lemma rate_fail_user_bounded p u s :
  bounded s -> bounded (rate_fail p (RateFailUser u) s).
Proof.
  intros Hb. unfold rate_fail.
  destruct (rates s !! p) as [[[|data|error] done fail]|]; try exact Hb.
  - destruct Hb as [Hr Hc]. split.
    + intros P dq d HP Ht. proj. unfold add_fail. rewrite length_alter.
      exact (Hr P dq d HP Ht).
    + intros d dr' c Hd [Ht|Ht]; proj.
      * destruct (add_fail_done_other p _ _ d dr' Hd) as (dr & Hdr & Hf).
        rewrite Hf in Ht. exact (Hc d dr c Hdr (or_introl Ht)).
      * destruct (add_user_fail_keeps_targets conv_of_fail p (RateFailUser u) _ d dr' c eq_refl Hd Ht)
          as (dr & Hdr & Ht' & _).
        exact (Hc d dr c Hdr (or_intror Ht')).
  - cbn [call_rate_fail]. eapply keeps_lists_bounded; [apply call_user_keeps|exact Hb].
Qed.

Lemma conversion_done_bounded p u s : bounded s -> bounded (conversion_done p u s).
Proof.
  intros Hb. unfold conversion_done.
  destruct (conversions s !! p) as [[[|data|error] done fail]|]; try exact Hb.
  - destruct Hb as [Hr Hc]. split; [exact Hr|].
    intros d dr c Hd Ht. proj. unfold add_done. rewrite length_alter.
    exact (Hc d dr c Hd Ht).
  - eapply keeps_lists_bounded; [apply call_user_keeps|exact Hb].
Qed.

Lemma conversion_fail_bounded p u s : bounded s -> bounded (conversion_fail p u s).
Proof.
  intros Hb. unfold conversion_fail.
  destruct (conversions s !! p) as [[[|data|error] done fail]|]; try exact Hb.
  - destruct Hb as [Hr Hc]. split; [exact Hr|].
    intros d dr c Hd Ht. proj. unfold add_fail. rewrite length_alter.
    exact (Hc d dr c Hd Ht).
  - eapply keeps_lists_bounded; [apply call_user_keeps|exact Hb].
Qed.

Lemma perform_bounded a s : bounded s -> bounded (perform a s).
Proof.
  intros Hb. destruct a as [options|f t|f t|amount f t|[p|p|p] u|[p|p|p] u|i reply|dt];
    cbn [perform].
  - unfold config. destruct (isObject options); exact Hb.
  - apply getRate_bounded, Hb.
  - eapply keeps_lists_bounded; [apply fetchQuote_keeps_lists|exact Hb].
  - apply convertAmount_bounded, Hb.
  - apply quote_done_user_bounded, Hb.
  - apply rate_done_user_bounded, Hb.
  - apply conversion_done_bounded, Hb.
  - apply quote_fail_user_bounded, Hb.
  - apply rate_fail_user_bounded, Hb.
  - apply conversion_fail_bounded, Hb.
  - eapply keeps_lists_bounded; [apply complete_keeps|exact Hb].
  - exact Hb.
Qed.

Lemma loaded_bounded cache store now : bounded (loaded cache store now).
Proof.
  split.
  - intros P dq d H. discriminate H.
  - intros d dr c H. discriminate H.
Qed.

(** Whatever the client and the remote end do after the module has loaded,
    the closures on the promises name deferreds that exist. *)
Lemma run_bounded actions : forall s, bounded s -> bounded (run actions s).
Proof.
  unfold run. induction actions as [|a actions IH]; intros s Hb; cbn [foldl].
  - exact Hb.
  - apply IH, perform_bounded, Hb.
Qed.

Corollary reachable_bounded actions cache store now :
  rates_bounded (run actions (loaded cache store now))
  /\ conversions_bounded (run actions (loaded cache store now)).
Proof. apply run_bounded, loaded_bounded. Qed.

(** ** The in-flight table between two turns of the event loop *)

Lemma is_pending_app {A D F} (h l : list (Deferred A D F)) i :
  is_pending h i -> is_pending (h ++ l) i.
Proof.
  intros (d & Hd & Hp). exists d. split; [apply lookup_app_l_Some, Hd|exact Hp].
Qed.

Lemma is_pending_add_done {A D F} (h : list (Deferred A D F)) p cb i :
  is_pending h i -> is_pending (add_done p cb h) i.
Proof.
  intros (d & Hd & Hp). unfold add_done. destruct (decide (p = i)) as [<-|Hne].
  - eexists. rewrite list_lookup_alter_eq, Hd. split; [reflexivity|exact Hp].
  - exists d. rewrite list_lookup_alter_ne by exact Hne. auto.
Qed.

Lemma is_pending_add_fail {A D F} (h : list (Deferred A D F)) p cb i :
  is_pending h i -> is_pending (add_fail p cb h) i.
Proof.
  intros (d & Hd & Hp). unfold add_fail. destruct (decide (p = i)) as [<-|Hne].
  - eexists. rewrite list_lookup_alter_eq, Hd. split; [reflexivity|exact Hp].
  - exists d. rewrite list_lookup_alter_ne by exact Hne. auto.
Qed.

(** A step that leaves table and log alone and keeps the pending quote
    deferreds pending. *)
Lemma tidy_step X s s' :
  CONVERSIONS_IN_PROGRESS s' = CONVERSIONS_IN_PROGRESS s ->
  requests s' = requests s ->
  length (quotes s) <= length (quotes s') ->
  (forall P, is_pending (quotes s) P -> is_pending (quotes s') P) ->
  tidy X s -> tidy X s'.
Proof.
  intros Hc Hr Hl Hp [[He Hw] Hpb]. split; [split|].
  - intros q P H. rewrite Hc in H. specialize (He q P H). lia.
  - intros i x Hx. rewrite Hr in Hx.
    destruct (Hw i x Hx) as (q & P & Hd & Hf & Hlt & Hu).
    exists q, P. split; [exact Hd|]. split; [exact Hf|]. split; [lia|].
    intros q' H. rewrite Hc in H. apply Hu, H.
  - intros q P H Hne. rewrite Hc in H. apply Hp, (Hpb q P H Hne).
Qed.

Lemma tidy_same X s s' :
  CONVERSIONS_IN_PROGRESS s' = CONVERSIONS_IN_PROGRESS s ->
  requests s' = requests s -> quotes s' = quotes s ->
  tidy X s -> tidy X s'.
Proof.
  intros Hc Hr Hq. apply tidy_step; try assumption; rewrite Hq; auto.
Qed.

Lemma fetchQuote_idle_tidy X fromCurrency toCurrency s :
  idle (toQuery fromCurrency toCurrency) s ->
  tidy X s -> tidy X (snd (fetchQuote fromCurrency toCurrency s)).
Proof.
  intros Hi Ht. rewrite fetchQuote_idle by exact Hi. proj.
  destruct Ht as [[He Hw] Hpb].
  assert (Hfresh : forall q P, CONVERSIONS_IN_PROGRESS s !! q = Some (Some P) ->
            P <> length (quotes s)).
  { intros q P H. specialize (He q P H). lia. }
  split; [split|].
  + intros q P H. proj. rewrite length_app. cbn [length].
    destruct (decide (toQuery fromCurrency toCurrency = q)) as [<-|Hne].
    * rewrite lookup_insert_eq in H. injection H as <-. lia.
    * rewrite lookup_insert_ne in H by exact Hne. specialize (He q P H). lia.
  + intros i x Hx. proj.
    destruct (decide (i < length (requests s))) as [Hlt|Hge].
    * rewrite lookup_app_l in Hx by exact Hlt.
      destruct (Hw i x Hx) as (q & P & Hd & Hf & HP & Hu).
      exists q, P. split; [exact Hd|]. split; [exact Hf|].
      split; [rewrite length_app; lia|].
      intros q' H.
      destruct (decide (toQuery fromCurrency toCurrency = q')) as [<-|Hne].
      -- rewrite lookup_insert_eq in H. injection H as <-. lia.
      -- rewrite lookup_insert_ne in H by exact Hne. apply Hu, H.
    * rewrite lookup_app_r in Hx by lia.
      apply list_elem_of_lookup_2, list_elem_of_singleton in Hx. subst x.
      exists (toQuery fromCurrency toCurrency), (length (quotes s)).
      split; [reflexivity|]. split; [reflexivity|].
      split; [rewrite length_app; cbn; lia|].
      intros q' H.
      destruct (decide (toQuery fromCurrency toCurrency = q')) as [<-|Hne];
        [reflexivity|].
      rewrite lookup_insert_ne in H by exact Hne.
      destruct (Hfresh q' _ H). reflexivity.
  + intros q P H Hne. proj.
    destruct (decide (toQuery fromCurrency toCurrency = q)) as [<-|Hneq].
    * rewrite lookup_insert_eq in H. injection H as <-.
      exists new_Deferred. split; [apply lookup_last|reflexivity].
    * rewrite lookup_insert_ne in H by exact Hneq.
      apply is_pending_app, (Hpb q P H Hne).
Qed.

Lemma fetchQuote_tidy X fromCurrency toCurrency s :
  tidy X s -> tidy X (snd (fetchQuote fromCurrency toCurrency s)).
Proof.
  intros Ht.
  destruct (fetchQuote_cases fromCurrency toCurrency s)
    as [(P & E & Hf)|[(Hm & Hf)|(Hi & Hf)]].
  1,2: rewrite Hf; proj;
    apply (tidy_step X s); [reflexivity|reflexivity| | |exact Ht]; proj;
    [rewrite length_app; lia|intros P'; apply is_pending_app].
  apply fetchQuote_idle_tidy; [exact Hi|exact Ht].
Qed.

Lemma call_user_tidy X u arg s : tidy X s -> tidy X (call_user u arg s).
Proof.
  intros Ht. destruct u as [tag|tag f t]; cbn [call_user].
  - apply (tidy_same X s); [reflexivity|reflexivity|reflexivity|exact Ht].
  - pose proof (fetchQuote_tidy X f t s Ht) as H.
    destruct (fetchQuote f t s) as [p s1]. proj.
    apply (tidy_same X s1); [reflexivity|reflexivity|reflexivity|exact H].
Qed.

Lemma resolve_conversion_tidy X c data s :
  tidy X s -> tidy X (resolve_conversion c data s).
Proof.
  intros Ht. unfold resolve_conversion.
  destruct (conversions s !! c) as [[[| |] done fail]|]; try exact Ht.
  apply fire_invariant; [intros; apply call_user_tidy; assumption|].
  apply (tidy_same X s); [reflexivity|reflexivity|reflexivity|exact Ht].
Qed.

Lemma reject_conversion_tidy X c error s :
  tidy X s -> tidy X (reject_conversion c error s).
Proof.
  intros Ht. unfold reject_conversion.
  destruct (conversions s !! c) as [[[| |] done fail]|]; try exact Ht.
  apply fire_invariant; [intros; apply call_user_tidy; assumption|].
  apply (tidy_same X s); [reflexivity|reflexivity|reflexivity|exact Ht].
Qed.

Lemma call_rate_done_tidy X cb data s : tidy X s -> tidy X (call_rate_done cb data s).
Proof.
  destruct cb; [apply resolve_conversion_tidy|apply call_user_tidy].
Qed.

Lemma call_rate_fail_tidy X cb error s : tidy X s -> tidy X (call_rate_fail cb error s).
Proof.
  destruct cb; [apply reject_conversion_tidy|apply call_user_tidy].
Qed.

Lemma resolve_rate_tidy X d data s : tidy X s -> tidy X (resolve_rate d data s).
Proof.
  intros Ht. unfold resolve_rate.
  destruct (rates s !! d) as [[[| |] done fail]|]; try exact Ht.
  apply fire_invariant; [intros; apply call_rate_done_tidy; assumption|].
  apply (tidy_same X s); [reflexivity|reflexivity|reflexivity|exact Ht].
Qed.

Lemma reject_rate_tidy X d error s : tidy X s -> tidy X (reject_rate d error s).
Proof.
  intros Ht. unfold reject_rate.
  destruct (rates s !! d) as [[[| |] done fail]|]; try exact Ht.
  apply fire_invariant; [intros; apply call_rate_fail_tidy; assumption|].
  apply (tidy_same X s); [reflexivity|reflexivity|reflexivity|exact Ht].
Qed.

Lemma call_quote_done_tidy X cb rate s : tidy X s -> tidy X (call_quote_done cb rate s).
Proof.
  destruct cb; [apply resolve_rate_tidy|apply call_user_tidy].
Qed.

Lemma call_quote_fail_tidy X cb error s : tidy X s -> tidy X (call_quote_fail cb error s).
Proof.
  destruct cb as [q d|u]; [|apply call_user_tidy].
  cbn [call_quote_fail]. unfold oldRateFallback.
  destruct (isRateCached q s); [apply resolve_rate_tidy|apply reject_rate_tidy].
Qed.

Lemma is_pending_settle_other {A D F} (h : list (Deferred A D F)) P o i :
  i <> P -> is_pending h i -> is_pending (settle P o h) i.
Proof.
  intros Hne (d & Hd & Hp). exists d. unfold settle.
  rewrite list_lookup_alter_ne by congruence. auto.
Qed.

(** Settling [P] leaves every other promise of the table pending. *)
Lemma settle_quote_tidy P o s :
  tidy P s -> tidy P (set_quotes (settle P o (quotes s)) s).
Proof.
  intros [[He Hw] Hpb]. split; [split|].
  - intros q P' H. proj. unfold settle. rewrite length_alter. exact (He q P' H).
  - intros i x Hx. proj. unfold settle. rewrite length_alter. exact (Hw i x Hx).
  - intros q P' H Hne. proj. apply is_pending_settle_other; [exact Hne|].
    exact (Hpb q P' H Hne).
Qed.

Lemma resolve_quote_tidy P val s : tidy P s -> tidy P (resolve_quote P val s).
Proof.
  intros Ht. unfold resolve_quote.
  destruct (quotes s !! P) as [[[| |] done fail]|]; try exact Ht.
  apply fire_invariant; [intros; apply call_quote_done_tidy; assumption|].
  apply settle_quote_tidy, Ht.
Qed.

Lemma reject_quote_tidy P error s : tidy P s -> tidy P (reject_quote P error s).
Proof.
  intros Ht. unfold reject_quote.
  destruct (quotes s !! P) as [[[| |] done fail]|]; try exact Ht.
  apply fire_invariant; [intros; apply call_quote_fail_tidy; assumption|].
  apply settle_quote_tidy, Ht.
Qed.

Lemma entries_pending_tidy X s : linked s -> entries_pending s -> tidy X s.
Proof. intros Hl Hp. split; [exact Hl|]. intros q P H _. exact (Hp q P H). Qed.

(** Once the key of the request that settled [P] is cleared, every promise
    of the table is pending again. *)
Lemma clear_entry_pending P query s i x :
  tidy P s ->
  requests s !! i = Some x ->
  xhr_fail x = [CbOnError P; CbOnAlways query] ->
  linked (setConversionInProgress query None s)
  /\ entries_pending (setConversionInProgress query None s).
Proof.
  intros [[He Hw] Hpb] Hx Hf.
  assert (Hclear : forall q P', CONVERSIONS_IN_PROGRESS
                                  (setConversionInProgress query None s) !! q
                                = Some (Some P') ->
            q <> query /\ CONVERSIONS_IN_PROGRESS s !! q = Some (Some P')).
  { intros q P' H. unfold setConversionInProgress in H. proj.
    destruct (decide (query = q)) as [<-|Hne].
    - rewrite lookup_insert_eq in H. discriminate H.
    - rewrite lookup_insert_ne in H by exact Hne. auto. }
  split; [split|].
  - intros q P' H. destruct (Hclear q P' H) as [_ H']. exact (He q P' H').
  - intros j y Hy. unfold setConversionInProgress in Hy. proj.
    destruct (Hw j y Hy) as (q & P' & Hd & Hfl & Hlt & Hu).
    exists q, P'. split; [exact Hd|]. split; [exact Hfl|]. split; [exact Hlt|].
    intros q' H. destruct (Hclear q' P' H) as [_ H']. apply Hu, H'.
  - intros q P' H. destruct (Hclear q P' H) as [Hne H'].
    unfold setConversionInProgress. proj.
    destruct (decide (P' = P)) as [->|HneP]; [|exact (Hpb q P' H' HneP)].
    exfalso. destruct (Hw i x Hx) as (q0 & P0 & _ & Hfl & _ & Hu).
    rewrite Hf in Hfl. injection Hfl as <- <-.
    apply Hne, Hu, H'.
Qed.

(** ** Every step of a client keeps the table well formed *)

Lemma tidy_entries_pending s : (forall X, tidy X s) -> linked s /\ entries_pending s.
Proof.
  intros H. split; [exact (proj1 (H 0))|].
  intros q P Hq. apply (proj2 (H (S P)) q P Hq). lia.
Qed.

Lemma tidy_all (f : State -> State) s :
  (forall X s, tidy X s -> tidy X (f s)) ->
  linked s -> entries_pending s -> linked (f s) /\ entries_pending (f s).
Proof.
  intros Hf Hl Hp. apply tidy_entries_pending. intros X.
  apply Hf, entries_pending_tidy; assumption.
Qed.

Lemma quote_done_tidy X p cb s : tidy X s -> tidy X (quote_done p cb s).
Proof.
  intros Ht. unfold quote_done.
  destruct (quotes s !! p) as [[[|val|error] done fail]|]; try exact Ht.
  - apply (tidy_step X s); try reflexivity; [| |exact Ht].
    + proj. unfold add_done. rewrite length_alter. lia.
    + intros P. proj. apply is_pending_add_done.
  - apply call_quote_done_tidy, Ht.
Qed.

Lemma quote_fail_tidy X p cb s : tidy X s -> tidy X (quote_fail p cb s).
Proof.
  intros Ht. unfold quote_fail.
  destruct (quotes s !! p) as [[[|val|error] done fail]|]; try exact Ht.
  - apply (tidy_step X s); try reflexivity; [| |exact Ht].
    + proj. unfold add_fail. rewrite length_alter. lia.
    + intros P. proj. apply is_pending_add_fail.
  - apply call_quote_fail_tidy, Ht.
Qed.

Lemma rate_done_tidy X p cb s : tidy X s -> tidy X (rate_done p cb s).
Proof.
  intros Ht. unfold rate_done.
  destruct (rates s !! p) as [[[|val|error] done fail]|]; try exact Ht.
  apply call_rate_done_tidy, Ht.
Qed.

Lemma rate_fail_tidy X p cb s : tidy X s -> tidy X (rate_fail p cb s).
Proof.
  intros Ht. unfold rate_fail.
  destruct (rates s !! p) as [[[|val|error] done fail]|]; try exact Ht.
  apply call_rate_fail_tidy, Ht.
Qed.

Lemma conversion_done_tidy X p cb s : tidy X s -> tidy X (conversion_done p cb s).
Proof.
  intros Ht. unfold conversion_done.
  destruct (conversions s !! p) as [[[|val|error] done fail]|]; try exact Ht.
  apply call_user_tidy, Ht.
Qed.

Lemma conversion_fail_tidy X p cb s : tidy X s -> tidy X (conversion_fail p cb s).
Proof.
  intros Ht. unfold conversion_fail.
  destruct (conversions s !! p) as [[[|val|error] done fail]|]; try exact Ht.
  apply call_user_tidy, Ht.
Qed.

Lemma getRate_tidy X fromCurrency toCurrency s :
  tidy X s -> tidy X (snd (getRate fromCurrency toCurrency s)).
Proof.
  intros Ht. unfold getRate.
  set (s0 := set_rates (rates s ++ [new_Deferred]) s).
  assert (H0 : tidy X s0).
  { apply (tidy_same X s); [reflexivity|reflexivity|reflexivity|exact Ht]. }
  destruct (isRateValid (toQuery fromCurrency toCurrency) s0) as [[|]|e]; proj.
  - unfold resolveRate. apply resolve_rate_tidy, H0.
  - pose proof (fetchQuote_tidy X fromCurrency toCurrency s0 H0) as H1.
    destruct (fetchQuote fromCurrency toCurrency s0) as [[p|v] s1]; proj;
      [|exact H1].
    apply quote_fail_tidy, quote_done_tidy, H1.
  - exact H0.
Qed.

Lemma convertAmount_tidy X amount fromCurrency toCurrency s :
  tidy X s -> tidy X (snd (convertAmount amount fromCurrency toCurrency s)).
Proof.
  intros Ht. unfold convertAmount.
  set (s0 := set_conversions (conversions s ++ [new_Deferred]) s).
  assert (H0 : tidy X s0).
  { apply (tidy_same X s); [reflexivity|reflexivity|reflexivity|exact Ht]. }
  pose proof (getRate_tidy X fromCurrency toCurrency s0 H0) as H1.
  destruct (getRate fromCurrency toCurrency s0) as [[p|e] s1]; proj.
  - apply rate_fail_tidy, rate_done_tidy, H1.
  - exact H1.
Qed.

Lemma config_tidy X options s : tidy X s -> tidy X (config options s).
Proof.
  intros Ht. unfold config. destruct (isObject options); [|exact Ht].
  apply (tidy_same X s); [reflexivity|reflexivity|reflexivity|exact Ht].
Qed.

Lemma mark_completed_tidy X i x s :
  requests s !! i = Some x -> tidy X s -> tidy X (mark_completed i x s).
Proof.
  intros Hx [[He Hw] Hpb]. split; [split|].
  - exact He.
  - intros j y Hy. unfold mark_completed in Hy. proj.
    destruct (decide (i = j)) as [<-|Hne].
    + rewrite list_lookup_insert_eq in Hy by (eapply lookup_lt_Some, Hx).
      injection Hy as <-. cbn [xhr_done xhr_fail]. exact (Hw i x Hx).
    + rewrite list_lookup_insert_ne in Hy by exact Hne. exact (Hw j y Hy).
  - exact Hpb.
Qed.

Lemma cacheRate_tidy X rateName value s :
  tidy X s -> tidy X (snd (cacheRate rateName value s)).
Proof.
  destruct (cacheRate_shape rateName value s) as (ls & c & ->).
  apply tidy_same; reflexivity.
Qed.

Lemma resolve_quote_keeps_requests P val s i x :
  requests s !! i = Some x -> requests (resolve_quote P val s) !! i = Some x.
Proof.
  intros Hx. unfold resolve_quote.
  destruct (quotes s !! P) as [[[| |] done fail]|]; try exact Hx.
  set (s1 := set_quotes _ s).
  destruct (fire_grows (fun cb => call_quote_done cb val) done
              (fun cb s => call_quote_done_grows cb val s) s1) as (_ & _ & (l & Hr) & _).
  rewrite Hr. apply lookup_app_l_Some. exact Hx.
Qed.

Lemma reject_quote_keeps_requests P error s i x :
  requests s !! i = Some x -> requests (reject_quote P error s) !! i = Some x.
Proof.
  intros Hx. unfold reject_quote.
  destruct (quotes s !! P) as [[[| |] done fail]|]; try exact Hx.
  set (s1 := set_quotes _ s).
  destruct (fire_grows (fun cb => call_quote_fail cb error) fail
              (fun cb s => call_quote_fail_grows cb error s) s1) as (_ & _ & (l & Hr) & _).
  rewrite Hr. apply lookup_app_l_Some. exact Hx.
Qed.

(** The answer to a request: when the handler runs to its end the key of
    the request is cleared after its promise settles; when the handler of a
    response throws, that happens before the promise settles. *)
Lemma complete_table i reply s :
  linked s -> entries_pending s ->
  linked (snd (complete i reply s)) /\ entries_pending (snd (complete i reply s)).
Proof.
  intros Hl Hp.
  destruct (requests s !! i) as [x|] eqn:Hx;
    [|unfold complete; rewrite Hx; auto].
  destruct (completed x) eqn:Hc; [unfold complete; rewrite Hx, Hc; auto|].
  destruct (proj2 Hl i x Hx) as (query & P & Hd & Hf & _ & _).
  assert (Hm : tidy P (mark_completed i x s)).
  { apply mark_completed_tidy; [exact Hx|]. apply entries_pending_tidy; assumption. }
  assert (Hx' : requests (mark_completed i x s) !! i
                = Some (mkRequest (url x) (xhr_done x) (xhr_fail x) true)).
  { unfold mark_completed. proj. apply list_lookup_insert_eq.
    eapply lookup_lt_Some, Hx. }
  assert (Hthrow : linked (mark_completed i x s)
                   /\ entries_pending (mark_completed i x s)).
  { apply tidy_entries_pending. intros X. apply mark_completed_tidy; [exact Hx|].
    apply entries_pending_tidy; assumption. }
  destruct reply as [response|error].
  - rewrite (complete_success s i x P query response Hx Hc Hd).
    destruct (get_prop response query) as [entry|e]; [|exact Hthrow].
    destruct (get_prop entry "val") as [val|e]; [|exact Hthrow].
    pose proof (cacheRate_tidy P query val _ Hm) as H1.
    pose proof (fun X => cacheRate_tidy X query val (mark_completed i x s)) as Hall.
    destruct (cacheRate query val (mark_completed i x s)) as [[[]|e] s1] eqn:Hcr;
      cbn [snd] in *.
    + assert (Hx1 : requests s1 !! i
                    = Some (mkRequest (url x) (xhr_done x) (xhr_fail x) true)).
      { destruct (cacheRate_shape query val (mark_completed i x s)) as (ls & c & E).
        rewrite Hcr in E. cbn [snd] in E. subst s1. exact Hx'. }
      assert (Hx2 : requests (resolve_quote P val s1) !! i
                    = Some (mkRequest (url x) (xhr_done x) (xhr_fail x) true)).
      { apply resolve_quote_keeps_requests, Hx1. }
      apply (clear_entry_pending P query _ i _ (resolve_quote_tidy P val s1 H1) Hx2).
      exact Hf.
    + apply tidy_entries_pending. intros X. apply Hall.
      apply mark_completed_tidy; [exact Hx|]. apply entries_pending_tidy; assumption.
  - rewrite (complete_failure s i x P query error Hx Hc Hf). cbn [snd].
    assert (Hx2 : requests (reject_quote P error (mark_completed i x s)) !! i
                  = Some (mkRequest (url x) (xhr_done x) (xhr_fail x) true)).
    { apply reject_quote_keeps_requests, Hx'. }
    apply (clear_entry_pending P query _ i _
             (reject_quote_tidy P error _ Hm) Hx2).
    exact Hf.
Qed.

Lemma perform_table a s :
  linked s -> entries_pending s ->
  linked (perform a s) /\ entries_pending (perform a s).
Proof.
  intros Hl Hp. destruct a as [options|f t|f t|amount f t|[p|p|p] u|[p|p|p] u|i reply|dt];
    cbn [perform].
  - apply (tidy_all (config options)); [intros; apply config_tidy|..]; assumption.
  - apply (tidy_all (fun s => snd (getRate f t s)));
      [intros; apply getRate_tidy|..]; assumption.
  - apply (tidy_all (fun s => snd (fetchQuote f t s)));
      [intros; apply fetchQuote_tidy|..]; assumption.
  - apply (tidy_all (fun s => snd (convertAmount amount f t s)));
      [intros; apply convertAmount_tidy|..]; assumption.
  - apply (tidy_all (quote_done p (QuoteDoneUser u)));
      [intros; apply quote_done_tidy|..]; assumption.
  - apply (tidy_all (rate_done p (RateDoneUser u)));
      [intros; apply rate_done_tidy|..]; assumption.
  - apply (tidy_all (conversion_done p u));
      [intros; apply conversion_done_tidy|..]; assumption.
  - apply (tidy_all (quote_fail p (QuoteFailUser u)));
      [intros; apply quote_fail_tidy|..]; assumption.
  - apply (tidy_all (rate_fail p (RateFailUser u)));
      [intros; apply rate_fail_tidy|..]; assumption.
  - apply (tidy_all (conversion_fail p u));
      [intros; apply conversion_fail_tidy|..]; assumption.
  - apply complete_table; assumption.
  - apply (tidy_all (tick dt)); [|assumption..].
    intros X s0. apply tidy_same; reflexivity.
Qed.

Lemma perform_well_formed a s : well_formed s -> well_formed (perform a s).
Proof.
  intros (Hb & Hl & Hp). split; [apply perform_bounded, Hb|].
  apply perform_table; assumption.
Qed.

Lemma loaded_well_formed cache store now : well_formed (loaded cache store now).
Proof.
  split; [apply loaded_bounded|]. split; [split|].
  - intros q P H. cbn in H. rewrite lookup_empty in H. discriminate H.
  - intros i x H. discriminate H.
  - intros q P H. cbn in H. rewrite lookup_empty in H. discriminate H.
Qed.

Lemma run_well_formed actions : forall s, well_formed s -> well_formed (run actions s).
Proof.
  unfold run. induction actions as [|a actions IH]; intros s Hw; cbn [foldl].
  - exact Hw.
  - apply IH, perform_well_formed, Hw.
Qed.

(** Whatever the client and the remote end do after the module has loaded,
    between two turns of the event loop the closures name deferreds that
    exist and every promise of the in-flight table is pending. *)
Corollary reachable_well_formed actions cache store now :
  well_formed (run actions (loaded cache store now)).
Proof. apply run_well_formed, loaded_well_formed. Qed.

(** In such a state the table reads, under any key, nothing, a pending
    promise, or a member of [Object.prototype]. *)
Lemma well_formed_entry s query :
  well_formed s ->
  idle query s
  \/ (exists P, CONVERSIONS_IN_PROGRESS s !! query = Some (Some P)
                /\ is_pending (quotes s) P)
  \/ reads_member query s.
Proof.
  intros (_ & _ & Hp).
  destruct (table_cases query s) as [[P E]|[Hm|Hi]]; auto.
  right. left. exists P. split; [exact E|]. exact (Hp query P E).
Qed.

(** * The rest of the module: storage, loading, and what every run keeps *)

(** ** The availability probe *)

(** X1: [isLocalStorageAvailable] never throws.  It answers [true] exactly
    when the store can be reached and has room for the probe item; the only
    trace it then leaves is that no item is kept under the probe's name any
    more, so an item the page had stored under ["js-currency-test"] is
    lost.  When it answers [false] the state is as before. *)
Theorem isLocalStorageAvailable_probe (s : State) :
  let probe := "js-currency-test" in
  exists available s',
    isLocalStorageAvailable s = (Ok available, s')
    /\ (available = true <->
        exists st, localStorage s = Some st
                   /\ storage_size (<[probe := probe]> (items st)) <= quota st)
    /\ (available = false -> s' = s)
    /\ (available = true ->
        exists st, localStorage s = Some st
                   /\ s' = set_localStorage
                             (Some (mkStorage (delete probe (items st)) (quota st))) s).
Proof.
  intros probe. unfold isLocalStorageAvailable, bind, localStorage_setItem,
    localStorage_removeItem.
  destruct (localStorage s) as [st|] eqn:Hls.
  - fold probe. destruct (storage_size (<[probe := probe]> (items st)) <=? quota st) eqn:Hfit.
    + proj. cbn [items quota]. rewrite delete_insert_eq.
      eexists true, _. split; [reflexivity|].
      apply Nat.leb_le in Hfit.
      split; [split; [intros _; exists st; auto|reflexivity]|].
      split; [discriminate|]. intros _. exists st. auto.
    + exists false, s. split; [reflexivity|].
      apply Nat.leb_gt in Hfit.
      split; [|split; [reflexivity|discriminate]].
      split; [discriminate|]. intros (st' & E & Hle). injection E as <-. lia.
  - exists false, s. split; [reflexivity|].
    split; [|split; [reflexivity|discriminate]].
    split; [discriminate|]. intros (st' & E & _). discriminate E.
Qed.

(** The store is out of reach, or has no room for the probe. *)
Lemma isLocalStorageAvailable_false s :
  (localStorage s = None
   \/ exists st, localStorage s = Some st
                 /\ quota st < storage_size (<["js-currency-test" := "js-currency-test"]>
                                               (items st))) ->
  isLocalStorageAvailable s = (Ok false, s).
Proof.
  unfold isLocalStorageAvailable, bind, localStorage_setItem.
  intros [->|(st & -> & Hlt)]; [reflexivity|].
  apply Nat.leb_gt in Hlt. rewrite Hlt. reflexivity.
Qed.

Lemma isLocalStorageAvailable_true s st :
  localStorage s = Some st ->
  storage_size (<["js-currency-test" := "js-currency-test"]> (items st)) <= quota st ->
  isLocalStorageAvailable s
  = (Ok true,
     set_localStorage (Some (mkStorage (delete "js-currency-test" (items st)) (quota st))) s).
Proof.
  intros Hls Hfit. unfold isLocalStorageAvailable, bind, localStorage_setItem,
    localStorage_removeItem. rewrite Hls.
  apply Nat.leb_le in Hfit. rewrite Hfit. proj. cbn [items quota].
  rewrite delete_insert_eq. reflexivity.
Qed.

Lemma cacheRate_unavailable rateName value s :
  ToBoolean (setting "CACHE_TO_LOCAL_STORAGE" s) = true ->
  (localStorage s = None
   \/ exists st, localStorage s = Some st
                 /\ quota st < storage_size (<["js-currency-test" := "js-currency-test"]>
                                               (items st))) ->
  cacheRate rateName value s
  = (Ok tt,
     set_console
       (console s ++ ["Caching rates to local storage failed. Local storage not available"])
       (set_CACHED_RATES
          (<[rateName := VObj [("value", value); ("date", VDate (Some (clock s)))]]>
             (CACHED_RATES s)) s)).
Proof.
  intros Hon Hun. unfold cacheRate, bind, modify, setting in *. proj. rewrite Hon.
  unfold saveToLocalStorage, bind.
  rewrite isLocalStorageAvailable_false by exact Hun. reflexivity.
Qed.

Lemma cacheRate_off rateName value s :
  ToBoolean (setting "CACHE_TO_LOCAL_STORAGE" s) = false ->
  cacheRate rateName value s
  = (Ok tt,
     set_CACHED_RATES
       (<[rateName := VObj [("value", value); ("date", VDate (Some (clock s)))]]>
          (CACHED_RATES s)) s).
Proof.
  intros Hoff. unfold cacheRate, bind, modify, setting in *. proj. rewrite Hoff.
  reflexivity.
Qed.

Lemma resolve_quote_env P val s : same_env s (resolve_quote P val s).
Proof.
  unfold resolve_quote.
  destruct (quotes s !! P) as [[[| |] done fail]|]; try apply same_env_refl.
  eapply same_env_trans;
    [|apply (proj1 (fire_quote_done_settles done val _))].
  repeat split.
Qed.

Lemma reject_quote_env P error s : same_env s (reject_quote P error s).
Proof.
  unfold reject_quote.
  destruct (quotes s !! P) as [[[| |] done fail]|]; try apply same_env_refl.
  eapply same_env_trans;
    [|apply (proj1 (fire_quote_fail_settles fail error _))].
  repeat split.
Qed.

(** A response that carries the rate, once the cache write has returned:
    the promise is resolved with the rate and the entry is cleared. *)
Lemma complete_success_cached s i x P query response entry val s1 :
  requests s !! i = Some x -> completed x = false ->
  xhr_done x = [CbOnSuccess query P; CbOnAlways query] ->
  get_prop response query = Ok entry -> get_prop entry "val" = Ok val ->
  cacheRate query val (mark_completed i x s) = (Ok tt, s1) ->
  complete i (Success response) s
  = (Ok tt, setConversionInProgress query None (resolve_quote P val s1)).
Proof.
  intros Hx Hc Hd Hr Hv Hcr.
  rewrite (complete_success s i x P query response Hx Hc Hd), Hr, Hv, Hcr.
  reflexivity.
Qed.

(** ** A response when the cache cannot be persisted *)

Lemma response_settled P query val s1 :
  is_pending (quotes s1) P ->
  let s' := setConversionInProgress query None (resolve_quote P val s1) in
  same_env s1 s'
  /\ state_of (quotes s') P = Some (Resolved val)
  /\ CONVERSIONS_IN_PROGRESS s' !! query = Some None.
Proof.
  intros Hp s'. split; [|split].
  - apply (same_env_trans _ (resolve_quote P val s1)); [apply resolve_quote_env|].
    repeat split.
  - apply (proj2 (resolve_quote_keeps_entries P val s1) Hp).
  - unfold s', setConversionInProgress. proj. apply lookup_insert_eq.
Qed.

(** X2: the store is out of reach, or too full for the probe item, and
    persistence is on.  A response that carries the rate is then handled to
    the end: the rate is cached in memory with the time of the answer, the
    failure to persist is logged once and not thrown, the store is left
    alone, the promise is resolved with the rate and the in-flight entry is
    cleared. *)
Theorem response_handled_when_store_unavailable
    (s : State) (i : nat) (x : Request) (P : nat) (query : string)
    (response entry val : Value)
    (Hx : requests s !! i = Some x)
    (Hc : completed x = false)
    (Hd : xhr_done x = [CbOnSuccess query P; CbOnAlways query])
    (Hp : is_pending (quotes s) P)
    (Hr : get_prop response query = Ok entry)
    (Hval : get_prop entry "val" = Ok val)
    (Hon : ToBoolean (setting "CACHE_TO_LOCAL_STORAGE" s) = true)
    (Hun : store_unavailable s) :
  let s' := snd (complete i (Success response) s) in
  fst (complete i (Success response) s) = Ok tt
  /\ CACHED_RATES s' = <[query := record_of val (clock s)]> (CACHED_RATES s)
  /\ console s'
     = console s ++ ["Caching rates to local storage failed. Local storage not available"]
  /\ localStorage s' = localStorage s
  /\ state_of (quotes s') P = Some (Resolved val)
  /\ CONVERSIONS_IN_PROGRESS s' !! query = Some None.
Proof.
  intros s'. subst s'.
  rewrite (complete_success_cached s i x P query response entry val _ Hx Hc Hd Hr Hval
             (cacheRate_unavailable query val (mark_completed i x s) Hon Hun)).
  cbn [fst snd]. split; [reflexivity|].
  match goal with |- context [resolve_quote P val ?s1] =>
    destruct (response_settled P query val s1 Hp)
      as ((_ & Hcr & _ & Hls & Hco) & Hst & Hen) end.
  split; [exact Hcr|]. split; [exact Hco|]. split; [exact Hls|].
  split; [exact Hst|exact Hen].
Qed.

(** ** What touches settings, store and console *)

Lemma same_store_refl s : same_store s s.
Proof. repeat split. Qed.

Lemma same_store_trans s1 s2 s3 :
  same_store s1 s2 -> same_store s2 s3 -> same_store s1 s3.
Proof. unfold same_store. intuition congruence. Qed.

Lemma same_env_store s s' : same_env s s' -> same_store s s'.
Proof. intros (H1 & _ & _ & H2 & H3). repeat split; assumption. Qed.

Lemma settles_store TR TC s s' : settles TR TC s s' -> same_store s s'.
Proof. intros [H _]. apply same_env_store, H. Qed.

Lemma quote_done_env p cb s : same_env s (quote_done p cb s).
Proof.
  unfold quote_done.
  destruct (quotes s !! p) as [[[|val|error] done fail]|]; try apply same_env_refl.
  - repeat split.
  - apply (proj1 (call_quote_done_settles cb val s)).
Qed.

Lemma quote_fail_env p cb s : same_env s (quote_fail p cb s).
Proof.
  unfold quote_fail.
  destruct (quotes s !! p) as [[[|val|error] done fail]|]; try apply same_env_refl.
  - repeat split.
  - apply (proj1 (call_quote_fail_settles cb error s)).
Qed.

Lemma rate_done_env p cb s : same_env s (rate_done p cb s).
Proof.
  unfold rate_done.
  destruct (rates s !! p) as [[[|val|error] done fail]|]; try apply same_env_refl.
  - repeat split.
  - apply (proj1 (call_rate_done_settles cb val s)).
Qed.

Lemma rate_fail_env p cb s : same_env s (rate_fail p cb s).
Proof.
  unfold rate_fail.
  destruct (rates s !! p) as [[[|val|error] done fail]|]; try apply same_env_refl.
  - repeat split.
  - apply (proj1 (call_rate_fail_settles cb error s)).
Qed.

Lemma conversion_done_env p cb s : same_env s (conversion_done p cb s).
Proof.
  unfold conversion_done.
  destruct (conversions s !! p) as [[[|val|error] done fail]|]; try apply same_env_refl.
  - repeat split.
  - apply (proj1 (call_user_settles cb (GotData val) s)).
Qed.

Lemma conversion_fail_env p cb s : same_env s (conversion_fail p cb s).
Proof.
  unfold conversion_fail.
  destruct (conversions s !! p) as [[[|val|error] done fail]|]; try apply same_env_refl.
  - repeat split.
  - apply (proj1 (call_user_settles cb (GotValue error) s)).
Qed.

(** [getRate] and [convertAmount] read settings, cache and clock and write
    none of them; they do not touch store or console. *)
Lemma getRate_env fromCurrency toCurrency s :
  same_env s (snd (getRate fromCurrency toCurrency s)).
Proof.
  unfold getRate.
  set (s0 := set_rates (rates s ++ [new_Deferred]) s).
  assert (H0 : same_env s s0) by (repeat split).
  destruct (isRateValid (toQuery fromCurrency toCurrency) s0) as [[|]|e]; proj.
  - eapply same_env_trans; [exact H0|]. unfold resolveRate.
    apply (proj1 (resolve_rate_settles _ _ s0)).
  - pose proof (proj1 (fetchQuote_settles fromCurrency toCurrency s0)) as H1.
    destruct (fetchQuote fromCurrency toCurrency s0) as [[p|v] s1]; proj;
      [|exact (same_env_trans _ _ _ H0 H1)].
    eapply same_env_trans; [exact H0|]. eapply same_env_trans; [exact H1|].
    eapply same_env_trans; [apply quote_done_env|apply quote_fail_env].
  - exact H0.
Qed.

Lemma convertAmount_env amount fromCurrency toCurrency s :
  same_env s (snd (convertAmount amount fromCurrency toCurrency s)).
Proof.
  unfold convertAmount.
  set (s0 := set_conversions (conversions s ++ [new_Deferred]) s).
  assert (H0 : same_env s s0) by (repeat split).
  pose proof (getRate_env fromCurrency toCurrency s0) as H1.
  destruct (getRate fromCurrency toCurrency s0) as [[p|e] s1]; proj.
  - eapply same_env_trans; [exact H0|]. eapply same_env_trans; [exact H1|].
    eapply same_env_trans; [apply rate_done_env|apply rate_fail_env].
  - exact (same_env_trans _ _ _ H0 H1).
Qed.

(** Answering a request keeps the settings; it writes store and console
    only through [cacheRate]. *)
Lemma complete_settings i reply s : SETTINGS (snd (complete i reply s)) = SETTINGS s.
Proof.
  destruct (requests s !! i) as [x|] eqn:Hx; [|unfold complete; rewrite Hx; reflexivity].
  unfold complete. rewrite Hx. destruct (completed x); [reflexivity|].
  set (s0 := set_requests _ s).
  assert (Hfire : forall cbs s1, SETTINGS s1 = SETTINGS s ->
            SETTINGS (snd (fire_xhr reply cbs s1)) = SETTINGS s).
  { induction cbs as [|cb cbs IH]; intros s1 H1; [exact H1|].
    cbn [fire_xhr]. unfold bind.
    assert (Hcb : SETTINGS (snd (call_xhr reply cb s1)) = SETTINGS s).
    { destruct cb as [q d|d|q], reply as [response|error]; cbn [call_xhr];
        try exact H1.
      - unfold fetchQuote_onSuccess, bind, lift, modify.
        destruct (get_prop response q) as [entry|e]; [|exact H1].
        destruct (get_prop entry "val") as [val|e]; [|exact H1].
        destruct (cacheRate_shape q val s1) as (ls & c & E).
        destruct (cacheRate q val s1) as [[[]|e] s2]; cbn [snd] in *; subst s2.
        + rewrite (proj1 (resolve_quote_env d val _)). exact H1.
        + exact H1.
      - unfold fetchQuote_onError, modify. cbn [snd].
        rewrite (proj1 (reject_quote_env d error _)). exact H1. }
    destruct (call_xhr reply cb s1) as [[[]|e] s2]; cbn [snd] in *; [|exact Hcb].
    apply IH, Hcb. }
  destruct reply; apply Hfire; reflexivity.
Qed.

Lemma complete_store_off i reply s :
  ToBoolean (setting "CACHE_TO_LOCAL_STORAGE" s) = false ->
  same_store s (snd (complete i reply s)).
Proof.
  intros Hoff.
  destruct (requests s !! i) as [x|] eqn:Hx;
    [|unfold complete; rewrite Hx; apply same_store_refl].
  unfold complete. rewrite Hx. destruct (completed x); [apply same_store_refl|].
  set (s0 := set_requests _ s).
  assert (H0 : same_store s s0) by (repeat split).
  assert (Hfire : forall cbs s1, same_store s s1 ->
            same_store s (snd (fire_xhr reply cbs s1))).
  { induction cbs as [|cb cbs IH]; intros s1 H1; [exact H1|].
    cbn [fire_xhr]. unfold bind.
    assert (Hcb : same_store s (snd (call_xhr reply cb s1))).
    { destruct cb as [q d|d|q], reply as [response|error]; cbn [call_xhr];
        try exact H1.
      - unfold fetchQuote_onSuccess, bind, lift, modify.
        destruct (get_prop response q) as [entry|e]; [|exact H1].
        destruct (get_prop entry "val") as [val|e]; [|exact H1].
        rewrite cacheRate_off
          by (unfold setting in *; rewrite (proj1 H1); exact Hoff).
        cbn [snd]. eapply same_store_trans; [exact H1|].
        eapply same_store_trans; [|apply same_env_store, resolve_quote_env].
        repeat split.
      - unfold fetchQuote_onError, modify. cbn [snd].
        eapply same_store_trans; [exact H1|apply same_env_store, reject_quote_env]. }
    destruct (call_xhr reply cb s1) as [[[]|e] s2]; cbn [snd] in *; [|exact Hcb].
    apply IH, Hcb. }
  destruct reply; apply Hfire; exact H0.
Qed.

Lemma perform_store_off a s :
  ToBoolean (setting "CACHE_TO_LOCAL_STORAGE" s) = false ->
  localStorage (perform a s) = localStorage s /\ console (perform a s) = console s.
Proof.
  intros Hoff.
  assert (Henv : forall s', same_env s s' ->
            localStorage s' = localStorage s /\ console s' = console s).
  { intros s' (_ & _ & _ & H1 & H2). auto. }
  destruct a as [options|f t|f t|amount f t|[p|p|p] u|[p|p|p] u|i reply|dt];
    cbn [perform].
  - unfold config. destruct (isObject options); split; reflexivity.
  - apply Henv, getRate_env.
  - apply Henv, (proj1 (fetchQuote_settles f t s)).
  - apply Henv, convertAmount_env.
  - apply Henv, quote_done_env.
  - apply Henv, rate_done_env.
  - apply Henv, conversion_done_env.
  - apply Henv, quote_fail_env.
  - apply Henv, rate_fail_env.
  - apply Henv, conversion_fail_env.
  - destruct (complete_store_off i reply s Hoff) as (_ & H1 & H2). auto.
  - split; reflexivity.
Qed.

Lemma perform_settings a s :
  no_config a = true -> SETTINGS (perform a s) = SETTINGS s.
Proof.
  destruct a as [options|f t|f t|amount f t|[p|p|p] u|[p|p|p] u|i reply|dt];
    cbn [perform no_config]; intros Hn; try discriminate Hn.
  - apply (proj1 (getRate_env f t s)).
  - apply (proj1 (proj1 (fetchQuote_settles f t s))).
  - apply (proj1 (convertAmount_env amount f t s)).
  - apply (proj1 (quote_done_env _ _ s)).
  - apply (proj1 (rate_done_env _ _ s)).
  - apply (proj1 (conversion_done_env _ _ s)).
  - apply (proj1 (quote_fail_env _ _ s)).
  - apply (proj1 (rate_fail_env _ _ s)).
  - apply (proj1 (conversion_fail_env _ _ s)).
  - apply complete_settings.
  - reflexivity.
Qed.

(** X3: with [CACHE_TO_LOCAL_STORAGE] switched off the module never touches
    [localStorage] or the console: not in any exposed function, not when a
    promise gets a callback, not when a request is answered (the
    availability probe is not run either).  This holds for one step of any
    kind and for every sequence of steps that does not call [config]. *)
Theorem persistence_off_leaves_store (s : State)
    (Hoff : ToBoolean (setting "CACHE_TO_LOCAL_STORAGE" s) = false) :
  (forall a, localStorage (perform a s) = localStorage s
             /\ console (perform a s) = console s)
  /\ (forall actions, forallb no_config actions = true ->
        localStorage (run actions s) = localStorage s
        /\ console (run actions s) = console s).
Proof.
  split; [intros a; apply perform_store_off, Hoff|].
  intros actions. revert s Hoff. unfold run.
  induction actions as [|a actions IH]; intros s Hoff Hn; cbn [foldl];
    [split; reflexivity|].
  cbn [forallb] in Hn. apply andb_prop in Hn as [Ha Hn].
  destruct (perform_store_off a s Hoff) as [H1 H2].
  assert (Hoff' : ToBoolean (setting "CACHE_TO_LOCAL_STORAGE" (perform a s)) = false).
  { unfold setting in *. rewrite (perform_settings a s Ha). exact Hoff. }
  destruct (IH (perform a s) Hoff' Hn) as [H3 H4].
  split; congruence.
Qed.

(** ** A fetch that succeeds *)

Lemma complete_success_ok s i x P query response entry val :
  requests s !! i = Some x -> completed x = false ->
  xhr_done x = [CbOnSuccess query P; CbOnAlways query] ->
  get_prop response query = Ok entry -> get_prop entry "val" = Ok val ->
  fst (complete i (Success response) s) = Ok tt ->
  exists s1,
    cacheRate query val (mark_completed i x s) = (Ok tt, s1)
    /\ complete i (Success response) s
       = (Ok tt, setConversionInProgress query None (resolve_quote P val s1)).
Proof.
  intros Hx Hc Hd Hr Hv Hok.
  rewrite (complete_success s i x P query response Hx Hc Hd), Hr, Hv in Hok.
  destruct (cacheRate query val (mark_completed i x s)) as [[[]|e] s1] eqn:Hcr;
    [|discriminate Hok].
  exists s1. split; [reflexivity|].
  apply (complete_success_cached s i x P query response entry val s1); assumption.
Qed.

(** The cache, the clock and the settings after a response was handled to
    the end. *)
Lemma complete_success_cache s i x P query response entry val :
  requests s !! i = Some x -> completed x = false ->
  xhr_done x = [CbOnSuccess query P; CbOnAlways query] ->
  get_prop response query = Ok entry -> get_prop entry "val" = Ok val ->
  fst (complete i (Success response) s) = Ok tt ->
  let s' := snd (complete i (Success response) s) in
  CACHED_RATES s' = <[query := record_of val (clock s)]> (CACHED_RATES s)
  /\ clock s' = clock s /\ SETTINGS s' = SETTINGS s.
Proof.
  intros Hx Hc Hd Hr Hv Hok s'.
  destruct (complete_success_ok s i x P query response entry val Hx Hc Hd Hr Hv Hok)
    as (s1 & Hcr & E).
  subst s'. rewrite E. cbn [snd].
  destruct (resolve_quote_env P val s1) as (Hse & Hca & Hcl & _).
  unfold setConversionInProgress. proj. rewrite Hse, Hca, Hcl.
  pose proof (cacheRate_CACHED_RATES query val (mark_completed i x s)) as H1.
  destruct (cacheRate_shape query val (mark_completed i x s)) as (ls & c & H2).
  rewrite Hcr in H1, H2. cbn [snd] in H1, H2.
  split; [exact H1|]. subst s1. split; reflexivity.
Qed.

(** X4: a [getRate] call that has to fetch (no fresh record under the key;
    the in-flight table reads [undefined], [null] or a pending promise
    there, not a member inherited from [Object.prototype]) and whose fetch
    is answered with the rate, the handler running to its end: the promise
    resolves with [{rate: the fetched rate, expired:
    false}], never with the stale cached value, and the record under the
    key is replaced by the fetched rate stamped with the time of the
    answer. *)
Theorem getRate_fetch_success_resolves
    (fromCurrency toCurrency : Value) (s : State) (response entry val : Value) (dt : Z)
    (Hb : rates_bounded s)
    (Hv : isRateValid (toQuery fromCurrency toCurrency) s = Ok false)
    (Hq : idle (toQuery fromCurrency toCurrency) s
          \/ exists P, CONVERSIONS_IN_PROGRESS s !! toQuery fromCurrency toCurrency
                       = Some (Some P)
                       /\ is_pending (quotes s) P)
    (Hr : get_prop response (toQuery fromCurrency toCurrency) = Ok entry)
    (Hval : get_prop entry "val" = Ok val) :
  let query := toQuery fromCurrency toCurrency in
  let d := length (rates s) in
  exists s1 P,
    getRate fromCurrency toCurrency s = (Ok d, s1)
    /\ CONVERSIONS_IN_PROGRESS s1 !! query = Some (Some P)
    /\ forall i x,
         requests s1 !! i = Some x -> completed x = false ->
         xhr_done x = [CbOnSuccess query P; CbOnAlways query] ->
         fst (complete i (Success response) (tick dt s1)) = Ok tt ->
         let s2 := snd (complete i (Success response) (tick dt s1)) in
         state_of (rates s2) d = Some (Resolved (mkRateObject false val None))
         /\ cached query s2 = record_of val (clock s + Z.max 0 dt).
Proof.
  intros query d.
  destruct (getRate_awaits fromCurrency toCurrency s Hb Hv Hq)
    as (s1 & P & Hg & Hs & Ha & He & _).
  exists s1, P. split; [exact Hg|]. split; [exact Hs|].
  intros i x Hx Hc Hd Hok s2.
  assert (Hx' : requests (tick dt s1) !! i = Some x) by exact Hx.
  destruct (complete_success_cache _ i x P query response entry val Hx' Hc Hd Hr Hval Hok)
    as (Hcache & _).
  destruct (complete_success_ok _ i x P query response entry val Hx' Hc Hd Hr Hval Hok)
    as (s1' & Hcr & E).
  split.
  - unfold s2. rewrite E. cbn [snd]. unfold setConversionInProgress. proj.
    apply (awaits_resolve _ P query d).
    destruct (cacheRate_keeps_deferreds query val (mark_completed i x (tick dt s1)))
      as [Hqs Hrs].
    rewrite Hcr in Hqs, Hrs. cbn [snd] in Hqs, Hrs.
    eapply awaits_same; [exact Hqs|exact Hrs|].
    eapply awaits_same; [| |exact Ha]; reflexivity.
  - unfold cached, s2. rewrite Hcache, lookup_insert_eq. cbn [default].
    unfold tick. proj. destruct He as (_ & _ & -> & _). reflexivity.
Qed.

(** X5: once a response with the rate has been handled to the end, every
    [getRate] call for the pair made within the validity period (counted
    from the answer, boundary included) resolves at once with the fetched
    rate and [expired: false], and issues no request. *)
Theorem fetched_rate_served_from_cache
    (s : State) (i : nat) (x : Request) (P : nat) (fromCurrency toCurrency : Value)
    (response entry val : Value) (v : Q) (dt : Z)
    (Hx : requests s !! i = Some x)
    (Hc : completed x = false)
    (Hd : xhr_done x = [CbOnSuccess (toQuery fromCurrency toCurrency) P;
                        CbOnAlways (toQuery fromCurrency toCurrency)])
    (Hr : get_prop response (toQuery fromCurrency toCurrency) = Ok entry)
    (Hval : get_prop entry "val" = Ok val)
    (Hok : fst (complete i (Success response) s) = Ok tt)
    (Hv : ToNumber (setting "RATES_VALIDITY_HOURS" s) = Fin v)
    (Hage : (inject_Z (Z.max 0 dt) <= v)%Q) :
  let s1 := tick dt (snd (complete i (Success response) s)) in
  exists s2,
    getRate fromCurrency toCurrency s1 = (Ok (length (rates s1)), s2)
    /\ state_of (rates s2) (length (rates s1))
       = Some (Resolved (mkRateObject false val None))
    /\ requests s2 = requests s1.
Proof.
  intros s1.
  destruct (complete_success_cache s i x P _ response entry val Hx Hc Hd Hr Hval Hok)
    as (Hcache & Hclock & Hset).
  assert (Hcached : cached (toQuery fromCurrency toCurrency) s1
                    = record_of val (clock s)).
  { unfold cached, s1, tick. proj. rewrite Hcache, lookup_insert_eq. reflexivity. }
  assert (Hvalid : isRateValid (toQuery fromCurrency toCurrency) s1 = Ok true).
  { rewrite (isRateValid_instant _ s1 (clock s) v).
    - f_equal. apply Qle_bool_iff. unfold s1, tick. proj. rewrite Hclock.
      replace (clock s + Z.max 0 dt - clock s)%Z with (Z.max 0 dt) by lia.
      exact Hage.
    - rewrite Hcached. reflexivity.
    - unfold setting, s1, tick. proj. rewrite Hset. exact Hv. }
  eexists. split; [apply getRate_valid, Hvalid|].
  proj. unfold state_of. rewrite lookup_last. rewrite Hcached.
  split; reflexivity.
Qed.

(** ** A response without the rate *)

(** X6: the response has no object under the key ([response[query]] is
    [undefined] or [null], as for an empty or foreign body).  The handler
    then throws a [TypeError] before it caches or settles anything and
    before the entry is cleared: the promise stays pending, the request
    cannot be answered a second time, and every later [fetchQuote] for the
    key is handed that same pending promise without a request being
    made. *)
Theorem malformed_response_strands_fetch
    (s : State) (i : nat) (x : Request) (P : nat) (query : string) (response : Value)
    (Hx : requests s !! i = Some x)
    (Hc : completed x = false)
    (Hd : xhr_done x = [CbOnSuccess query P; CbOnAlways query])
    (He : CONVERSIONS_IN_PROGRESS s !! query = Some (Some P))
    (Hp : is_pending (quotes s) P)
    (Hbad : read response query = VUndefined \/ read response query = VNull) :
  let s' := snd (complete i (Success response) s) in
  fst (complete i (Success response) s) = Throw TypeError
  /\ s' = mark_completed i x s
  /\ CACHED_RATES s' = CACHED_RATES s
  /\ is_pending (quotes s') P
  /\ CONVERSIONS_IN_PROGRESS s' !! query = Some (Some P)
  /\ (forall reply, complete i reply s' = (Ok tt, s'))
  /\ (forall fromCurrency toCurrency,
        toQuery fromCurrency toCurrency = query ->
        fst (fetchQuote fromCurrency toCurrency s') = P
        /\ requests (snd (fetchQuote fromCurrency toCurrency s')) = requests s').
Proof.
  intros s'.
  assert (E : complete i (Success response) s = (Throw TypeError, mark_completed i x s)).
  { rewrite (complete_success s i x P query response Hx Hc Hd).
    unfold get_prop at 1.
    destruct response as [| | b | n | str | t | props | name |];
      try (destruct Hbad as [Hbad|Hbad]; rewrite Hbad; reflexivity);
      reflexivity. }
  subst s'. rewrite E. cbn [fst snd].
  split; [reflexivity|]. split; [reflexivity|]. split; [reflexivity|].
  split; [exact Hp|]. split; [exact He|]. split.
  - intros reply. unfold complete, mark_completed. proj.
    rewrite list_lookup_insert_eq by (eapply lookup_lt_Some, Hx). reflexivity.
  - intros f t Hq.
    rewrite (fetchQuote_join f t (mark_completed i x s) P) by (rewrite Hq; exact He).
    split; reflexivity.
Qed.

(** ** Records whose age cannot be computed *)

(** X7: [isRateExpired] compares with [>], which is false as soon as one
    side is [NaN].  So a cached record whose date is a string that does not
    parse (or an invalid [Date]), and any dated record once
    [RATES_VALIDITY_HOURS] is not a number, never expires: at every time
    [getRate] serves it as fresh, [expired: false], and issues no
    request. *)
Theorem unreadable_age_never_expires
    (fromCurrency toCurrency : Value) (s : State)
    (Hobj : isObject (cached (toQuery fromCurrency toCurrency) s) = true)
    (Hdate : (exists str, read (cached (toQuery fromCurrency toCurrency) s) "date"
                          = VStr str)
             \/ exists t, read (cached (toQuery fromCurrency toCurrency) s) "date"
                          = VDate t)
    (Hnan : record_instant (cached (toQuery fromCurrency toCurrency) s) = None
            \/ ToNumber (setting "RATES_VALIDITY_HOURS" s) = NaN) :
  forall now : Z,
    let s1 := set_clock now s in
    isRateValid (toQuery fromCurrency toCurrency) s1 = Ok true
    /\ exists s2,
         getRate fromCurrency toCurrency s1 = (Ok (length (rates s)), s2)
         /\ state_of (rates s2) (length (rates s))
            = Some (Resolved
                      (mkRateObject false
                         (read (cached (toQuery fromCurrency toCurrency) s) "value")
                         None))
         /\ requests s2 = requests s.
Proof.
  intros now s1.
  assert (Hvalid : isRateValid (toQuery fromCurrency toCurrency) s1 = Ok true).
  { unfold isRateValid, isRateExpired, s1, cached, setting in *. proj.
    rewrite Hobj. unfold record_instant in Hnan.
    destruct Hdate as [(str & Hd)|(t & Hd)]; rewrite Hd in *; cbn [getTime].
    - destruct Hnan as [-> | ->]; [reflexivity|].
      destruct (age now (Date_parse str)); reflexivity.
    - destruct Hnan as [-> | ->]; [reflexivity|].
      destruct (age now t); reflexivity. }
  split; [exact Hvalid|].
  eexists. split; [apply (getRate_valid _ _ s1), Hvalid|].
  proj. unfold state_of. rewrite lookup_last. split; reflexivity.
Qed.

(** X8: a cached record whose [date] is neither a string nor a [Date]
    (missing, [null], a number, an object) makes the freshness test throw a
    [TypeError]: [getRate] and [convertAmount] then throw instead of
    returning a promise, and no request is made and nothing is registered
    as in flight. *)
Theorem undated_record_makes_getRate_throw
    (amount fromCurrency toCurrency : Value) (s : State)
    (Hobj : isObject (cached (toQuery fromCurrency toCurrency) s) = true)
    (Hdate : forall str t,
        read (cached (toQuery fromCurrency toCurrency) s) "date" <> VStr str
        /\ read (cached (toQuery fromCurrency toCurrency) s) "date" <> VDate t) :
  isRateValid (toQuery fromCurrency toCurrency) s = Throw TypeError
  /\ fst (getRate fromCurrency toCurrency s) = Throw TypeError
  /\ fst (convertAmount amount fromCurrency toCurrency s) = Throw TypeError
  /\ (forall s', s' = snd (getRate fromCurrency toCurrency s)
                 \/ s' = snd (convertAmount amount fromCurrency toCurrency s) ->
        requests s' = requests s
        /\ CONVERSIONS_IN_PROGRESS s' = CONVERSIONS_IN_PROGRESS s
        /\ quotes s' = quotes s).
Proof.
  assert (Hthrow : forall s0, CACHED_RATES s0 = CACHED_RATES s ->
            isRateValid (toQuery fromCurrency toCurrency) s0 = Throw TypeError).
  { intros s0 E. unfold isRateValid, isRateExpired, cached in *. rewrite E, Hobj.
    destruct (read _ "date") as [| | b | n | str | t | props | name |] eqn:Hd;
      try reflexivity.
    - destruct (Hdate str None) as [H _]. contradiction.
    - destruct (Hdate "" t) as [_ H]. contradiction. }
  assert (Hg : forall s0, CACHED_RATES s0 = CACHED_RATES s ->
            getRate fromCurrency toCurrency s0
            = (Throw TypeError, set_rates (rates s0 ++ [new_Deferred]) s0)).
  { intros s0 E. unfold getRate. rewrite isRateValid_set_rates, (Hthrow s0 E).
    reflexivity. }
  split; [apply Hthrow; reflexivity|].
  assert (Hc : convertAmount amount fromCurrency toCurrency s
               = (Throw TypeError,
                  set_rates (rates s ++ [new_Deferred])
                    (set_conversions (conversions s ++ [new_Deferred]) s))).
  { unfold convertAmount. rewrite Hg by reflexivity. reflexivity. }
  rewrite Hg by reflexivity. rewrite Hc. cbn [fst snd].
  split; [reflexivity|]. split; [reflexivity|].
  intros s' [-> | ->]; repeat split; reflexivity.
Qed.

(** ** Settings take effect at once *)

(** X9: [RATES_VALIDITY_HOURS] is compared with an age in milliseconds.
    After [config({RATES_VALIDITY_HOURS: n})] a record written at time [t]
    is fresh iff [now - t <= n] milliseconds, from the next call on; the
    default allows [24 * 60 * 60 * 1000]. *)
Theorem validity_is_in_milliseconds
    (queryCode : string) (s : State) (t : Z) (n : Q)
    (Ht : record_instant (cached queryCode s) = Some t) :
  let s' := config (VObj [("RATES_VALIDITY_HOURS", VNum (Fin n))]) s in
  (isRateValid queryCode s' = Ok true <-> (inject_Z (clock s - t) <= n)%Q)
  /\ (isRateValid queryCode s' = Ok false <-> (inject_Z (clock s - t) > n)%Q)
  /\ setting "RATES_VALIDITY_HOURS" (loaded (CACHED_RATES s) (localStorage s) (clock s))
     = VNum (Fin (inject_Z 86400000)).
Proof.
  intros s'.
  assert (Hs : ToNumber (setting "RATES_VALIDITY_HOURS" s') = Fin n).
  { unfold s', setting, config. cbn [isObject]. proj.
    rewrite jQuery_extend_lookup. reflexivity. }
  assert (Ht' : record_instant (cached queryCode s') = Some t) by exact Ht.
  rewrite (isRateValid_instant queryCode s' t n Ht' Hs).
  change (clock s') with (clock s).
  pose proof (Qle_bool_iff (inject_Z (clock s - t)) n) as Hle.
  destruct (Qle_bool (inject_Z (clock s - t)) n) eqn:E.
  - assert (Hy : (inject_Z (clock s - t) <= n)%Q) by (apply Hle; reflexivity).
    split; [tauto|]. split; [|reflexivity].
    split; [discriminate|]. intros Hgt. exfalso. apply (Qlt_not_le _ _ Hgt Hy).
  - assert (Hn : ~ (inject_Z (clock s - t) <= n)%Q).
    { intros H. apply Hle in H. discriminate H. }
    split; [split; [discriminate|tauto]|]. split; [|reflexivity].
    split; [|reflexivity]. intros _. apply Qnot_le_lt, Hn.
Qed.

(** ** [convertAmount] on a fresh pair *)

(** X10: when the record under the pair's key is fresh, [convertAmount]
    returns a promise that is already resolved with [{value: amount * rate,
    rate: the cached value, expired: false}]; no request is made, and
    in-flight table and cache are as before. *)
Theorem convertAmount_fresh_hit
    (amount fromCurrency toCurrency : Value) (s : State)
    (Hvalid : isRateValid (toQuery fromCurrency toCurrency) s = Ok true) :
  let c := length (conversions s) in
  let cachedRate := read (cached (toQuery fromCurrency toCurrency) s) "value" in
  exists s',
    convertAmount amount fromCurrency toCurrency s = (Ok c, s')
    /\ conversions s' !! c
       = Some (mkDeferred
                 (Resolved (mkRateObject false cachedRate
                              (Some (js_mul amount cachedRate))))
                 [] [])
    /\ requests s' = requests s
    /\ CONVERSIONS_IN_PROGRESS s' = CONVERSIONS_IN_PROGRESS s
    /\ CACHED_RATES s' = CACHED_RATES s.
Proof.
  intros c cachedRate. unfold convertAmount.
  rewrite (getRate_valid fromCurrency toCurrency
             (set_conversions (conversions s ++ [new_Deferred]) s)) by exact Hvalid.
  proj. unfold rate_done. proj. rewrite lookup_last.
  cbn [call_rate_done]. unfold convertAmount_onSuccess, resolve_conversion. proj.
  rewrite lookup_last. cbn [new_Deferred fire foldl]. proj.
  unfold rate_fail. proj. unfold settle. rewrite alter_last, ?lookup_last.
  eexists. split; [reflexivity|]. proj. unfold c. rewrite lookup_last.
  repeat split; reflexivity.
Qed.

(** ** Loading the module *)

Section ModuleLoad.
Context {reader : Reader}.

Lemma default_flag store now :
  ToBoolean (setting "CACHE_TO_LOCAL_STORAGE" (loaded ∅ store now)) = true.
Proof. reflexivity. Qed.

Lemma default_name store now :
  setting "LOCAL_STORAGE_VARIABLE_NAME" (loaded ∅ store now)
  = VStr "JS_CURRENCY_CONVERTER_CACHED_RATES".
Proof. reflexivity. Qed.

(** What the factory does once the probe has succeeded. *)
Lemma factory_available (st : Storage) (now : Z) :
  storage_size (<["js-currency-test" := "js-currency-test"]> (items st)) <= quota st ->
  let store' := Some (mkStorage (delete "js-currency-test" (items st)) (quota st)) in
  let item := delete "js-currency-test" (items st)
                !! "JS_CURRENCY_CONVERTER_CACHED_RATES" in
  factory (Some st) now
  = match JSON_parse (match item with Some text => text | None => "null" end) with
    | Some (JValue v) =>
      if ToBoolean v then
        match v with
        | VObj props => Ready (loaded (list_to_map props) store' now)
        | _ => Odd (JValue v) (loaded ∅ store' now)
        end
      else Ready (loaded ∅ store' now)
    | Some (JArray elements) => Odd (JArray elements) (loaded ∅ store' now)
    | None => Broken RaisesSyntaxError (loaded ∅ store' now)
    end.
Proof.
  intros Hfit store' item. unfold factory. rewrite default_flag, default_name.
  unfold getFromLocalStorage.
  rewrite (isLocalStorageAvailable_true (loaded ∅ (Some st) now) st eq_refl Hfit).
  unfold localStorage_getItem. proj. cbn [items ToString]. fold item.
  destruct (JSON_parse _) as [[v|elements]|]; reflexivity.
Qed.

(** X11: when the store is out of reach at load time, or too full for the
    32-character probe item, the saved rates are not read even if they are
    there: the module starts with an empty cache, the failure is logged on
    the console, the store is left as it was and nothing is thrown. *)
Theorem load_without_store (store : option Storage) (now : Z)
    (Hun : store_unavailable (loaded ∅ store now)) :
  factory store now
  = Ready
      (set_console
         ["Retrieving rates from local storage failed. Local storage not available"]
         (loaded ∅ store now)).
Proof.
  unfold factory. rewrite default_flag, default_name. unfold getFromLocalStorage.
  rewrite isLocalStorageAvailable_false by exact Hun. reflexivity.
Qed.

(** X12: first load: the store can be reached and holds nothing under the
    cache's name.  [JSON.parse(null)] gives [null], so the module starts
    with an empty cache and logs nothing; the store is as before, less any
    item under the probe's name. *)
Theorem load_with_nothing_saved (st : Storage) (now : Z)
    (Hnull : JSON_parse "null" = Some (JValue VNull))
    (Hfit : storage_size (<["js-currency-test" := "js-currency-test"]> (items st))
            <= quota st)
    (Hnone : items st !! "JS_CURRENCY_CONVERTER_CACHED_RATES" = None) :
  factory (Some st) now
  = Ready (loaded ∅ (Some (mkStorage (delete "js-currency-test" (items st)) (quota st)))
             now).
Proof.
  rewrite (factory_available st now Hfit).
  rewrite lookup_delete_ne by discriminate. rewrite Hnone, Hnull. reflexivity.
Qed.

(** X13: an item under the cache's name that is not JSON makes
    [JSON.parse] throw while the module loads; nothing catches the
    [SyntaxError], so the factory does not return and no converter is
    defined. *)
Theorem load_with_corrupt_item (st : Storage) (now : Z) (text : string)
    (Hfit : storage_size (<["js-currency-test" := "js-currency-test"]> (items st))
            <= quota st)
    (Hitem : items st !! "JS_CURRENCY_CONVERTER_CACHED_RATES" = Some text)
    (Hbad : JSON_parse text = None) :
  exists s, factory (Some st) now = Broken RaisesSyntaxError s.
Proof.
  rewrite (factory_available st now Hfit).
  rewrite lookup_delete_ne by discriminate. rewrite Hitem, Hbad.
  eexists. reflexivity.
Qed.

(** The store after [cacheRate] has written the cache under [name]. *)
Lemma cacheRate_saved rateName value s st :
  let cache := <[rateName := record_of value (clock s)]> (CACHED_RATES s) in
  let name := ToString (setting "LOCAL_STORAGE_VARIABLE_NAME" s) in
  let items' := <[name := JSON_stringify cache]> (delete "js-currency-test" (items st)) in
  ToBoolean (setting "CACHE_TO_LOCAL_STORAGE" s) = true ->
  localStorage s = Some st ->
  storage_size (<["js-currency-test" := "js-currency-test"]> (items st)) <= quota st ->
  storage_size items' <= quota st ->
  fst (cacheRate rateName value s) = Ok tt
  /\ localStorage (snd (cacheRate rateName value s)) = Some (mkStorage items' (quota st)).
Proof.
  intros cache name items' Hon Hls Hprobe Hfit.
  destruct (cacheRate_writes_through rateName value s) as (_ & _ & _ & H).
  rewrite (H st Hon Hls Hprobe Hfit). split; reflexivity.
Qed.

(** The table the factory builds from a parsed object reads, under each
    name, the property of that name. *)
Lemma list_to_map_assoc (props : list (string * Value)) (name : string) :
  (list_to_map props : gmap string Value) !! name = assoc name props.
Proof.
  induction props as [|[k v] rest IH]; [reflexivity|].
  cbn [list_to_map assoc foldr uncurry fst snd]. destruct (String.eqb_spec k name) as [->|Hne].
  - apply lookup_insert_eq.
  - rewrite lookup_insert_ne by exact Hne. exact IH.
Qed.

Lemma Qle_bool_inject_Z (a b : Z) : Qle_bool (inject_Z a) (inject_Z b) = (a <=? b)%Z.
Proof. unfold Qle_bool, inject_Z. cbn [Qnum Qden]. rewrite !Z.mul_1_r. reflexivity. Qed.

(** X14: save, then load.  With the default settings for persistence,
    [cacheRate] writes the cache at the instant [clock s], under a name
    other than ["__proto__"] (an assignment under that name does not make a
    property that [JSON.stringify] would write); the module is loaded again
    at [now'], in a store that still has room for the probe.
    What the host's JSON does to the record is a hypothesis on the host:
    the text parses to an object whose property under the rate's name has
    the value as it was written and, for the date, a string [iso] that
    [Date.parse] reads back as the instant of the write (the ISO text that
    [JSON.stringify] writes for a [Date]).  Then the load leaves the store
    as it is, the cache of the new session holds the value under the
    rate's name with the date as that string, and the record has kept its
    age: it is fresh in the new session iff [now' - clock s <= 86400000],
    counted from the write, not from the load. *)
Theorem saved_cache_is_read_at_next_load
    (rateName : string) (value : Value) (s : State) (st : Storage)
    (props : list (string * Value)) (iso : string) (now' : Z)
    (Hkey : rateName <> "__proto__")
    (Hon : ToBoolean (setting "CACHE_TO_LOCAL_STORAGE" s) = true)
    (Hname : setting "LOCAL_STORAGE_VARIABLE_NAME" s
             = VStr "JS_CURRENCY_CONVERTER_CACHED_RATES")
    (Hls : localStorage s = Some st)
    (Hprobe : storage_size (<["js-currency-test" := "js-currency-test"]> (items st))
              <= quota st)
    (Hfit : storage_size
              (<["JS_CURRENCY_CONVERTER_CACHED_RATES" :=
                   JSON_stringify (<[rateName := record_of value (clock s)]>
                                     (CACHED_RATES s))]>
                 (delete "js-currency-test" (items st))) <= quota st)
    (Hprobe' : storage_size
                 (<["js-currency-test" := "js-currency-test"]>
                    (<["JS_CURRENCY_CONVERTER_CACHED_RATES" :=
                         JSON_stringify (<[rateName := record_of value (clock s)]>
                                           (CACHED_RATES s))]>
                       (delete "js-currency-test" (items st)))) <= quota st)
    (Hparse : JSON_parse (JSON_stringify (<[rateName := record_of value (clock s)]>
                                            (CACHED_RATES s)))
              = Some (JValue (VObj props)))
    (Hrecord : assoc rateName props = Some (stored_record value iso))
    (Hiso : Date_parse iso = Some (clock s)) :
  let s' := snd (cacheRate rateName value s) in
  fst (cacheRate rateName value s) = Ok tt
  /\ exists s0,
       factory (localStorage s') now' = Ready s0
       /\ localStorage s0 = localStorage s'
       /\ cached rateName s0 = stored_record value iso
       /\ isRateCached rateName s0 = true
       /\ isRateValid rateName s0 = Ok (now' - clock s <=? 86400000)%Z.
Proof.
  intros s'.
  pose proof (cacheRate_saved rateName value s st Hon Hls Hprobe) as H.
  cbv zeta in H. rewrite Hname in H. cbn [ToString] in H.
  destruct (H Hfit) as [Hok Hst]. split; [exact Hok|].
  subst s'. rewrite Hst.
  match goal with |- context [factory (Some ?st')] =>
      rewrite (factory_available st' now' Hprobe') end. cbn [items quota].
  rewrite delete_insert_ne by discriminate. rewrite delete_delete_eq.
  rewrite lookup_insert_eq, Hparse. cbn [ToBoolean].
  eexists. split; [reflexivity|].
  assert (Hc : cached rateName
                 (loaded (list_to_map props)
                    (Some (mkStorage
                             (<["JS_CURRENCY_CONVERTER_CACHED_RATES" :=
                                  JSON_stringify
                                    (<[rateName := record_of value (clock s)]>
                                       (CACHED_RATES s))]>
                                (delete "js-currency-test" (items st))) (quota st)))
                    now')
               = stored_record value iso).
  { unfold cached, loaded. proj. rewrite list_to_map_assoc, Hrecord. reflexivity. }
  split; [reflexivity|]. split; [exact Hc|].
  split; [unfold isRateCached; rewrite Hc; reflexivity|].
  erewrite isRateValid_instant.
  - rewrite <- Qle_bool_inject_Z. reflexivity.
  - rewrite Hc. unfold record_instant, stored_record. cbn. exact Hiso.
  - reflexivity.
Qed.

(** X15: the name set with [config({LOCAL_STORAGE_VARIABLE_NAME: ...})] is
    used for writing only.  At load the default name is read, so a cache
    that [cacheRate] saved under another name is not read back: the next
    load starts with an empty cache although the item is in the store. *)
Theorem configured_name_is_not_read_back
    (rateName : string) (value : Value) (s : State) (st : Storage)
    (name : string) (now' : Z)
    (Hnull : JSON_parse "null" = Some (JValue VNull))
    (Hon : ToBoolean (setting "CACHE_TO_LOCAL_STORAGE" s) = true)
    (Hname : setting "LOCAL_STORAGE_VARIABLE_NAME" s = VStr name)
    (Hother : name <> "JS_CURRENCY_CONVERTER_CACHED_RATES")
    (Hls : localStorage s = Some st)
    (Hnone : items st !! "JS_CURRENCY_CONVERTER_CACHED_RATES" = None)
    (Hprobe : storage_size (<["js-currency-test" := "js-currency-test"]> (items st))
              <= quota st)
    (Hfit : storage_size
              (<[name := JSON_stringify (<[rateName := record_of value (clock s)]>
                                           (CACHED_RATES s))]>
                 (delete "js-currency-test" (items st))) <= quota st)
    (Hprobe' : storage_size
                 (<["js-currency-test" := "js-currency-test"]>
                    (<[name := JSON_stringify (<[rateName := record_of value (clock s)]>
                                                 (CACHED_RATES s))]>
                       (delete "js-currency-test" (items st)))) <= quota st) :
  let s' := snd (cacheRate rateName value s) in
  fst (cacheRate rateName value s) = Ok tt
  /\ (exists st', localStorage s' = Some st'
                  /\ items st' !! name = Some (JSON_stringify (CACHED_RATES s'))
                  /\ exists s0, factory (localStorage s') now' = Ready s0
                                /\ CACHED_RATES s0 = ∅).
Proof.
  intros s'.
  pose proof (cacheRate_saved rateName value s st Hon Hls Hprobe) as H.
  cbv zeta in H. rewrite Hname in H. cbn [ToString] in H.
  destruct (H Hfit) as [Hok Hst]. split; [exact Hok|].
  subst s'. rewrite Hst. eexists. split; [reflexivity|]. cbn [items].
  split.
  - rewrite lookup_insert_eq, cacheRate_CACHED_RATES. reflexivity.
  - match goal with |- context [factory (Some ?st')] =>
      rewrite (factory_available st' now' Hprobe') end. cbn [items quota].
    rewrite lookup_delete_ne by discriminate.
    rewrite lookup_insert_ne by exact Hother.
    rewrite lookup_delete_ne by discriminate. rewrite Hnone, Hnull.
    eexists. split; reflexivity.
Qed.

End ModuleLoad.

(** ** Invariants of the in-flight table and the request log *)

(** A property of the table, the log and the number of quote deferreds
    that [fetchQuote] keeps is kept by everything that reaches the table
    through [fetchQuote] only. *)
Section Preserved.
Variable Q : State -> Prop.
Hypothesis Q_same : forall s s',
  CONVERSIONS_IN_PROGRESS s' = CONVERSIONS_IN_PROGRESS s ->
  requests s' = requests s -> length (quotes s') = length (quotes s) ->
  Q s -> Q s'.
Hypothesis Q_fetch : forall fromCurrency toCurrency s,
  Q s -> Q (snd (fetchQuote fromCurrency toCurrency s)).

Lemma call_user_preserves u arg s : Q s -> Q (call_user u arg s).
Proof.
  intros Hq. destruct u as [tag|tag f t]; cbn [call_user].
  - apply (Q_same s); [reflexivity|reflexivity|reflexivity|exact Hq].
  - pose proof (Q_fetch f t s Hq) as H.
    destruct (fetchQuote f t s) as [p s1]. proj.
    apply (Q_same s1); [reflexivity|reflexivity|reflexivity|exact H].
Qed.

Lemma resolve_conversion_preserves c data s : Q s -> Q (resolve_conversion c data s).
Proof.
  intros Hq. unfold resolve_conversion.
  destruct (conversions s !! c) as [[[| |] done fail]|]; try exact Hq.
  apply fire_invariant; [intros; apply call_user_preserves; assumption|].
  apply (Q_same s); [reflexivity|reflexivity|reflexivity|exact Hq].
Qed.

Lemma reject_conversion_preserves c error s : Q s -> Q (reject_conversion c error s).
Proof.
  intros Hq. unfold reject_conversion.
  destruct (conversions s !! c) as [[[| |] done fail]|]; try exact Hq.
  apply fire_invariant; [intros; apply call_user_preserves; assumption|].
  apply (Q_same s); [reflexivity|reflexivity|reflexivity|exact Hq].
Qed.

Lemma call_rate_done_preserves cb data s : Q s -> Q (call_rate_done cb data s).
Proof.
  destruct cb; [apply resolve_conversion_preserves|apply call_user_preserves].
Qed.

Lemma call_rate_fail_preserves cb error s : Q s -> Q (call_rate_fail cb error s).
Proof.
  destruct cb; [apply reject_conversion_preserves|apply call_user_preserves].
Qed.

Lemma resolve_rate_preserves d data s : Q s -> Q (resolve_rate d data s).
Proof.
  intros Hq. unfold resolve_rate.
  destruct (rates s !! d) as [[[| |] done fail]|]; try exact Hq.
  apply fire_invariant; [intros; apply call_rate_done_preserves; assumption|].
  apply (Q_same s); [reflexivity|reflexivity|reflexivity|exact Hq].
Qed.

Lemma reject_rate_preserves d error s : Q s -> Q (reject_rate d error s).
Proof.
  intros Hq. unfold reject_rate.
  destruct (rates s !! d) as [[[| |] done fail]|]; try exact Hq.
  apply fire_invariant; [intros; apply call_rate_fail_preserves; assumption|].
  apply (Q_same s); [reflexivity|reflexivity|reflexivity|exact Hq].
Qed.

Lemma call_quote_done_preserves cb rate s : Q s -> Q (call_quote_done cb rate s).
Proof.
  destruct cb; [apply resolve_rate_preserves|apply call_user_preserves].
Qed.

Lemma call_quote_fail_preserves cb error s : Q s -> Q (call_quote_fail cb error s).
Proof.
  destruct cb as [q d|u]; [|apply call_user_preserves].
  cbn [call_quote_fail]. unfold oldRateFallback.
  destruct (isRateCached q s); [apply resolve_rate_preserves|apply reject_rate_preserves].
Qed.

Lemma resolve_quote_preserves P val s : Q s -> Q (resolve_quote P val s).
Proof.
  intros Hq. unfold resolve_quote.
  destruct (quotes s !! P) as [[[| |] done fail]|]; try exact Hq.
  apply fire_invariant; [intros; apply call_quote_done_preserves; assumption|].
  apply (Q_same s); [reflexivity|reflexivity| |exact Hq].
  proj. unfold settle. apply length_alter.
Qed.

Lemma reject_quote_preserves P error s : Q s -> Q (reject_quote P error s).
Proof.
  intros Hq. unfold reject_quote.
  destruct (quotes s !! P) as [[[| |] done fail]|]; try exact Hq.
  apply fire_invariant; [intros; apply call_quote_fail_preserves; assumption|].
  apply (Q_same s); [reflexivity|reflexivity| |exact Hq].
  proj. unfold settle. apply length_alter.
Qed.

Lemma quote_done_preserves p cb s : Q s -> Q (quote_done p cb s).
Proof.
  intros Hq. unfold quote_done.
  destruct (quotes s !! p) as [[[|val|error] done fail]|]; try exact Hq.
  - apply (Q_same s); [reflexivity|reflexivity| |exact Hq].
    proj. unfold add_done. apply length_alter.
  - apply call_quote_done_preserves, Hq.
Qed.

Lemma quote_fail_preserves p cb s : Q s -> Q (quote_fail p cb s).
Proof.
  intros Hq. unfold quote_fail.
  destruct (quotes s !! p) as [[[|val|error] done fail]|]; try exact Hq.
  - apply (Q_same s); [reflexivity|reflexivity| |exact Hq].
    proj. unfold add_fail. apply length_alter.
  - apply call_quote_fail_preserves, Hq.
Qed.

Lemma rate_done_preserves p cb s : Q s -> Q (rate_done p cb s).
Proof.
  intros Hq. unfold rate_done.
  destruct (rates s !! p) as [[[|val|error] done fail]|]; try exact Hq.
  - apply (Q_same s); [reflexivity|reflexivity|reflexivity|exact Hq].
  - apply call_rate_done_preserves, Hq.
Qed.

Lemma rate_fail_preserves p cb s : Q s -> Q (rate_fail p cb s).
Proof.
  intros Hq. unfold rate_fail.
  destruct (rates s !! p) as [[[|val|error] done fail]|]; try exact Hq.
  - apply (Q_same s); [reflexivity|reflexivity|reflexivity|exact Hq].
  - apply call_rate_fail_preserves, Hq.
Qed.

Lemma conversion_done_preserves p cb s : Q s -> Q (conversion_done p cb s).
Proof.
  intros Hq. unfold conversion_done.
  destruct (conversions s !! p) as [[[|val|error] done fail]|]; try exact Hq.
  - apply (Q_same s); [reflexivity|reflexivity|reflexivity|exact Hq].
  - apply call_user_preserves, Hq.
Qed.

Lemma conversion_fail_preserves p cb s : Q s -> Q (conversion_fail p cb s).
Proof.
  intros Hq. unfold conversion_fail.
  destruct (conversions s !! p) as [[[|val|error] done fail]|]; try exact Hq.
  - apply (Q_same s); [reflexivity|reflexivity|reflexivity|exact Hq].
  - apply call_user_preserves, Hq.
Qed.

Lemma getRate_preserves fromCurrency toCurrency s :
  Q s -> Q (snd (getRate fromCurrency toCurrency s)).
Proof.
  intros Hq. unfold getRate.
  set (s0 := set_rates (rates s ++ [new_Deferred]) s).
  assert (H0 : Q s0).
  { apply (Q_same s); [reflexivity|reflexivity|reflexivity|exact Hq]. }
  destruct (isRateValid (toQuery fromCurrency toCurrency) s0) as [[|]|e]; proj.
  - unfold resolveRate. apply resolve_rate_preserves, H0.
  - pose proof (Q_fetch fromCurrency toCurrency s0 H0) as H1.
    destruct (fetchQuote fromCurrency toCurrency s0) as [[p|v] s1]; proj;
      [|exact H1].
    apply quote_fail_preserves, quote_done_preserves, H1.
  - exact H0.
Qed.

Lemma convertAmount_preserves amount fromCurrency toCurrency s :
  Q s -> Q (snd (convertAmount amount fromCurrency toCurrency s)).
Proof.
  intros Hq. unfold convertAmount.
  set (s0 := set_conversions (conversions s ++ [new_Deferred]) s).
  assert (H0 : Q s0).
  { apply (Q_same s); [reflexivity|reflexivity|reflexivity|exact Hq]. }
  pose proof (getRate_preserves fromCurrency toCurrency s0 H0) as H1.
  destruct (getRate fromCurrency toCurrency s0) as [[p|e] s1]; proj.
  - apply rate_fail_preserves, rate_done_preserves, H1.
  - exact H1.
Qed.

Lemma cacheRate_preserves rateName value s :
  Q s -> Q (snd (cacheRate rateName value s)).
Proof.
  destruct (cacheRate_shape rateName value s) as (ls & c & ->).
  apply Q_same; reflexivity.
Qed.

(** Every step of a client other than the answer to a request. *)
Lemma perform_preserves a s :
  (forall i reply, a <> Answer i reply) -> Q s -> Q (perform a s).
Proof.
  intros Hna Hq.
  destruct a as [options|f t|f t|amount f t|[p|p|p] u|[p|p|p] u|i reply|dt];
    cbn [perform].
  - unfold config. destruct (isObject options); [|exact Hq].
    apply (Q_same s); [reflexivity|reflexivity|reflexivity|exact Hq].
  - apply getRate_preserves, Hq.
  - apply Q_fetch, Hq.
  - apply convertAmount_preserves, Hq.
  - apply quote_done_preserves, Hq.
  - apply rate_done_preserves, Hq.
  - apply conversion_done_preserves, Hq.
  - apply quote_fail_preserves, Hq.
  - apply rate_fail_preserves, Hq.
  - apply conversion_fail_preserves, Hq.
  - exfalso. apply (Hna i reply). reflexivity.
  - apply (Q_same s); [reflexivity|reflexivity|reflexivity|exact Hq].
Qed.

End Preserved.

Lemma fetchQuote_linked fromCurrency toCurrency s :
  linked s -> linked (snd (fetchQuote fromCurrency toCurrency s)).
Proof.
  intros [He Hw].
  destruct (fetchQuote_cases fromCurrency toCurrency s)
    as [(P & E & Hfq)|[(Hm & Hfq)|(Hi & Hfq)]]; rewrite Hfq; clear Hfq.
  1,2: proj; split;
    [ intros q P' H; proj; rewrite length_app; specialize (He q P' H); lia
    | intros i x Hx; proj; destruct (Hw i x Hx) as (q & P' & Hd & Hf & Hlt & Hu);
      exists q, P'; split; [exact Hd|]; split; [exact Hf|];
      split; [rewrite length_app; lia|exact Hu] ].
  proj.
  all: assert (Hfresh : forall q P, CONVERSIONS_IN_PROGRESS s !! q = Some (Some P) ->
                 P <> length (quotes s))
         by (intros q P H; specialize (He q P H); lia).
  all: split.
  all: try (intros q P H; proj; rewrite length_app; cbn [length];
            destruct (decide (toQuery fromCurrency toCurrency = q)) as [<-|Hne];
            [rewrite lookup_insert_eq in H; injection H as <-; lia
            |rewrite lookup_insert_ne in H by exact Hne; specialize (He q P H); lia]).
  all: intros i x Hx; proj;
    destruct (decide (i < length (requests s))) as [Hlt|Hge];
    [ rewrite lookup_app_l in Hx by exact Hlt;
      destruct (Hw i x Hx) as (q & P & Hd & Hf & HP & Hu);
      exists q, P; split; [exact Hd|]; split; [exact Hf|];
      split; [rewrite length_app; lia|];
      intros q' H;
      destruct (decide (toQuery fromCurrency toCurrency = q')) as [<-|Hne];
      [ rewrite lookup_insert_eq in H; injection H as <-; lia
      | rewrite lookup_insert_ne in H by exact Hne; apply Hu, H ]
    | rewrite lookup_app_r in Hx by lia;
      apply list_elem_of_lookup_2, list_elem_of_singleton in Hx; subst x;
      exists (toQuery fromCurrency toCurrency), (length (quotes s));
      split; [reflexivity|]; split; [reflexivity|];
      split; [rewrite length_app; cbn; lia|];
      intros q' H;
      destruct (decide (toQuery fromCurrency toCurrency = q')) as [<-|Hne];
      [ reflexivity
      | rewrite lookup_insert_ne in H by exact Hne;
        destruct (Hfresh q' _ H); reflexivity ] ].
Qed.

Lemma sound_same s s' :
  CONVERSIONS_IN_PROGRESS s' = CONVERSIONS_IN_PROGRESS s ->
  requests s' = requests s -> length (quotes s') = length (quotes s) ->
  sound s -> sound s'.
Proof.
  intros Hc Hr Hl ([He Hw] & Hreg & Hdis). split; [split|split].
  - intros q P H. rewrite Hc in H. rewrite Hl. exact (He q P H).
  - intros i x Hx. rewrite Hr in Hx.
    destruct (Hw i x Hx) as (q & P & Hd & Hf & Hlt & Hu).
    exists q, P. split; [exact Hd|]. split; [exact Hf|]. split; [lia|].
    intros q' H. rewrite Hc in H. apply Hu, H.
  - intros i x q P Hx Hcm Hd. rewrite Hr in Hx. rewrite Hc. exact (Hreg i x q P Hx Hcm Hd).
  - intros i j x y q q' P Hx Hy. rewrite Hr in Hx, Hy. exact (Hdis i j x y q q' P Hx Hy).
Qed.

Lemma fetchQuote_sound fromCurrency toCurrency s :
  sound s -> sound (snd (fetchQuote fromCurrency toCurrency s)).
Proof.
  intros (Hl & Hreg & Hdis).
  split; [apply fetchQuote_linked, Hl|].
  destruct (fetchQuote_cases fromCurrency toCurrency s)
    as [(P & E & Hfq)|[(Hm & Hfq)|(Hi & Hfq)]]; rewrite Hfq; clear Hfq.
  1,2: split; [exact Hreg|exact Hdis].
  assert (E : CONVERSIONS_IN_PROGRESS s !! toQuery fromCurrency toCurrency = None
              \/ CONVERSIONS_IN_PROGRESS s !! toQuery fromCurrency toCurrency = Some None)
    by (destruct Hi as [[E _]|E]; auto).
  proj.
  all: split.
  all: try (intros i x q P Hx Hcm Hd; proj;
            destruct (decide (i < length (requests s))) as [Hlt|Hge];
            [ rewrite lookup_app_l in Hx by exact Hlt;
              pose proof (Hreg i x q P Hx Hcm Hd) as H;
              destruct (decide (toQuery fromCurrency toCurrency = q)) as [<-|Hne];
              [ destruct E as [E|E]; rewrite E in H; discriminate H
              | rewrite lookup_insert_ne by exact Hne; exact H ]
            | rewrite lookup_app_r in Hx by lia;
              apply list_elem_of_lookup_2, list_elem_of_singleton in Hx; subst x;
              cbn [fetch_request xhr_done] in Hd; injection Hd as <- <-;
              apply lookup_insert_eq ]).
  all: intros i j x y q q' P Hx Hy Hdx Hdy; proj;
    destruct (decide (i < length (requests s))) as [Hi1|Hi1];
    destruct (decide (j < length (requests s))) as [Hj1|Hj1].
  all: pose proof (lookup_lt_Some _ _ _ Hx) as Hlx;
    pose proof (lookup_lt_Some _ _ _ Hy) as Hly;
    rewrite length_app in Hlx, Hly; cbn [length] in Hlx, Hly.
  all: try (rewrite lookup_app_l in Hx by exact Hi1).
  all: try (rewrite lookup_app_l in Hy by exact Hj1).
  all: try (rewrite lookup_app_r in Hx by lia;
            apply list_elem_of_lookup_2, list_elem_of_singleton in Hx; subst x;
            cbn [fetch_request xhr_done] in Hdx; injection Hdx as <- <-).
  all: try (rewrite lookup_app_r in Hy by lia;
            apply list_elem_of_lookup_2, list_elem_of_singleton in Hy; subst y;
            cbn [fetch_request xhr_done] in Hdy; injection Hdy as <- <-).
  all: try exact (Hdis i j x y q q' P Hx Hy Hdx Hdy).
  all: try (exfalso;
            match goal with
            | H : requests _ !! ?k = Some ?z, Hz : xhr_done ?z = _ |- _ =>
              destruct (proj2 Hl k z H) as (q0 & P0 & Hd0 & _ & Hlt0 & _);
              rewrite Hd0 in Hz; injection Hz as ? ?; subst; lia
            end).
  all: lia.
Qed.

Lemma mark_completed_sound i x s :
  requests s !! i = Some x -> sound s -> sound (mark_completed i x s).
Proof.
  intros Hx ([He Hw] & Hreg & Hdis).
  assert (Hlt : i < length (requests s)) by (eapply lookup_lt_Some, Hx).
  assert (Hback : forall j y, requests (mark_completed i x s) !! j = Some y ->
            exists y', requests s !! j = Some y'
                       /\ xhr_done y' = xhr_done y /\ xhr_fail y' = xhr_fail y
                       /\ (completed y = false -> completed y' = false)).
  { intros j y Hy. unfold mark_completed in Hy. proj.
    destruct (decide (i = j)) as [<-|Hne].
    - rewrite list_lookup_insert_eq in Hy by exact Hlt. injection Hy as <-.
      exists x. cbn. repeat split; [exact Hx|discriminate].
    - rewrite list_lookup_insert_ne in Hy by exact Hne. exists y. auto. }
  split; [split|split].
  - exact He.
  - intros j y Hy. destruct (Hback j y Hy) as (y' & Hy' & Hd & Hf & _).
    rewrite <- Hd, <- Hf. exact (Hw j y' Hy').
  - intros j y q P Hy Hc Hd. destruct (Hback j y Hy) as (y' & Hy' & Hd' & _ & Hc').
    rewrite <- Hd' in Hd. exact (Hreg j y' q P Hy' (Hc' Hc) Hd).
  - intros j k y z q q' P Hy Hz Hdy Hdz.
    destruct (Hback j y Hy) as (y' & Hy' & Hd1 & _).
    destruct (Hback k z Hz) as (z' & Hz' & Hd2 & _).
    rewrite <- Hd1 in Hdy. rewrite <- Hd2 in Hdz.
    exact (Hdis j k y' z' q q' P Hy' Hz' Hdy Hdz).
Qed.

(** Clearing the key of a request that has been answered. *)
Lemma clear_entry_sound query P i x s :
  sound s ->
  CONVERSIONS_IN_PROGRESS s !! query = Some (Some P) ->
  requests s !! i = Some x -> completed x = true ->
  xhr_done x = [CbOnSuccess query P; CbOnAlways query] ->
  sound (setConversionInProgress query None s).
Proof.
  intros ([He Hw] & Hreg & Hdis) Hen Hx Hc Hd.
  assert (Hclear : forall q P', CONVERSIONS_IN_PROGRESS
                                  (setConversionInProgress query None s) !! q
                                = Some (Some P') ->
            q <> query /\ CONVERSIONS_IN_PROGRESS s !! q = Some (Some P')).
  { intros q P' H. unfold setConversionInProgress in H. proj.
    destruct (decide (query = q)) as [<-|Hne].
    - rewrite lookup_insert_eq in H. discriminate H.
    - rewrite lookup_insert_ne in H by exact Hne. auto. }
  split; [split|split].
  - intros q P' H. destruct (Hclear q P' H) as [_ H']. exact (He q P' H').
  - intros j y Hy. unfold setConversionInProgress in Hy. proj.
    destruct (Hw j y Hy) as (q & P' & Hdy & Hfl & Hlt & Hu).
    exists q, P'. split; [exact Hdy|]. split; [exact Hfl|]. split; [exact Hlt|].
    intros q' H. destruct (Hclear q' P' H) as [_ H']. apply Hu, H'.
  - intros j y q P' Hy Hcy Hdy. unfold setConversionInProgress in *. proj.
    pose proof (Hreg j y q P' Hy Hcy Hdy) as H.
    destruct (decide (query = q)) as [<-|Hne].
    + exfalso. rewrite Hen in H. injection H as <-.
      assert (i = j) as <- by exact (Hdis i j x y query query P Hx Hy Hd Hdy).
      rewrite Hx in Hy. injection Hy as <-. rewrite Hc in Hcy. discriminate Hcy.
    + rewrite lookup_insert_ne by exact Hne. exact H.
  - intros j k y z q q' P' Hy Hz. exact (Hdis j k y z q q' P' Hy Hz).
Qed.

Lemma complete_sound i reply s : sound s -> sound (snd (complete i reply s)).
Proof.
  intros Hs.
  destruct (requests s !! i) as [x|] eqn:Hx;
    [|unfold complete; rewrite Hx; exact Hs].
  destruct (completed x) eqn:Hc; [unfold complete; rewrite Hx, Hc; exact Hs|].
  destruct (proj2 (proj1 Hs) i x Hx) as (query & P & Hd & Hf & _ & _).
  pose proof (proj1 (proj2 Hs) i x query P Hx Hc Hd) as Hen.
  pose proof (mark_completed_sound i x s Hx Hs) as Hm.
  assert (Hx' : requests (mark_completed i x s) !! i
                = Some (mkRequest (url x) (xhr_done x) (xhr_fail x) true)).
  { unfold mark_completed. proj. apply list_lookup_insert_eq.
    eapply lookup_lt_Some, Hx. }
  destruct reply as [response|error].
  - rewrite (complete_success s i x P query response Hx Hc Hd).
    destruct (get_prop response query) as [entry|e]; [|exact Hm].
    destruct (get_prop entry "val") as [val|e]; [|exact Hm].
    pose proof (cacheRate_preserves sound sound_same query val _ Hm) as H1.
    pose proof (cacheRate_keeps_entries query val (mark_completed i x s)) as Hk.
    destruct (cacheRate_shape query val (mark_completed i x s)) as (ls & c & Hsh).
    destruct (cacheRate query val (mark_completed i x s)) as [[[]|e] s1];
      cbn [snd] in *; [|exact H1].
    apply (clear_entry_sound query P i
             (mkRequest (url x) (xhr_done x) (xhr_fail x) true)).
    + apply (resolve_quote_preserves sound sound_same fetchQuote_sound), H1.
    + apply (proj1 (resolve_quote_keeps_entries P val s1)). rewrite Hk. exact Hen.
    + apply resolve_quote_keeps_requests. subst s1. exact Hx'.
    + reflexivity.
    + exact Hd.
  - rewrite (complete_failure s i x P query error Hx Hc Hf). cbn [snd].
    apply (clear_entry_sound query P i
             (mkRequest (url x) (xhr_done x) (xhr_fail x) true)).
    + apply (reject_quote_preserves sound sound_same fetchQuote_sound), Hm.
    + apply (proj1 (reject_quote_keeps_entries P error _)). exact Hen.
    + apply reject_quote_keeps_requests. exact Hx'.
    + reflexivity.
    + exact Hd.
Qed.

Lemma perform_sound a s : sound s -> sound (perform a s).
Proof.
  intros Hs. destruct a as [| | | | | |i reply|];
    try (apply (perform_preserves sound sound_same fetchQuote_sound);
         [intros ? ?; discriminate|exact Hs]).
  apply complete_sound, Hs.
Qed.

Lemma loaded_sound cache store now : sound (loaded cache store now).
Proof.
  split; [split|split].
  - intros q P H. cbn in H. rewrite lookup_empty in H. discriminate H.
  - intros i x H. discriminate H.
  - intros i x q P H. discriminate H.
  - intros i j x y q q' P H. discriminate H.
Qed.

Lemma run_sound actions : forall s, sound s -> sound (run actions s).
Proof.
  unfold run. induction actions as [|a actions IH]; intros s Hs; cbn [foldl].
  - exact Hs.
  - apply IH, perform_sound, Hs.
Qed.

(** X16: at most one request per key is waiting for its answer.  In every
    state the module can reach from load, two unanswered requests for the
    same key are one and the same request; that request settles the promise
    the in-flight table holds under the key, and a key whose entry is empty
    has no unanswered request. *)
Theorem one_outstanding_request_per_key
    (actions : list Action) (cache : gmap string Value) (store : option Storage)
    (now : Z) (i j : nat) (x y : Request) (query : string)
    (Hx : requests (run actions (loaded cache store now)) !! i = Some x)
    (Hy : requests (run actions (loaded cache store now)) !! j = Some y)
    (Hcx : completed x = false)
    (Hcy : completed y = false)
    (Hkx : CbOnAlways query ∈ xhr_done x)
    (Hky : CbOnAlways query ∈ xhr_done y) :
  i = j
  /\ exists P,
       xhr_done x = [CbOnSuccess query P; CbOnAlways query]
       /\ xhr_fail x = [CbOnError P; CbOnAlways query]
       /\ CONVERSIONS_IN_PROGRESS (run actions (loaded cache store now)) !! query
          = Some (Some P).
Proof.
  pose proof (run_sound actions _ (loaded_sound cache store now)) as ([_ Hw] & Hreg & Hdis).
  destruct (Hw i x Hx) as (q1 & P1 & Hd1 & Hf1 & _).
  destruct (Hw j y Hy) as (q2 & P2 & Hd2 & Hf2 & _).
  assert (q1 = query) as ->.
  { rewrite Hd1 in Hkx. apply elem_of_cons in Hkx as [H|H]; [discriminate H|].
    apply list_elem_of_singleton in H. injection H as <-. reflexivity. }
  assert (q2 = query) as ->.
  { rewrite Hd2 in Hky. apply elem_of_cons in Hky as [H|H]; [discriminate H|].
    apply list_elem_of_singleton in H. injection H as <-. reflexivity. }
  pose proof (Hreg i x query P1 Hx Hcx Hd1) as H1.
  pose proof (Hreg j y query P2 Hy Hcy Hd2) as H2.
  rewrite H1 in H2. injection H2 as <-.
  split; [exact (Hdis i j x y query query P1 Hx Hy Hd1 Hd2)|].
  exists P1. auto.
Qed.

(** ** Keys that the in-flight table inherits *)









(** ** A key whose fetch can no longer complete *)

Lemma dead_key_same query P s s' :
  CONVERSIONS_IN_PROGRESS s' = CONVERSIONS_IN_PROGRESS s ->
  requests s' = requests s -> length (quotes s') = length (quotes s) ->
  dead_key query P s -> dead_key query P s'.
Proof.
  intros Hc Hr _ [He Hn]. split; [rewrite Hc; exact He|].
  intros i x q' P' Hx. rewrite Hr in Hx. exact (Hn i x q' P' Hx).
Qed.

Lemma fetchQuote_dead_key query P fromCurrency toCurrency s :
  dead_key query P s -> dead_key query P (snd (fetchQuote fromCurrency toCurrency s)).
Proof.
  intros [He Hn].
  destruct (fetchQuote_cases fromCurrency toCurrency s)
    as [(P0 & E & Hfq)|[(Hm & Hfq)|(Hi & Hfq)]]; rewrite Hfq; clear Hfq.
  1,2: split; [exact He|exact Hn].
  assert (Hne : toQuery fromCurrency toCurrency <> query)
    by (intros Heq; rewrite Heq in Hi; destruct Hi as [[E _]|E];
        rewrite He in E; discriminate E).
  proj.
  split; [proj; rewrite lookup_insert_ne by exact Hne; exact He|].
  intros i x q' P' Hx Hc Hd; proj;
    destruct (decide (i < length (requests s))) as [Hlt|Hge];
    [ rewrite lookup_app_l in Hx by exact Hlt; exact (Hn i x q' P' Hx Hc Hd)
    | rewrite lookup_app_r in Hx by lia;
      apply list_elem_of_lookup_2, list_elem_of_singleton in Hx; subst x;
      cbn [fetch_request xhr_done] in Hd; injection Hd as <- <-; exact Hne ].
Qed.

Lemma mark_completed_dead_key query P i x s :
  requests s !! i = Some x ->
  dead_key query P s -> dead_key query P (mark_completed i x s).
Proof.
  intros Hx [He Hn]. split; [exact He|].
  intros j y q' P' Hy Hc Hd. unfold mark_completed in Hy. proj.
  destruct (decide (i = j)) as [<-|Hne].
  - rewrite list_lookup_insert_eq in Hy by (eapply lookup_lt_Some, Hx).
    injection Hy as <-. discriminate Hc.
  - rewrite list_lookup_insert_ne in Hy by exact Hne. exact (Hn j y q' P' Hy Hc Hd).
Qed.

Lemma clear_other_dead_key query P query' s :
  query' <> query ->
  dead_key query P s -> dead_key query P (setConversionInProgress query' None s).
Proof.
  intros Hne [He Hn]. split; [|exact Hn].
  unfold setConversionInProgress. proj. rewrite lookup_insert_ne by exact Hne. exact He.
Qed.

Lemma complete_dead_key query P i reply s :
  linked s -> dead_key query P s -> dead_key query P (snd (complete i reply s)).
Proof.
  intros Hl Hdk.
  destruct (requests s !! i) as [x|] eqn:Hx;
    [|unfold complete; rewrite Hx; exact Hdk].
  destruct (completed x) eqn:Hc; [unfold complete; rewrite Hx, Hc; exact Hdk|].
  destruct (proj2 Hl i x Hx) as (query' & P' & Hd & Hf & _ & _).
  pose proof (proj2 Hdk i x query' P' Hx Hc Hd) as Hne.
  pose proof (mark_completed_dead_key query P i x s Hx Hdk) as Hm.
  destruct reply as [response|error].
  - rewrite (complete_success s i x P' query' response Hx Hc Hd).
    destruct (get_prop response query') as [entry|e]; [|exact Hm].
    destruct (get_prop entry "val") as [val|e]; [|exact Hm].
    pose proof (cacheRate_preserves _ (dead_key_same query P) query' val _ Hm) as H1.
    destruct (cacheRate query' val (mark_completed i x s)) as [[[]|e] s1];
      cbn [snd] in *; [|exact H1].
    apply clear_other_dead_key; [exact Hne|].
    apply (resolve_quote_preserves _ (dead_key_same query P)
             (fetchQuote_dead_key query P)), H1.
  - rewrite (complete_failure s i x P' query' error Hx Hc Hf). cbn [snd].
    apply clear_other_dead_key; [exact Hne|].
    apply (reject_quote_preserves _ (dead_key_same query P)
             (fetchQuote_dead_key query P)), Hm.
Qed.

Lemma perform_dead_key query P a s :
  linked s -> dead_key query P s -> dead_key query P (perform a s).
Proof.
  intros Hl Hdk. destruct a as [| | | | | |i reply|];
    try (apply (perform_preserves _ (dead_key_same query P)
                  (fetchQuote_dead_key query P));
         [intros ? ?; discriminate|exact Hdk]).
  apply complete_dead_key; assumption.
Qed.

Lemma run_dead_key query P actions :
  forall s, well_formed s -> dead_key query P s ->
            well_formed (run actions s) /\ dead_key query P (run actions s).
Proof.
  unfold run. induction actions as [|a actions IH]; intros s Hw Hdk; cbn [foldl].
  - split; assumption.
  - apply IH; [apply perform_well_formed, Hw|].
    apply perform_dead_key; [exact (proj1 (proj2 Hw))|exact Hdk].
Qed.

(** X18: whenever the handler of a response throws (the response has no
    rate, as in X6, or the store refuses the cache write), the key is dead
    for the rest of the session.  Whatever the client and the remote end do
    afterwards, the in-flight table keeps the promise under the key, the
    promise stays pending, and every [fetchQuote] for the key returns it
    without making a request; only a reload of the module starts a new
    fetch for the key. *)
Theorem throwing_handler_kills_key
    (actions later : list Action) (cache : gmap string Value)
    (store : option Storage) (now : Z)
    (i : nat) (x : Request) (P : nat) (query : string) (response : Value) (e : Exn)
    (Hx : requests (run actions (loaded cache store now)) !! i = Some x)
    (Hc : completed x = false)
    (Hd : xhr_done x = [CbOnSuccess query P; CbOnAlways query])
    (Hthrow : fst (complete i (Success response) (run actions (loaded cache store now)))
              = Throw e) :
  let s := run actions (loaded cache store now) in
  let s' := run later (snd (complete i (Success response) s)) in
  CONVERSIONS_IN_PROGRESS s' !! query = Some (Some P)
  /\ is_pending (quotes s') P
  /\ forall fromCurrency toCurrency,
       toQuery fromCurrency toCurrency = query ->
       fst (fetchQuote fromCurrency toCurrency s') = P
       /\ requests (snd (fetchQuote fromCurrency toCurrency s')) = requests s'.
Proof.
  intros s s'. fold s in Hx, Hthrow.
  pose proof (reachable_well_formed actions cache store now) as Hw. fold s in Hw.
  pose proof (run_sound actions _ (loaded_sound cache store now)) as Hs. fold s in Hs.
  pose proof (perform_well_formed (Answer i (Success response)) s Hw) as Hw1.
  cbn [perform] in Hw1.
  pose proof (mark_completed_sound i x s Hx Hs) as (Hl0 & Hreg0 & Hdis0).
  assert (Hx0 : requests (mark_completed i x s) !! i
                = Some (mkRequest (url x) (xhr_done x) (xhr_fail x) true)).
  { unfold mark_completed. proj. apply list_lookup_insert_eq.
    eapply lookup_lt_Some, Hx. }
  assert (Hdk0 : dead_key query P (mark_completed i x s)).
  { split; [exact (proj1 (proj2 Hs) i x query P Hx Hc Hd)|].
    intros j y q' P' Hy Hcy Hdy ->.
    pose proof (Hreg0 j y query P' Hy Hcy Hdy) as H1.
    change (CONVERSIONS_IN_PROGRESS (mark_completed i x s))
      with (CONVERSIONS_IN_PROGRESS s) in H1.
    rewrite (proj1 (proj2 Hs) i x query P Hx Hc Hd) in H1. injection H1 as <-.
    assert (i = j) as <- by exact (Hdis0 i j _ y query query P Hx0 Hy Hd Hdy).
    rewrite Hx0 in Hy. injection Hy as <-. discriminate Hcy. }
  assert (Hdk1 : dead_key query P (snd (complete i (Success response) s))).
  { rewrite (complete_success s i x P query response Hx Hc Hd) in Hthrow |- *.
    destruct (get_prop response query) as [entry|e1]; [|exact Hdk0].
    destruct (get_prop entry "val") as [val|e1]; [|exact Hdk0].
    pose proof (cacheRate_preserves _ (dead_key_same query P) query val _ Hdk0) as H1.
    destruct (cacheRate query val (mark_completed i x s)) as [[[]|e1] s1];
      cbn [fst snd] in *; [discriminate Hthrow|exact H1]. }
  destruct (run_dead_key query P later _ Hw1 Hdk1) as [(_ & _ & Hp) [He _]].
  subst s'. split; [exact He|]. split; [exact (Hp query P He)|].
  intros f t Hq.
  rewrite (fetchQuote_join f t _ P) by (rewrite Hq; exact He).
  split; reflexivity.
Qed.

(** ** The cache only grows *)

Lemma isRateCached_insert queryCode rateName value now cache s :
  CACHED_RATES s = <[rateName := record_of value now]> cache ->
  isObject (default (inherited queryCode) (cache !! queryCode)) = true ->
  isRateCached queryCode s = true.
Proof.
  intros E H. unfold isRateCached, cached. rewrite E.
  destruct (decide (rateName = queryCode)) as [<-|Hne].
  - rewrite lookup_insert_eq. reflexivity.
  - rewrite lookup_insert_ne by exact Hne. exact H.
Qed.

Lemma complete_keeps_cached queryCode i reply s :
  isRateCached queryCode s = true ->
  isRateCached queryCode (snd (complete i reply s)) = true.
Proof.
  intros Hc.
  destruct (requests s !! i) as [x|] eqn:Hx; [|unfold complete; rewrite Hx; exact Hc].
  unfold complete. rewrite Hx. destruct (completed x); [exact Hc|].
  set (s0 := set_requests _ s).
  assert (Hfire : forall cbs s1, isRateCached queryCode s1 = true ->
            isRateCached queryCode (snd (fire_xhr reply cbs s1)) = true).
  { induction cbs as [|cb cbs IH]; intros s1 H1; [exact H1|].
    cbn [fire_xhr]. unfold bind.
    assert (Hcb : isRateCached queryCode (snd (call_xhr reply cb s1)) = true).
    { destruct cb as [q d|d|q], reply as [response|error]; cbn [call_xhr];
        try exact H1.
      - unfold fetchQuote_onSuccess, bind, lift, modify.
        destruct (get_prop response q) as [entry|e]; [|exact H1].
        destruct (get_prop entry "val") as [val|e]; [|exact H1].
        pose proof (cacheRate_CACHED_RATES q val s1) as Hcr.
        assert (H2 : isRateCached queryCode (snd (cacheRate q val s1)) = true).
        { apply (isRateCached_insert queryCode q val (clock s1) (CACHED_RATES s1));
            [exact Hcr|exact H1]. }
        destruct (cacheRate q val s1) as [[[]|e] s2]; cbn [snd] in *; [|exact H2].
        unfold isRateCached, cached in *.
        destruct (resolve_quote_env d val s2) as (_ & -> & _). exact H2.
      - unfold fetchQuote_onError, modify. cbn [snd].
        unfold isRateCached, cached in *.
        destruct (reject_quote_env d error s1) as (_ & -> & _). exact H1. }
    destruct (call_xhr reply cb s1) as [[[]|e] s2]; cbn [snd] in *; [|exact Hcb].
    apply IH, Hcb. }
  destruct reply; apply Hfire; exact Hc.
Qed.

Lemma perform_keeps_cached queryCode a s :
  isRateCached queryCode s = true -> isRateCached queryCode (perform a s) = true.
Proof.
  intros Hc.
  assert (Henv : forall s', same_env s s' -> isRateCached queryCode s' = true).
  { intros s' (_ & H & _). unfold isRateCached, cached in *. rewrite H. exact Hc. }
  destruct a as [options|f t|f t|amount f t|[p|p|p] u|[p|p|p] u|i reply|dt];
    cbn [perform].
  - unfold config. destruct (isObject options); exact Hc.
  - apply Henv, getRate_env.
  - apply Henv, (proj1 (fetchQuote_settles f t s)).
  - apply Henv, convertAmount_env.
  - apply Henv, quote_done_env.
  - apply Henv, rate_done_env.
  - apply Henv, conversion_done_env.
  - apply Henv, quote_fail_env.
  - apply Henv, rate_fail_env.
  - apply Henv, conversion_fail_env.
  - apply complete_keeps_cached, Hc.
  - exact Hc.
Qed.

(** X19: the module never drops a cached rate.  Once the cache holds a
    record under a key it holds one for the rest of the session, whatever
    is called and however requests are answered; so from then on a
    [getRate] for that key whose fetch fails falls back to a cached value
    and is not rejected. *)
Theorem cached_rate_is_never_dropped
    (actions : list Action) (s : State) (queryCode : string) (error : Value)
    (Hc : isRateCached queryCode s = true) :
  isRateCached queryCode (run actions s) = true
  /\ exists old,
       fallback queryCode error (run actions s)
       = Resolved (mkRateObject true old None).
Proof.
  assert (H : isRateCached queryCode (run actions s) = true).
  { revert s Hc. unfold run. induction actions as [|a actions IH]; intros s Hc;
      cbn [foldl]; [exact Hc|].
    apply IH, perform_keeps_cached, Hc. }
  split; [exact H|]. unfold fallback. rewrite H. eexists. reflexivity.
Qed.

(** ** A fetch that fails *)

(** X20: the answer to a request with a failure never throws and leaves
    settings, cache, clock, store and console as they were: a failed fetch
    is not cached and nothing about it is logged. *)
Theorem failed_fetch_leaves_cache (i : nat) (error : Value) (s : State) :
  fst (complete i (Failure error) s) = Ok tt
  /\ same_env s (snd (complete i (Failure error) s)).
Proof.
  destruct (requests s !! i) as [x|] eqn:Hx;
    [|unfold complete; rewrite Hx; split; [reflexivity|apply same_env_refl]].
  unfold complete. rewrite Hx.
  destruct (completed x); [split; [reflexivity|apply same_env_refl]|].
  set (s0 := set_requests _ s).
  assert (H0 : same_env s s0) by (repeat split).
  assert (Hfire : forall cbs s1, same_env s s1 ->
            fst (fire_xhr (Failure error) cbs s1) = Ok tt
            /\ same_env s (snd (fire_xhr (Failure error) cbs s1))).
  { induction cbs as [|cb cbs IH]; intros s1 H1; [split; [reflexivity|exact H1]|].
    cbn [fire_xhr]. unfold bind.
    destruct cb as [q d|d|q]; cbn [call_xhr].
    - apply IH, H1.
    - unfold fetchQuote_onError, modify. apply IH.
      eapply same_env_trans; [exact H1|apply reject_quote_env].
    - unfold fetchQuote_onAlways, modify. apply IH.
      eapply same_env_trans; [exact H1|]. repeat split. }
  apply Hfire, H0.
Qed.

(** ** The address of a request *)

Lemma toQuery_strings (a b : string) : toQuery (VStr a) (VStr b) = a +:+ "_" +:+ b.
Proof.
  unfold toQuery, js_or. cbn [ToBoolean].
  destruct (String.eqb_spec a "") as [->|Ha], (String.eqb_spec b "") as [->|Hb];
    reflexivity.
Qed.

(** X21: the address is read from the settings at each call.  After
    [config({API_URL: api})] a [fetchQuote] that starts a fetch for the
    codes [from] and [to] (the in-flight table reads [undefined] or [null]
    under the key) sends its one request to [api + from + "_" + to]; the
    requests made before, answered or not, keep the address they were sent
    to. *)
Theorem fetch_goes_to_configured_url
    (api fromCurrency toCurrency : string) (s : State)
    (Hi : idle (fromCurrency +:+ "_" +:+ toCurrency) s) :
  let key := fromCurrency +:+ "_" +:+ toCurrency in
  let r := fetchQuote (VStr fromCurrency) (VStr toCurrency)
             (config (VObj [("API_URL", VStr api)]) s) in
  exists p,
    fst r = APromise p
    /\ requests (snd r)
       = requests s ++
         [mkRequest (api +:+ key) [CbOnSuccess key p; CbOnAlways key]
            [CbOnError p; CbOnAlways key] false]
    /\ forall i x, requests s !! i = Some x -> requests (snd r) !! i = Some x.
Proof.
  intros key r. exists (length (quotes s)).
  assert (E : r = (APromise (length (quotes s)),
                   snd r)
              /\ requests (snd r)
                 = requests s ++
                   [mkRequest (api +:+ key)
                      [CbOnSuccess key (length (quotes s)); CbOnAlways key]
                      [CbOnError (length (quotes s)); CbOnAlways key] false]).
  { unfold r. rewrite fetchQuote_idle by (rewrite toQuery_strings; exact Hi).
    proj. rewrite toQuery_strings. unfold fetch_request, setting, config.
    cbn [isObject]. proj. rewrite jQuery_extend_lookup. split; reflexivity. }
  destruct E as [E1 E2]. split; [rewrite E1; reflexivity|]. split; [exact E2|].
  intros i x Hx. rewrite E2. apply lookup_app_l_Some, Hx.
Qed.

End Properties.

(** ** Closed examples *)

#[local] Existing Instance demo_host.

Lemma loaded_rates_bounded cache store now : rates_bounded (loaded cache store now).
Proof. intros P dq d H. discriminate H. Qed.

Lemma loaded_conversions_bounded cache store now :
  conversions_bounded (loaded cache store now).
Proof. intros d dr c H. discriminate H. Qed.

(** A record written at time 0 and read exactly one validity period later is
    fresh. *)
Lemma fresh_iff_age_within_validity_witness :
  record_instant (cached "USD_EUR" demo_boundary) = Some 0%Z
  /\ ToNumber (setting "RATES_VALIDITY_HOURS" demo_boundary)
     = Fin (inject_Z (HOURS * 24))
  /\ isRateValid "USD_EUR" demo_boundary = Ok true.
Proof.
  split; [reflexivity|]. split; [reflexivity|].
  destruct (fresh_iff_age_within_validity "USD_EUR" demo_boundary 0
              (inject_Z (HOURS * 24)) eq_refl eq_refl) as (_ & _ & _ & Hedge & _).
  apply Hedge. vm_compute. reflexivity.
Defined.

(** One millisecond before the boundary [getRate] answers from the cache. *)
Lemma getRate_fresh_hit_witness :
  record_instant (cached (toQuery USD EUR) demo_fresh) = Some 0%Z
  /\ ToNumber (setting "RATES_VALIDITY_HOURS" demo_fresh) = Fin (inject_Z (HOURS * 24))
  /\ (inject_Z (clock demo_fresh - 0) < inject_Z (HOURS * 24))%Q
  /\ exists s',
       getRate USD EUR demo_fresh = (Ok 0, s')
       /\ rates s' !! 0
          = Some (mkDeferred (Resolved (mkRateObject false (VNum (Fin (17 # 20))) None))
                    [] [])
       /\ requests s' = [].
Proof.
  split; [reflexivity|]. split; [reflexivity|]. split; [reflexivity|].
  destruct (getRate_fresh_hit USD EUR demo_fresh 0 (inject_Z (HOURS * 24))
              eq_refl eq_refl eq_refl) as (s' & Hg & Hr & Hq & _).
  exists s'. split; [exact Hg|]. split; [exact Hr|exact Hq].
Defined.

(** One millisecond after the boundary the rate is fetched again; the fetch
    fails five milliseconds later and the stale rate is served, marked
    expired. *)
Lemma getRate_fetch_failure_falls_back_witness :
  rates_bounded demo_stale
  /\ isRateValid (toQuery USD EUR) demo_stale = Ok false
  /\ idle (toQuery USD EUR) demo_stale
  /\ state_of
       (rates (snd (complete 0 (Failure (VStr "timeout"))
                      (tick 5 (snd (getRate USD EUR demo_stale)))))) 0
     = Some (Resolved (mkRateObject true (VNum (Fin (17 # 20))) None)).
Proof.
  split; [apply loaded_rates_bounded|]. split; [reflexivity|].
  split; [left; split; reflexivity|].
  destruct (getRate_fetch_failure_falls_back USD EUR demo_stale (VStr "timeout") 5
              (loaded_rates_bounded _ _ _) eq_refl
              (or_introl (or_introl (conj eq_refl eq_refl))))
    as [_ Hfetch].
  destruct Hfetch as (s1 & P & Hg & HP & _ & H).
  { intros [_ Hm]. discriminate Hm. }
  rewrite Hg. cbn [snd].
  assert (Hs1 : s1 = snd (getRate USD EUR demo_stale)) by (rewrite Hg; reflexivity).
  assert (P = 0) as ->.
  { rewrite Hs1 in HP. vm_compute in HP. congruence. }
  destruct (H 0 (fetch_request demo_stale "USD_EUR" 0) "USD_EUR") as [Hyes _].
  - rewrite Hs1. reflexivity.
  - reflexivity.
  - reflexivity.
  - apply Hyes. reflexivity.
Defined.

(** A client calls [fetchQuote] and retries from its failure callback: the
    retry runs while the shared promise settles and is handed that same,
    already rejected promise (number 0); no second request is issued, and
    the entry is cleared only afterwards.  The caller that arrived when the
    fetch had completed joined the finished fetch. *)
Lemma retry_on_failure_joins_finished_fetch :
  let s := snd (complete 0 (Failure (VStr "timeout")) demo_retry) in
  observed s = [(7, GotPromise 0)]
  /\ state_of (quotes s) 0 = Some (Rejected (VStr "timeout"))
  /\ length (requests s) = 1
  /\ CONVERSIONS_IN_PROGRESS s !! "USD_EUR" = Some None.
Proof. vm_compute. repeat split. Qed.

(** The request of a [getRate] call fails: the promise is rejected first,
    the entry is cleared last, and the next caller fetches again. *)
Lemma in_flight_entry_cleared_after_settling_witness :
  let s := snd (getRate USD EUR demo_start) in
  requests s !! 0 = Some (fetch_request demo_start "USD_EUR" 0)
  /\ completed (fetch_request demo_start "USD_EUR" 0) = false
  /\ xhr_done (fetch_request demo_start "USD_EUR" 0)
     = [CbOnSuccess "USD_EUR" 0; CbOnAlways "USD_EUR"]
  /\ xhr_fail (fetch_request demo_start "USD_EUR" 0)
     = [CbOnError 0; CbOnAlways "USD_EUR"]
  /\ fst (complete 0 (Failure (VStr "timeout")) s) = Ok tt
  /\ CONVERSIONS_IN_PROGRESS (snd (complete 0 (Failure (VStr "timeout")) s)) !! "USD_EUR"
     = Some None.
Proof.
  intros s.
  assert (Hx : requests s !! 0 = Some (fetch_request demo_start "USD_EUR" 0))
    by reflexivity.
  assert (Hok : fst (complete 0 (Failure (VStr "timeout")) s) = Ok tt) by reflexivity.
  repeat (split; [reflexivity|]).
  destruct (in_flight_entry_cleared_after_settling s 0
              (fetch_request demo_start "USD_EUR" 0) 0 "USD_EUR"
              (Failure (VStr "timeout")) Hx eq_refl eq_refl eq_refl Hok)
    as (s_mid & _ & _ & _ & _ & Hnull & _).
  exact Hnull.
Defined.

(** Three callers in a row, one request, one answer, three equal results. *)
Lemma concurrent_getRate_ordinary_path :
  isRateCached (toQuery USD EUR) demo_start = false
  /\ idle (toQuery USD EUR) demo_start
  /\ exists s1,
       repeat_call 3 (getRate USD EUR) demo_start = (Ok [0; 1; 2], s1)
       /\ length (requests s1) = 1
       /\ forall d, d ∈ [0; 1; 2] ->
            state_of (rates (snd (complete 0 (Success demo_response) s1))) d
            = Some (Resolved (mkRateObject false (VNum (Fin (17 # 20))) None)).
Proof.
  split; [reflexivity|]. split; [left; split; reflexivity|].
  destruct (concurrent_getRate_share_one_fetch USD EUR demo_start 2
              (Success demo_response) eq_refl (or_introl (conj eq_refl eq_refl)))
    as (s1 & Hcalls & Hreq & o & Hall & Ho).
  exists s1. split; [exact Hcalls|]. split; [rewrite Hreq; reflexivity|].
  assert (Hs1 : s1 = snd (repeat_call 3 (getRate USD EUR) demo_start))
    by (rewrite Hcalls; reflexivity).
  assert (o = Resolved (mkRateObject false (VNum (Fin (17 # 20))) None)) as ->.
  { rewrite Hs1 in Ho. vm_compute in Ho.
    destruct Ho as (entry & val & [= <-] & [= <-] & ->). reflexivity. }
  exact Hall.
Defined.

(** 100 USD at 17/20: the conversion resolves with 85 once the rate is
    fetched. *)
Lemma convertAmount_follows_getRate_witness :
  conversions_bounded demo_start
  /\ exists sc,
       convertAmount (VNum (Fin 100)) USD EUR demo_start = (Ok 0, sc)
       /\ state_of (conversions (answers [(0, Success demo_response)] sc)) 0
          = Some (Resolved (mkRateObject false (VNum (Fin (17 # 20)))
                              (Some (VNum (Fin 85))))).
Proof.
  split; [apply loaded_conversions_bounded|].
  pose proof (convertAmount_follows_getRate (VNum (Fin 100)) USD EUR demo_start
                (loaded_conversions_bounded _ _ _)) as H.
  cbv zeta in H.
  destruct (getRate USD EUR demo_start) as [[p|e] sg] eqn:Hg;
    [|vm_compute in Hg; discriminate Hg].
  assert (p = 0) as -> by (vm_compute in Hg; congruence).
  destruct H as (sc & Hconv & _ & Hev). exists sc. split; [exact Hconv|].
  specialize (Hev [(0, Success demo_response)]).
  assert (Hsc : sc = snd (convertAmount (VNum (Fin 100)) USD EUR demo_start))
    by (rewrite Hconv; reflexivity).
  assert (Hp : state_of (rates (answers [(0, Success demo_response)] sc)) 0
               = Some (Resolved (mkRateObject false (VNum (Fin (17 # 20))) None))).
  { rewrite Hsc. reflexivity. }
  rewrite Hp in Hev. exact Hev.
Defined.

(** C3 fails on the code, on two inputs.  (1) The store has room for the
    probe of [isLocalStorageAvailable] but not for the cache: three callers
    ask for the uncached pair USD/EUR, one request is made, the source
    answers it with a well-formed response, the write of the cache throws
    [QuotaExceededError] out of the success handler before the shared
    promise is resolved, and the three callers' promises stay pending: none
    of them receives a rate or an expired flag.  (2) The in-flight table is
    a plain object: for the uncached pair ("_", "defineGetter__") its key
    [__defineGetter__] reads a function inherited from [Object.prototype],
    [fetchQuote] returns that function without a request, and every
    [getRate] call for the pair throws a [TypeError]: the remote source is
    never invoked and the callers receive nothing. *)
Lemma concurrent_getRate_callers_left_without_result :
  (isRateCached (toQuery USD EUR) demo_full = false
   /\ let calls := repeat_call 3 (getRate USD EUR) demo_full in
      let r := complete 0 (Success demo_response) (snd calls) in
      fst calls = Ok [0; 1; 2]
      /\ length (requests (snd calls)) = 1
      /\ fst r = Throw QuotaExceededError
      /\ state_of (rates (snd r)) 0 = Some Pending
      /\ state_of (rates (snd r)) 1 = Some Pending
      /\ state_of (rates (snd r)) 2 = Some Pending)
  /\ (let f := VStr "_" in
      let t := VStr "defineGetter__" in
      toQuery f t = "__defineGetter__"
      /\ isRateCached (toQuery f t) demo_start = false
      /\ fst (fetchQuote f t demo_start) = AValue (VFunction "__defineGetter__")
      /\ let r := getRate f t demo_start in
         fst r = Throw TypeError
         /\ requests (snd r) = []
         /\ let r' := getRate f t (snd r) in
            fst r' = Throw TypeError
            /\ requests (snd r') = []).
Proof. vm_compute. repeat split. Qed.

(** C7 fails on the code: with room in the store for the probe of
    [isLocalStorageAvailable] but not for the cache, the write throws
    [QuotaExceededError] out of [cacheRate]; nothing is logged; the
    exception leaves the success handler of the fetch before the promise is
    resolved and before the entry is cleared; the caller's promise stays
    pending; and once the record has expired, the next call joins the dead
    fetch: no request, no result. *)
Lemma cacheRate_quota_exceeded_escapes :
  fst (cacheRate "USD_EUR" (VNum (Fin (17 # 20))) demo_full) = Throw QuotaExceededError
  /\ let s1 := snd (getRate USD EUR demo_full) in
     let r := complete 0 (Success demo_response) s1 in
     fst r = Throw QuotaExceededError
     /\ console (snd r) = []
     /\ state_of (rates (snd r)) 0 = Some Pending
     /\ CONVERSIONS_IN_PROGRESS (snd r) !! "USD_EUR" = Some (Some 0)
     /\ let r' := getRate USD EUR (tick 86400001 (snd r)) in
        fst r' = Ok 1
        /\ state_of (rates (snd r')) 1 = Some Pending
        /\ length (requests (snd r')) = 1.
Proof. vm_compute. repeat split. Qed.

(** ** Closed examples for the rest of the module *)

#[local] Existing Instance demo_reader.

(** Offline: the rate is served, the failure to save it is logged. *)
Lemma response_handled_when_store_unavailable_witness :
  store_unavailable demo_offline
  /\ ToBoolean (setting "CACHE_TO_LOCAL_STORAGE" demo_offline) = true
  /\ console (snd (complete 0 (Success demo_response) demo_offline))
     = ["Caching rates to local storage failed. Local storage not available"]
  /\ state_of (quotes (snd (complete 0 (Success demo_response) demo_offline))) 0
     = Some (Resolved (VNum (Fin (17 # 20)))).
Proof.
  assert (Hun : store_unavailable demo_offline) by (left; reflexivity).
  split; [exact Hun|]. split; [reflexivity|].
  destruct (response_handled_when_store_unavailable demo_offline 0
              (fetch_request (loaded ∅ None 1000) "USD_EUR" 0) 0 "USD_EUR"
              demo_response (VObj [("val", VNum (Fin (17 # 20)))]) (VNum (Fin (17 # 20)))
              eq_refl eq_refl eq_refl
              (ex_intro _ new_Deferred (conj eq_refl eq_refl))
              eq_refl eq_refl eq_refl Hun)
    as (_ & _ & Hco & _ & Hst & _).
  split; [exact Hco|exact Hst].
Defined.

(** Persistence off: a call and its answer leave the store empty. *)
Lemma persistence_off_leaves_store_witness :
  ToBoolean (setting "CACHE_TO_LOCAL_STORAGE" demo_off) = false
  /\ localStorage (run [GetRate USD EUR; Answer 0 (Success demo_response)] demo_off)
     = Some (mkStorage ∅ 1000).
Proof.
  split; [reflexivity|].
  destruct (persistence_off_leaves_store demo_off eq_refl) as [_ H].
  destruct (H [GetRate USD EUR; Answer 0 (Success demo_response)] eq_refl) as [Hls _].
  rewrite Hls. reflexivity.
Defined.

(** A stale 17/20 is replaced by the fetched 9/10. *)
Lemma getRate_fetch_success_resolves_witness :
  rates_bounded demo_stale
  /\ isRateValid (toQuery USD EUR) demo_stale = Ok false
  /\ idle (toQuery USD EUR) demo_stale
  /\ state_of
       (rates (snd (complete 0 (Success demo_response_new)
                      (tick 5 (snd (getRate USD EUR demo_stale)))))) 0
     = Some (Resolved (mkRateObject false (VNum (Fin (9 # 10))) None)).
Proof.
  split; [apply loaded_rates_bounded|]. split; [reflexivity|].
  split; [left; split; reflexivity|].
  destruct (getRate_fetch_success_resolves USD EUR demo_stale demo_response_new
              (VObj [("val", VNum (Fin (9 # 10)))]) (VNum (Fin (9 # 10))) 5
              (loaded_rates_bounded _ _ _) eq_refl
              (or_introl (or_introl (conj eq_refl eq_refl)))
              eq_refl eq_refl)
    as (s1 & P & Hg & HP & H).
  rewrite Hg. cbn [snd].
  assert (Hs1 : s1 = snd (getRate USD EUR demo_stale)) by (rewrite Hg; reflexivity).
  assert (P = 0) as ->.
  { rewrite Hs1 in HP. vm_compute in HP. congruence. }
  destruct (H 0 (fetch_request demo_stale "USD_EUR" 0)) as [Hst _].
  - rewrite Hs1. reflexivity.
  - reflexivity.
  - reflexivity.
  - rewrite Hs1. reflexivity.
  - exact Hst.
Defined.

(** Five milliseconds after the answer the rate comes from the cache. *)
Lemma fetched_rate_served_from_cache_witness :
  let s := snd (getRate USD EUR demo_start) in
  fst (complete 0 (Success demo_response) s) = Ok tt
  /\ ToNumber (setting "RATES_VALIDITY_HOURS" s) = Fin (inject_Z (HOURS * 24))
  /\ (inject_Z (Z.max 0 5) <= inject_Z (HOURS * 24))%Q
  /\ exists s2,
       getRate USD EUR (tick 5 (snd (complete 0 (Success demo_response) s))) = (Ok 1, s2)
       /\ state_of (rates s2) 1
          = Some (Resolved (mkRateObject false (VNum (Fin (17 # 20))) None))
       /\ length (requests s2) = 1.
Proof.
  intros s.
  assert (Hok : fst (complete 0 (Success demo_response) s) = Ok tt) by reflexivity.
  assert (Hage : (inject_Z (Z.max 0 5) <= inject_Z (HOURS * 24))%Q)
    by (vm_compute; discriminate).
  split; [exact Hok|]. split; [reflexivity|]. split; [exact Hage|].
  destruct (fetched_rate_served_from_cache s 0 (fetch_request demo_start "USD_EUR" 0) 0
              USD EUR demo_response (VObj [("val", VNum (Fin (17 # 20)))])
              (VNum (Fin (17 # 20))) (inject_Z (HOURS * 24)) 5
              eq_refl eq_refl eq_refl eq_refl eq_refl Hok eq_refl Hage)
    as (s2 & Hg & Hst & Hreq).
  exists s2. split; [exact Hg|]. split; [exact Hst|]. rewrite Hreq. reflexivity.
Defined.

(** The remote end answers [{}]: the handler throws and the fetch is
    stranded. *)
Lemma malformed_response_strands_fetch_witness :
  let s := snd (getRate USD EUR demo_start) in
  CONVERSIONS_IN_PROGRESS s !! "USD_EUR" = Some (Some 0)
  /\ read demo_response_empty "USD_EUR" = VUndefined
  /\ fst (complete 0 (Success demo_response_empty) s) = Throw TypeError
  /\ fst (fetchQuote USD EUR (snd (complete 0 (Success demo_response_empty) s))) = 0.
Proof.
  intros s. split; [reflexivity|]. split; [reflexivity|].
  destruct (malformed_response_strands_fetch s 0 (fetch_request demo_start "USD_EUR" 0)
              0 "USD_EUR" demo_response_empty eq_refl eq_refl eq_refl eq_refl
              (ex_intro _ _ (conj eq_refl eq_refl)) (or_introl eq_refl))
    as (Hthrow & _ & _ & _ & _ & _ & Hjoin).
  split; [exact Hthrow|]. exact (proj1 (Hjoin USD EUR eq_refl)).
Defined.

(** A record dated ["yesterday"] is still served as fresh after thirty
    years. *)
Lemma unreadable_age_never_expires_witness :
  isObject (cached (toQuery USD EUR) demo_misdated) = true
  /\ read (cached (toQuery USD EUR) demo_misdated) "date" = VStr "yesterday"
  /\ record_instant (cached (toQuery USD EUR) demo_misdated) = None
  /\ isRateValid (toQuery USD EUR) (set_clock 946080000000 demo_misdated) = Ok true.
Proof.
  split; [reflexivity|]. split; [reflexivity|]. split; [reflexivity|].
  exact (proj1 (unreadable_age_never_expires USD EUR demo_misdated eq_refl
                  (or_introl (ex_intro _ "yesterday" eq_refl)) (or_introl eq_refl)
                  946080000000%Z)).
Defined.

(** A record without a date: [getRate] throws. *)
Lemma undated_record_makes_getRate_throw_witness :
  isObject (cached (toQuery USD EUR) demo_undated) = true
  /\ read (cached (toQuery USD EUR) demo_undated) "date" = VUndefined
  /\ fst (getRate USD EUR demo_undated) = Throw TypeError.
Proof.
  split; [reflexivity|]. split; [reflexivity|].
  assert (Hdate : forall str t,
             read (cached (toQuery USD EUR) demo_undated) "date" <> VStr str
             /\ read (cached (toQuery USD EUR) demo_undated) "date" <> VDate t)
    by (intros str t; split; discriminate).
  exact (proj1 (proj2 (undated_record_makes_getRate_throw (VNum (Fin 100)) USD EUR
                         demo_undated eq_refl Hdate))).
Defined.

(** With [RATES_VALIDITY_HOURS: 24] a record that is a day old is stale: 24
    is taken as 24 milliseconds. *)
Lemma validity_is_in_milliseconds_witness :
  record_instant (cached "USD_EUR" demo_boundary) = Some 0%Z
  /\ isRateValid "USD_EUR"
       (config (VObj [("RATES_VALIDITY_HOURS", VNum (Fin 24))]) demo_boundary)
     = Ok false.
Proof.
  split; [reflexivity|].
  destruct (validity_is_in_milliseconds "USD_EUR" demo_boundary 0 24 eq_refl)
    as (_ & Hstale & _).
  apply Hstale. vm_compute. reflexivity.
Defined.

(** 100 USD at a fresh 17/20 is 85 at once. *)
Lemma convertAmount_fresh_hit_witness :
  isRateValid (toQuery USD EUR) demo_fresh = Ok true
  /\ exists s',
       convertAmount (VNum (Fin 100)) USD EUR demo_fresh = (Ok 0, s')
       /\ conversions s' !! 0
          = Some (mkDeferred
                    (Resolved (mkRateObject false (VNum (Fin (17 # 20)))
                                 (Some (VNum (Fin 85))))) [] [])
       /\ requests s' = [].
Proof.
  split; [reflexivity|].
  destruct (convertAmount_fresh_hit (VNum (Fin 100)) USD EUR demo_fresh eq_refl)
    as (s' & Hc & Hst & Hreq & _).
  exists s'. split; [exact Hc|]. split; [exact Hst|exact Hreq].
Defined.

(** The saved cache is there, but the store has 8 characters to spare and
    the probe needs 32: the module starts empty. *)
Lemma load_without_store_witness :
  store_unavailable (loaded ∅ (Some demo_store_full) 1000)
  /\ factory (Some demo_store_full) 1000
     = Ready
         (set_console
            ["Retrieving rates from local storage failed. Local storage not available"]
            (loaded ∅ (Some demo_store_full) 1000)).
Proof.
  assert (Hun : store_unavailable (loaded ∅ (Some demo_store_full) 1000)).
  { right. exists demo_store_full. split; [reflexivity|]. vm_compute. lia. }
  split; [exact Hun|]. exact (load_without_store (Some demo_store_full) 1000 Hun).
Defined.

(** First load in an empty store. *)
Lemma load_with_nothing_saved_witness :
  JSON_parse "null" = Some (JValue VNull)
  /\ storage_size (<["js-currency-test" := "js-currency-test"]> (items (mkStorage ∅ 1000)))
     <= 1000
  /\ factory (Some (mkStorage ∅ 1000)) 1000 = Ready demo_start.
Proof.
  assert (Hfit : storage_size
                   (<["js-currency-test" := "js-currency-test"]> (items (mkStorage ∅ 1000)))
                 <= quota (mkStorage ∅ 1000)) by (vm_compute; lia).
  split; [reflexivity|]. split; [exact Hfit|].
  rewrite (load_with_nothing_saved (reader := demo_reader) (mkStorage ∅ 1000) 1000
             eq_refl Hfit eq_refl).
  reflexivity.
Defined.

(** An item that is not JSON keeps the module from loading. *)
Lemma load_with_corrupt_item_witness :
  items demo_store_corrupt !! "JS_CURRENCY_CONVERTER_CACHED_RATES" = Some "{oops"
  /\ JSON_parse "{oops" = None
  /\ exists s, factory (Some demo_store_corrupt) 1000 = Broken RaisesSyntaxError s.
Proof.
  split; [reflexivity|]. split; [reflexivity|].
  apply (load_with_corrupt_item demo_store_corrupt 1000 "{oops");
    [vm_compute; lia|reflexivity|reflexivity].
Defined.

(** The rate cached at instant 0 is in the cache of the next visit, two
    seconds later, and is fresh there. *)
Lemma saved_cache_is_read_at_next_load_witness :
  let s' := snd (cacheRate "USD_EUR" (VNum (Fin (17 # 20))) demo_epoch) in
  setting "LOCAL_STORAGE_VARIABLE_NAME" demo_epoch
  = VStr "JS_CURRENCY_CONVERTER_CACHED_RATES"
  /\ JSON_parse
       (JSON_stringify (<["USD_EUR" := record_of (VNum (Fin (17 # 20))) 0]> ∅))
     = Some (JValue (VObj [("USD_EUR",
                            stored_record (VNum (Fin (17 # 20)))
                              "1970-01-01T00:00:00.000Z")]))
  /\ Date_parse "1970-01-01T00:00:00.000Z" = Some 0%Z
  /\ exists s0,
       factory (localStorage s') 2000 = Ready s0
       /\ cached "USD_EUR" s0
          = stored_record (VNum (Fin (17 # 20))) "1970-01-01T00:00:00.000Z"
       /\ isRateValid "USD_EUR" s0 = Ok true.
Proof.
  intros s'. split; [reflexivity|]. split; [reflexivity|]. split; [reflexivity|].
  destruct (saved_cache_is_read_at_next_load (host := demo_host) (reader := demo_reader)
              "USD_EUR" (VNum (Fin (17 # 20))) demo_epoch (mkStorage ∅ 1000)
              [("USD_EUR",
                stored_record (VNum (Fin (17 # 20))) "1970-01-01T00:00:00.000Z")]
              "1970-01-01T00:00:00.000Z" 2000)
    as [_ (s0 & Hload & _ & Hc & _ & Hv)];
    [discriminate|reflexivity|reflexivity|reflexivity
    |vm_compute; lia|vm_compute; lia|vm_compute; lia
    |reflexivity|reflexivity|reflexivity|].
  exists s0. split; [exact Hload|]. split; [exact Hc|exact Hv].
Defined.

(** Saved as MY_RATES, looked for under the default name: the next visit
    starts with an empty cache. *)
Lemma configured_name_is_not_read_back_witness :
  let s' := snd (cacheRate "USD_EUR" (VNum (Fin (17 # 20))) demo_renamed) in
  setting "LOCAL_STORAGE_VARIABLE_NAME" demo_renamed = VStr "MY_RATES"
  /\ (exists st', localStorage s' = Some st' /\ items st' !! "MY_RATES" = Some "USD_EUR;")
  /\ exists s0, factory (localStorage s') 2000 = Ready s0 /\ CACHED_RATES s0 = ∅.
Proof.
  intros s'. split; [reflexivity|].
  destruct (configured_name_is_not_read_back (reader := demo_reader)
              "USD_EUR" (VNum (Fin (17 # 20))) demo_renamed (mkStorage ∅ 1000)
              "MY_RATES" 2000 eq_refl eq_refl eq_refl) as [_ (st' & Hst & Hitem & Hload)];
    [discriminate|reflexivity|reflexivity|vm_compute; lia|vm_compute; lia
    |vm_compute; lia|].
  split; [|exact Hload].
  exists st'. split; [exact Hst|]. rewrite Hitem. reflexivity.
Defined.

(** One call, one request waiting, registered under its key. *)
Lemma one_outstanding_request_per_key_witness :
  let s := run [GetRate USD EUR] (loaded ∅ None 1000) in
  requests s !! 0 = Some (fetch_request (loaded ∅ None 1000) "USD_EUR" 0)
  /\ CbOnAlways "USD_EUR" ∈ xhr_done (fetch_request (loaded ∅ None 1000) "USD_EUR" 0)
  /\ CONVERSIONS_IN_PROGRESS s !! "USD_EUR" = Some (Some 0).
Proof.
  intros s.
  assert (Hk : CbOnAlways "USD_EUR"
               ∈ xhr_done (fetch_request (loaded ∅ None 1000) "USD_EUR" 0))
    by (apply list_elem_of_further, list_elem_of_here).
  assert (Hx : requests s !! 0 = Some (fetch_request (loaded ∅ None 1000) "USD_EUR" 0))
    by reflexivity.
  split; [exact Hx|]. split; [exact Hk|].
  destruct (one_outstanding_request_per_key (host := demo_host) [GetRate USD EUR]
              ∅ None 1000 0 0
              (fetch_request (loaded ∅ None 1000) "USD_EUR" 0)
              (fetch_request (loaded ∅ None 1000) "USD_EUR" 0) "USD_EUR"
              Hx Hx eq_refl eq_refl Hk Hk) as (_ & P & Hd & _ & Hen).
  injection Hd as <-. exact Hen.
Defined.

(** The store has room for the probe only: the cache write throws, and a
    second call and five milliseconds later the key still holds the pending
    promise 0. *)
Lemma throwing_handler_kills_key_witness :
  let s := run [GetRate USD EUR] demo_full in
  let s' := run [GetRate USD EUR; Wait 5] (snd (complete 0 (Success demo_response) s)) in
  requests s !! 0 = Some (fetch_request demo_full "USD_EUR" 0)
  /\ fst (complete 0 (Success demo_response) s) = Throw QuotaExceededError
  /\ CONVERSIONS_IN_PROGRESS s' !! "USD_EUR" = Some (Some 0)
  /\ is_pending (quotes s') 0.
Proof.
  intros s s'.
  assert (Hx : requests s !! 0 = Some (fetch_request demo_full "USD_EUR" 0))
    by reflexivity.
  assert (Hthrow : fst (complete 0 (Success demo_response) s) = Throw QuotaExceededError)
    by reflexivity.
  split; [exact Hx|]. split; [exact Hthrow|].
  destruct (throwing_handler_kills_key (host := demo_host) [GetRate USD EUR]
              [GetRate USD EUR; Wait 5]
              ∅ (Some (mkStorage ∅ 40)) 1000 0 (fetch_request demo_full "USD_EUR" 0) 0
              "USD_EUR" demo_response QuotaExceededError Hx eq_refl eq_refl Hthrow)
    as (He & Hp & _).
  split; [exact He|exact Hp].
Defined.

(** The stale record outlives a failed fetch. *)
Lemma cached_rate_is_never_dropped_witness :
  isRateCached "USD_EUR" demo_stale = true
  /\ isRateCached "USD_EUR"
       (run [GetRate USD EUR; Answer 0 (Failure (VStr "timeout"))] demo_stale) = true.
Proof.
  split; [reflexivity|].
  exact (proj1 (cached_rate_is_never_dropped (host := demo_host)
                  [GetRate USD EUR; Answer 0 (Failure (VStr "timeout"))] demo_stale
                  "USD_EUR" (VStr "timeout") eq_refl)).
Defined.

(** A mirror of the rate service. *)
Lemma fetch_goes_to_configured_url_witness :
  idle ("USD" +:+ "_" +:+ "EUR") demo_start
  /\ url <$> requests
       (snd (fetchQuote USD EUR
               (config (VObj [("API_URL", VStr "https://mirror.example/q=")])
                  demo_start)))
     = ["https://mirror.example/q=USD_EUR"].
Proof.
  assert (Hi : idle ("USD" +:+ "_" +:+ "EUR") demo_start)
    by (left; split; reflexivity).
  split; [exact Hi|].
  destruct (fetch_goes_to_configured_url (host := demo_host)
              "https://mirror.example/q=" "USD" "EUR" demo_start Hi)
    as (p & _ & E & _).
  unfold USD, EUR. rewrite E. reflexivity.
Defined.
